(** * Excel column extractor: a shallow embedding of [excel_colomn_extraction.py]

    The development models the core of the program (the [TaskProgress]
    percentage, the cancellation token, the task runner, schema discovery,
    the column extractor and the key-aligned merge engine) and proves or
    refutes the properties stated about them.

    Modelling choices, all read off the source:
    - a cell value is [None], an [int] or a [str]; styles, column widths and
      log messages carry no behaviour the properties depend on and are left
      out;
    - a worksheet is the dense grid of its cell values, row 1 first; the
      empty list is the sheet that holds no cell;
    - a Python [dict] that is iterated is an insertion-ordered association
      list ([dict_get], [dict_set]); a [dict] that is only looked up is a
      [gmap];
    - the operations run in a writer monad [M]: every effect on the outside
      world (opening and closing a workbook, assigning an output cell, a
      progress tick, saving) is an [event], every call of
      [raise_if_cancelled] is a poll, and [exec] interprets the polls
      against the cancellation flag;
    - Python floats are IEEE 754 binary64 numbers ([spec_float]). *)

From Stdlib Require Import ZArith Floats.SpecFloat.
From stdpp Require Import gmap strings list fin_maps pretty sorting.

Open Scope Z_scope.

(** ** Exceptions and results *)

Inductive exn :=
  | TaskCancelledException
  | KeyError
  | IndexError
  | OverflowError
  | ValueError
  | ZeroDivisionError
  | NameError.

Inductive outcome (A : Type) :=
  | Ok (a : A)
  | Raise (e : exn).
Arguments Ok {A} a.
Arguments Raise {A} e.

#[global] Instance exn_eq_dec : EqDecision exn.
Proof. solve_decision. Defined.

(** ** Python numbers: [int / int], [float * float], [int(float)] *)

Definition prec : Z := 53.
Definition emax : Z := 1024.

(** [a / b] on two ints: the correctly rounded quotient; [ZeroDivisionError]
    for [b = 0], [OverflowError] when the quotient is too large for a float. *)
Definition py_truediv (a b : Z) : outcome spec_float :=
  if b =? 0 then Raise ZeroDivisionError
  else if a =? 0 then Ok (S754_zero (b <? 0))
  else
    let '(mz, ez, lz) := SFdiv_core_binary prec emax (Z.abs a) 0 (Z.abs b) 0 in
    match binary_round_aux prec emax (xorb (a <? 0) (b <? 0)) mz ez lz with
    | S754_infinity _ => Raise OverflowError
    | q => Ok q
    end.

(** The int [n] converted to a float (exact for the constants used here). *)
Definition py_float_of_int (n : Z) : spec_float :=
  binary_normalize prec emax n 0 false.

Definition py_float_mul (x y : spec_float) : spec_float :=
  SFmul prec emax x y.

(** [int(x)]: truncation toward zero; infinities and NaN raise. *)
Definition py_int (x : spec_float) : outcome Z :=
  match x with
  | S754_zero _ => Ok 0
  | S754_finite s m e =>
      let v := if 0 <=? e then Z.pos m * 2 ^ e else Z.pos m / 2 ^ (- e) in
      Ok (if s then - v else v)
  | S754_infinity _ => Raise OverflowError
  | S754_nan => Raise ValueError
  end.

(** ** [TaskProgress.percentage] *)

Record TaskProgress := {
  current : Z;
  total : Z
}.

Definition percentage (p : TaskProgress) : outcome Z :=
  if total p <=? 0 then Ok 0
  else
    match py_truediv (current p) (total p) with
    | Raise e => Raise e
    | Ok q =>
        match py_int (py_float_mul q (py_float_of_int 100)) with
        | Raise e => Raise e
        | Ok n => Ok (Z.min 100 n)
        end
    end.

(** The formula of the specification, in exact arithmetic. *)
Definition clamp (lo hi x : Z) : Z := Z.max lo (Z.min hi x).

Definition spec_percentage (p : TaskProgress) : Z :=
  if total p <=? 0 then 0 else clamp 0 100 ((current p * 100) / total p).

(** ** Cell values and worksheets *)

Inductive value :=
  | VNone
  | VInt (z : Z)
  | VStr (s : string).

#[global] Instance value_eq_dec : EqDecision value.
Proof. solve_decision. Defined.

(** A worksheet: the rows of cell values, row 1 first. *)
Abbreviation sheet := (list (list value)).

Definition max_row (sh : sheet) : nat := Nat.max 1 (length sh).

Definition max_column (sh : sheet) : nat :=
  Nat.max 1 (max_list (length <$> sh)).

(** [sheet.cell(row, column).value], 1-based; a cell never assigned is
    [None]. *)
Definition cell_value (sh : sheet) (row column : nat) : value :=
  match row, column with
  | S r, S c => default VNone (sh !! r ≫= (.!! c))
  | _, _ => VNone
  end.

(** [sheet[row]]: the cells of a row, columns 1 to [max_column]. *)
Definition row_cells (sh : sheet) (row : nat) : list value :=
  cell_value sh row <$> seq 1 (max_column sh).

(** [enumerate(l, start)] and [range(a, b)]. *)
Fixpoint enumerate {A} (start : nat) (l : list A) : list (nat * A) :=
  match l with
  | [] => []
  | x :: l' => (start, x) :: enumerate (S start) l'
  end.

Definition py_range (a b : nat) : list nat := seq a (b - a).

(** [str(v)]. *)
Definition py_str (v : value) : string :=
  match v with
  | VNone => "None"
  | VInt z => pretty z
  | VStr s => s
  end.

(** [str(cell.value) if cell.value is not None else f"列{col_idx}"]: the
    expression that names a column, used by [load_file_info],
    [extract_columns] and [merge_multiple_files] alike. *)
Definition header_name (col_idx : nat) (v : value) : string :=
  match v with
  | VNone => "列" +:+ pretty col_idx
  | _ => py_str v
  end.


(** ** Schema discovery: [ExcelAnalyzer.load_file_info] *)

Record ColumnInfo := {
  ci_name : string;
  ci_index : nat;
  ci_file_index : nat
}.

Record ExcelFileInfo := {
  columns : list ColumnInfo;
  total_rows : nat;
  fi_file_index : nat
}.

(** [sheet[1]] on a workbook opened with [read_only=True]: the cells of
    row 1, columns 1 to [max_column]; on a sheet that holds no cell the row
    read is the empty tuple and its element 0 is asked for, [IndexError]. *)
Definition read_only_header (sh : sheet) : outcome (list value) :=
  match sh with
  | [] => Raise IndexError
  | _ :: _ => Ok (row_cells sh 1)
  end.

(** The [ExcelFileInfo] built from the cells of the header row. *)
Definition file_info_of (sh : sheet) (header : list value)
    (file_index : nat) : ExcelFileInfo :=
  {| columns :=
       (λ '(col_idx, v),
          {| ci_name := header_name col_idx v;
             ci_index := col_idx;
             ci_file_index := file_index |}) <$> enumerate 1 header;
     total_rows := max_row sh;
     fi_file_index := file_index |}.

(** The exception of the header read is logged and raised again. *)
Definition load_file_info (sh : sheet) (file_index : nat)
  : outcome ExcelFileInfo :=
  if decide (0 < max_row sh)%nat then
    match read_only_header sh with
    | Ok header => Ok (file_info_of sh header file_index)
    | Raise e => Raise e
    end
  else Ok (file_info_of sh [] file_index).

(** ** Insertion-ordered dictionaries *)

Section dict.
Context {K V : Type} `{EqDecision K}.

Fixpoint dict_get (k : K) (d : list (K * V)) : option V :=
  match d with
  | [] => None
  | (k', v) :: d' => if decide (k = k') then Some v else dict_get k d'
  end.

Definition dict_mem (k : K) (d : list (K * V)) : bool :=
  bool_decide (is_Some (dict_get k d)).

(** [d[k] = v]: an existing key keeps its place, a new key goes last. *)
Fixpoint dict_set (k : K) (v : V) (d : list (K * V)) : list (K * V) :=
  match d with
  | [] => [(k, v)]
  | (k', v') :: d' =>
      if decide (k = k') then (k, v) :: d' else (k', v') :: dict_set k v d'
  end.
End dict.

Abbreviation dict K V := (list (K * V)).

(** ** Effects: events, polls and the monad of operations *)

(** An assignment [output_cell.value = source_cell.value], with the
    coordinates of the source cell it reads. *)
Record write := {
  src_file : nat;
  src_row : nat;
  src_col : nat;
  dst_row : nat;
  dst_col : nat;
  written : value
}.

Inductive event :=
  | EOpen (file_index : nat)
  | EClose (file_index : nat)
  | EWrite (w : write)
  | EProgress (p : TaskProgress)
  | ESave.

Inductive action :=
  | APoll
  | AEvent (e : event).

#[global] Instance write_eq_dec : EqDecision write.
Proof. solve_decision. Defined.
#[global] Instance TaskProgress_eq_dec : EqDecision TaskProgress.
Proof. solve_decision. Defined.
#[global] Instance event_eq_dec : EqDecision event.
Proof. solve_decision. Defined.
#[global] Instance action_eq_dec : EqDecision action.
Proof. solve_decision. Defined.

(** An operation: the actions it performs when never cancelled, and how it
    ends. *)
Record M (A : Type) := mkM {
  script : list action;
  result : outcome A
}.
Arguments mkM {A} script result.
Arguments script {A} m.
Arguments result {A} m.

#[global] Instance M_ret : MRet M := λ A a, mkM [] (Ok a).

#[global] Instance M_bind : MBind M := λ A B f m,
  match result m with
  | Ok a => mkM (script m ++ script (f a)) (result (f a))
  | Raise e => mkM (script m) (Raise e)
  end.

Definition raise {A} (e : exn) : M A := mkM [] (Raise e).

Definition perform (e : event) : M unit := mkM [AEvent e] (Ok tt).

(** [cancellation_token.raise_if_cancelled()]. *)
Definition raise_if_cancelled : M unit := mkM [APoll] (Ok tt).

(** [d[k]] on a dictionary and [l[i]] on a list. *)
Definition getitem {A} (o : option A) : M A :=
  match o with
  | Some a => mret a
  | None => raise KeyError
  end.

Definition getindex {A} (o : option A) : M A :=
  match o with
  | Some a => mret a
  | None => raise IndexError
  end.

(** A [for] loop that threads the variables it updates. *)
Fixpoint foldM {S A} (f : S → A → M S) (l : list A) (s : S) : M S :=
  match l with
  | [] => mret s
  | x :: l' => s' ← f s x; foldM f l' s'
  end.

Definition forM {A} (l : list A) (body : A → M unit) : M unit :=
  foldM (λ _ x, body x) l tt.

Definition when (b : bool) (m : M unit) : M unit :=
  if b then m else mret tt.

(** The cancellation flag as the operation observes it: [tok i] is the flag
    at the [i]-th poll, counted from 0. [exec] runs a script from poll
    number [p]: it stops at the first poll that sees the flag set. *)
Fixpoint exec (tok : nat → bool) (p : nat) (s : list action)
  : option exn * list event * nat :=
  match s with
  | [] => (None, [], p)
  | APoll :: s' =>
      if tok p then (Some TaskCancelledException, [], S p)
      else exec tok (S p) s'
  | AEvent e :: s' =>
      let '(r, evs, p') := exec tok p s' in (r, e :: evs, p')
  end.

(** The run of an operation: its outcome, the events that happened, in
    order, and the number of polls made. *)
Record run_result (A : Type) := mkRun {
  run_outcome : outcome A;
  run_events : list event;
  run_polls : nat
}.
Arguments mkRun {A} _ _ _.
Arguments run_outcome {A} r.
Arguments run_events {A} r.
Arguments run_polls {A} r.

Definition run {A} (tok : nat → bool) (m : M A) : run_result A :=
  match exec tok 0 (script m) with
  | (None, evs, p) => mkRun (result m) evs p
  | (Some e, evs, p) => mkRun (Raise e) evs p
  end.

(** What a trace of events leaves behind. *)
Definition saved (evs : list event) : bool := bool_decide (ESave ∈ evs).

Definition writes_of (evs : list event) : list write :=
  omap (λ e, match e with EWrite w => Some w | _ => None end) evs.

(** The value of an output cell: the last assignment to it, [None] if there
    was none. *)
Definition out_cell (evs : list event) (row column : nat) : value :=
  default VNone
    (written <$> last (filter (λ w, dst_row w = row ∧ dst_col w = column)
                              (writes_of evs))).

Fixpoint polls_of (s : list action) : nat :=
  match s with
  | [] => 0
  | APoll :: s' => S (polls_of s')
  | AEvent _ :: s' => polls_of s'
  end.

(** The part of a script that precedes its [i]-th poll, counted from 0. *)
Fixpoint before_poll (i : nat) (s : list action) : list action :=
  match s with
  | [] => []
  | APoll :: s' =>
      match i with
      | O => []
      | S i' => APoll :: before_poll i' s'
      end
  | AEvent e :: s' => AEvent e :: before_poll i s'
  end.

Definition events_of (s : list action) : list event :=
  omap (λ a, match a with AEvent e => Some e | APoll => None end) s.

(** The primitive effects of the two operations. *)
Definition load_workbook (file_index : nat) : M unit :=
  perform (EOpen file_index).

Definition close_workbook (file_index : nat) : M unit :=
  perform (EClose file_index).

Definition copied (file_index : nat) (source_sheet : sheet)
    (source_row source_col target_row target_col : nat) : write :=
  {| src_file := file_index;
     src_row := source_row;
     src_col := source_col;
     dst_row := target_row;
     dst_col := target_col;
     written := cell_value source_sheet source_row source_col |}.

Definition copy_cell (file_index : nat) (source_sheet : sheet)
    (source_row source_col target_row target_col : nat) : M unit :=
  perform (EWrite (copied file_index source_sheet
                          source_row source_col target_row target_col)).

Definition progress_callback (cur tot : nat) : M unit :=
  perform (EProgress {| current := Z.of_nat cur; total := Z.of_nat tot |}).

Definition save : M unit := perform ESave.

(** ** The column extractor: [ExcelAnalyzer.extract_columns] *)

Definition extract_column_map (source_sheet : sheet)
    (selected_columns : list string) : gmap string nat :=
  foldl (λ column_map '(col_idx, v),
           let col_name := header_name col_idx v in
           if decide (col_name ∈ selected_columns)
           then <[col_name := col_idx]> column_map
           else column_map)
        ∅ (enumerate 1 (row_cells source_sheet 1)).

(** The body of the row loop, for one source column. *)
Definition extract_row (source_sheet : sheet) (n_selected : nat)
    (source_col_idx output_col_idx row_idx : nat) : M unit :=
  let total_rows := max_row source_sheet in
  raise_if_cancelled;;
  copy_cell 0 source_sheet row_idx source_col_idx row_idx output_col_idx;;
  when (bool_decide (row_idx `mod` 100 = 0)%nat)
    (progress_callback (row_idx * output_col_idx) (total_rows * n_selected)).

(** The body of the loop over [selected_columns]; it returns the next
    [output_col_idx]. *)
Definition extract_column (source_sheet : sheet)
    (column_map : gmap string nat) (n_selected : nat)
    (output_col_idx : nat) (col_name : string) : M nat :=
  match column_map !! col_name with
  | Some source_col_idx =>
      let total_rows := max_row source_sheet in
      forM (py_range 1 (total_rows + 1))
        (extract_row source_sheet n_selected source_col_idx output_col_idx);;
      mret (output_col_idx + 1)%nat
  | None => mret output_col_idx
  end.

Definition extract_columns (source_sheet : sheet)
    (selected_columns : list string) : M unit :=
  load_workbook 0;;
  let column_map := extract_column_map source_sheet selected_columns in
  _ ← foldM (extract_column source_sheet column_map (length selected_columns))
        selected_columns 1%nat;
  progress_callback 100 100;;
  save;;
  close_workbook 0.

(** ** The merge engine: [ExcelAnalyzer.merge_multiple_files] *)

(** Step 1: [column_map] of one file; a name that occurs twice in the header
    keeps its last position. *)
Definition column_map_of (sh : sheet) : gmap string nat :=
  foldl (λ column_map '(col_idx, v),
           <[header_name col_idx v := col_idx]> column_map)
        ∅ (enumerate 1 (row_cells sh 1)).

(** Step 2, inner loop: the distinct keys of a column in first-occurrence
    order, and the row of the first occurrence of each. *)
Definition scan_step (sh : sheet) (col : nat)
    (acc : list value * dict value nat) (row_idx : nat)
  : list value * dict value nat :=
  let '(keys, key_to_row) := acc in
  let key_value := cell_value sh row_idx col in
  if dict_mem key_value key_to_row then (keys, key_to_row)
  else (keys ++ [key_value], dict_set key_value row_idx key_to_row).

Definition scan_keys (sh : sheet) (col : nat) : list value * dict value nat :=
  foldl (scan_step sh col) ([], []) (py_range 2 (max_row sh + 1)).

(** Step 2: [reference_keys] and [reference_key_to_row]; one entry of the
    reference map, and the loop. *)
Definition reference_step (source_sheets : list sheet)
    (column_maps : list (gmap string nat))
    (acc : gmap string (list value) * gmap string (dict value nat))
    (entry : string * nat)
  : M (gmap string (list value) * gmap string (dict value nat)) :=
  let '(reference_keys, reference_key_to_row) := acc in
  let '(column_name, ref_file_index) := entry in
  column_map ← getitem (column_maps !! ref_file_index);
  match column_map !! column_name with
  | None => mret (reference_keys, reference_key_to_row)
  | Some ref_col_idx =>
      ref_sheet ← getindex (source_sheets !! ref_file_index);
      let '(keys, key_to_row) := scan_keys ref_sheet ref_col_idx in
      mret (<[column_name := keys]> reference_keys,
            <[column_name := key_to_row]> reference_key_to_row)
  end.

Definition build_reference (source_sheets : list sheet)
    (column_maps : list (gmap string nat))
    (reference_column_map : gmap string nat)
  : M (gmap string (list value) * gmap string (dict value nat)) :=
  foldM (reference_step source_sheets column_maps)
        (map_to_list reference_column_map) (∅, ∅).

(** Step 3: [columns_by_file], a [defaultdict(list)]. *)
Definition group_by_file (selected_cols_info : list (nat * string))
  : dict nat (list (nat * string)) :=
  foldl (λ columns_by_file '(file_index, column_name),
           dict_set file_index
             (default [] (dict_get file_index columns_by_file)
                ++ [(file_index, column_name)])
             columns_by_file)
        [] selected_cols_info.

(** Step 4: the search for the driving reference column of a file, and the
    test [has_ref_column and ref_column_name] on its result. *)
Fixpoint find_ref_column (cols : list (nat * string))
    (reference_column_map : gmap string nat) : option string :=
  match cols with
  | [] => None
  | (_, column_name) :: cols' =>
      if decide (is_Some (reference_column_map !! column_name))
      then Some column_name
      else find_ref_column cols' reference_column_map
  end.

Definition driving_ref (cols : list (nat * string))
    (reference_column_map : gmap string nat) : option string :=
  match find_ref_column cols reference_column_map with
  | Some ref_column_name =>
      if decide (ref_column_name = EmptyString) then None else Some ref_column_name
  | None => None
  end.

(** Rows map one to one, in their order, from target row 2. *)
Definition direct_step (acc : dict nat nat * nat) (row_idx : nat)
  : dict nat nat * nat :=
  let '(file_row_mapping, target_row) := acc in
  (dict_set row_idx target_row file_row_mapping, S target_row).

Definition direct_mapping (max_row : nat) : dict nat nat * nat :=
  foldl direct_step ([], 2%nat) (py_range 2 (max_row + 1)).

(** The walk over the canonical keys: one step, and the loop. *)
Definition ref_key_step (file_key_to_row : dict value nat)
    (acc : dict nat nat * nat) (ref_key : value) : dict nat nat * nat :=
  let '(file_row_mapping, target_row) := acc in
  match dict_get ref_key file_key_to_row with
  | Some row => (dict_set row target_row file_row_mapping, S target_row)
  | None => (file_row_mapping, S target_row)
  end.

Definition map_ref_keys (file_key_to_row : dict value nat)
    (ref_keys : list value) : dict nat nat * nat :=
  foldl (ref_key_step file_key_to_row) ([], 2%nat) ref_keys.

(** The keys of the file that the reference file does not have: one step,
    and the loop. *)
Definition append_own_step
    (reference_key_to_row : gmap string (dict value nat))
    (ref_column_name : string)
    (acc : dict nat nat * nat) (entry : value * nat)
  : M (dict nat nat * nat) :=
  let '(file_row_mapping, target_row) := acc in
  let '(file_key, file_row) := entry in
  ref_key_to_row ← getitem (reference_key_to_row !! ref_column_name);
  if dict_mem file_key ref_key_to_row
  then mret (file_row_mapping, target_row)
  else mret (dict_set file_row target_row file_row_mapping, S target_row).

Definition append_own_keys (file_key_to_row : dict value nat)
    (reference_key_to_row : gmap string (dict value nat))
    (ref_column_name : string) (start : dict nat nat * nat)
  : M (dict nat nat * nat) :=
  foldM (append_own_step reference_key_to_row ref_column_name)
        file_key_to_row start.

(** Step 4 for one file: its row mapping and the last value of
    [target_row]. *)
Definition file_row_mapping_of (source_sheets : list sheet)
    (column_maps : list (gmap string nat))
    (reference_column_map : gmap string nat)
    (reference_keys : gmap string (list value))
    (reference_key_to_row : gmap string (dict value nat))
    (file_index : nat) (cols : list (nat * string))
  : M (dict nat nat * nat) :=
  let max_rows := max_row <$> source_sheets in
  match driving_ref cols reference_column_map with
  | Some ref_column_name =>
      _ ← getitem (reference_column_map !! ref_column_name);
      ref_keys ← getitem (reference_keys !! ref_column_name);
      column_map ← getitem (column_maps !! file_index);
      match column_map !! ref_column_name with
      | Some (S c) =>
          let file_col_idx := S c in
          file_sheet ← getindex (source_sheets !! file_index);
          let file_key_to_row := (scan_keys file_sheet file_col_idx).2 in
          append_own_keys file_key_to_row reference_key_to_row ref_column_name
            (map_ref_keys file_key_to_row ref_keys)
      | _ =>
          file_max_row ← getitem (max_rows !! file_index);
          mret (direct_mapping file_max_row)
      end
  | None =>
      file_max_row ← getitem (max_rows !! file_index);
      mret (direct_mapping file_max_row)
  end.

(** Step 4: [row_mapping] and [final_row_count]; one file, and the loop. *)
Definition row_mapping_step (source_sheets : list sheet)
    (column_maps : list (gmap string nat))
    (reference_column_map : gmap string nat)
    (reference_keys : gmap string (list value))
    (reference_key_to_row : gmap string (dict value nat))
    (acc : gmap nat (dict nat nat) * nat) (entry : nat * list (nat * string))
  : M (gmap nat (dict nat nat) * nat) :=
  let '(row_mapping, final_row_count) := acc in
  let '(file_index, cols) := entry in
  '(file_row_mapping, target_row) ←
    file_row_mapping_of source_sheets column_maps reference_column_map
      reference_keys reference_key_to_row file_index cols;
  mret (<[file_index := file_row_mapping]> row_mapping,
        Nat.max final_row_count target_row).

Definition build_row_mapping (source_sheets : list sheet)
    (column_maps : list (gmap string nat))
    (reference_column_map : gmap string nat)
    (reference_keys : gmap string (list value))
    (reference_key_to_row : gmap string (dict value nat))
    (columns_by_file : dict nat (list (nat * string)))
  : M (gmap nat (dict nat nat) * nat) :=
  foldM (row_mapping_step source_sheets column_maps reference_column_map
           reference_keys reference_key_to_row)
        columns_by_file (∅, 1%nat).

(** Step 5, the body of the loop over a file's row mapping. *)
Definition emit_row (file_index : nat) (source_sheet : sheet)
    (source_col_idx output_col_idx : nat) (entry : nat * nat) : M unit :=
  let '(source_row, target_row) := entry in
  raise_if_cancelled;;
  copy_cell file_index source_sheet source_row source_col_idx
            target_row output_col_idx.

(** Step 5 for one selected column. *)
Definition emit_column (source_sheets : list sheet)
    (column_maps : list (gmap string nat))
    (row_mapping : gmap nat (dict nat nat)) (total_cols : nat)
    (file_index : nat) (st : nat * nat) (col : nat * string)
  : M (nat * nat) :=
  let '(output_col_idx, processed_cols) := st in
  let column_name := col.2 in
  raise_if_cancelled;;
  let processed_cols := S processed_cols in
  column_map ← getitem (column_maps !! file_index);
  match column_map !! column_name with
  | Some (S c) =>
      let source_col_idx := S c in
      source_sheet ← getindex (source_sheets !! file_index);
      file_row_map ← getitem (row_mapping !! file_index);
      copy_cell file_index source_sheet 1 source_col_idx 1 output_col_idx;;
      forM file_row_map
        (emit_row file_index source_sheet source_col_idx output_col_idx);;
      progress_callback processed_cols total_cols;;
      mret (S output_col_idx, processed_cols)
  | _ => mret (output_col_idx, processed_cols)
  end.

(** Step 5: the files in ascending order, the columns of each in selection
    order. *)
Definition emit_file (source_sheets : list sheet)
    (column_maps : list (gmap string nat))
    (row_mapping : gmap nat (dict nat nat)) (total_cols : nat)
    (columns_by_file : dict nat (list (nat * string)))
    (st : nat * nat) (file_index : nat) : M (nat * nat) :=
  cols ← getitem (dict_get file_index columns_by_file);
  foldM (emit_column source_sheets column_maps row_mapping total_cols
                     file_index) cols st.

Definition emit (source_sheets : list sheet)
    (column_maps : list (gmap string nat))
    (row_mapping : gmap nat (dict nat nat)) (total_cols : nat)
    (columns_by_file : dict nat (list (nat * string))) : M (nat * nat) :=
  foldM (emit_file source_sheets column_maps row_mapping total_cols
                   columns_by_file)
        (merge_sort (≤)%nat columns_by_file.*1) (1%nat, 0%nat).

Definition merge_multiple_files (file_infos : list sheet)
    (selected_cols_info : list (nat * string))
    (reference_column_map : gmap string nat) : M unit :=
  forM (seq 0 (length file_infos)) load_workbook;;
  let source_sheets := file_infos in
  let column_maps := column_map_of <$> source_sheets in
  '(reference_keys, reference_key_to_row) ←
    build_reference source_sheets column_maps reference_column_map;
  let columns_by_file := group_by_file selected_cols_info in
  '(row_mapping, final_row_count) ←
    build_row_mapping source_sheets column_maps reference_column_map
      reference_keys reference_key_to_row columns_by_file;
  _ ← emit source_sheets column_maps row_mapping
        (length selected_cols_info) columns_by_file;
  forM (seq 0 (length source_sheets)) close_workbook;;
  progress_callback 100 100;;
  save.

(** ** The task runner: [run_task] inside [AsyncTaskExecutor.execute] *)

(** Each callback is optional. An element of the result is a call handed
    to [root.after], given by what it does when the event loop runs it,
    after [run_task] has gone on: [Ok c] is a callback applied, and [Raise]
    a call that fails before it reaches the callback. The call
    [lambda: on_error(e)] reads [e] when it runs; by then the [except]
    block that bound [e] has ended and has unbound it, so the call raises
    [NameError] and [on_error] is not applied. The flag is read once more,
    by [is_cancelled], after the task has returned. *)
Definition run_task {A C} (tok : nat → bool) (task_func : M A)
    (on_complete : option (A → C)) (on_error : option (exn → C))
    (on_cancelled : option C) : list (outcome C) :=
  let r := run tok task_func in
  match run_outcome r with
  | Ok res =>
      if negb (tok (run_polls r)) then
        match on_complete with
        | Some f => [Ok (f res)]
        | None => []
        end
      else []
  | Raise TaskCancelledException =>
      match on_cancelled with
      | Some c => [Ok c]
      | None => []
      end
  | Raise _ =>
      match on_error with
      | Some _ => [Raise NameError]
      | None => []
      end
  end.

(** The callbacks that are applied when the event loop runs the calls. *)
Definition fired {C} (scheduled : list (outcome C)) : list C :=
  omap (λ call, match call with Ok c => Some c | Raise _ => None end)
       scheduled.

(** ** The scenario of the specification *)

Definition file_A : sheet :=
  [ [VStr "ID"; VStr "Name"];
    [VInt 1; VStr "Alice"];
    [VInt 2; VStr "Bob"];
    [VInt 3; VStr "Carol"] ].

Definition file_B : sheet :=
  [ [VStr "ID"; VStr "Score"];
    [VInt 2; VInt 90];
    [VInt 3; VInt 85];
    [VInt 4; VInt 77] ].

Definition never : nat → bool := λ _, false.
Definition always : nat → bool := λ _, true.

Definition scenario_events : list event :=
  run_events (run never
    (merge_multiple_files [file_A; file_B]
       [(0, "ID"); (0, "Name"); (1, "Score")]%nat {["ID" := 0%nat]})).

Definition scenario_events_with_B_ID : list event :=
  run_events (run never
    (merge_multiple_files [file_A; file_B]
       [(0, "ID"); (0, "Name"); (1, "ID"); (1, "Score")]%nat {["ID" := 0%nat]})).

Definition out_row (evs : list event) (row : nat) (ncols : nat) : list value :=
  out_cell evs row <$> seq 1 ncols.



(** ** Auxiliary notions used by the statements *)

(** The names of the header cells, left to right. *)
Definition header_names (sh : sheet) : list string :=
  (λ '(col_idx, v), header_name col_idx v) <$> enumerate 1 (row_cells sh 1).

(** The last position of a name in a list of positioned cells. *)
Definition last_named (ps : list (nat * value)) (name : string) (idx : nat)
  : Prop :=
  ∃ j v, ps !! j = Some (idx, v) ∧ header_name idx v = name ∧
         ∀ j' i' v', (j < j')%nat → ps !! j' = Some (i', v') →
                     header_name i' v' ≠ name.

Definition column_map_step (column_map : gmap string nat)
    (c : nat * value) : gmap string nat :=
  let '(col_idx, v) := c in <[header_name col_idx v := col_idx]> column_map.

(** The cell assignments of a script. *)
Definition script_writes (s : list action) : list write :=
  writes_of (events_of s).

(** Every cell assignment of the script is preceded by a poll of its own:
    the part of the script before its [i]-th poll holds [i] assignments. *)
Definition guarded (s : list action) : Prop :=
  ∀ i, (i ≤ polls_of s)%nat →
       length (script_writes (before_poll i s)) = i.

(** The events that neither save the output nor close a workbook. *)
Definition quiet (a : action) : Prop :=
  match a with
  | AEvent ESave | AEvent (EClose _) => False
  | _ => True
  end.

(** [r] is the first data row of [sh] whose cell in column [col] is [k]. *)
Definition first_row (sh : sheet) (col : nat) (k : value) (r : nat) : Prop :=
  (2 ≤ r ≤ max_row sh)%nat ∧ cell_value sh r col = k ∧
  ∀ r', (2 ≤ r' < r)%nat → cell_value sh r' col ≠ k.

(** What the scan of a column has built after [n] data rows. *)
Definition scan_inv (sh : sheet) (col n : nat)
    (acc : list value * dict value nat) : Prop :=
  acc.1 = acc.2.*1 ∧
  NoDup acc.1 ∧
  (∀ k r, dict_get k acc.2 = Some r →
          (2 ≤ r < 2 + n)%nat ∧ cell_value sh r col = k ∧
          ∀ r', (2 ≤ r' < r)%nat → cell_value sh r' col ≠ k) ∧
  (∀ k, dict_get k acc.2 = None →
        ∀ r, (2 ≤ r < 2 + n)%nat → cell_value sh r col ≠ k) ∧
  StronglySorted lt acc.2.*2 ∧
  Forall (λ r, (r < 2 + n)%nat) acc.2.*2.

(** The step of [append_own_keys] once the reference table is known. *)
Definition own_key_step (ref_key_to_row : dict value nat)
    (acc : dict nat nat * nat) (entry : value * nat) : dict nat nat * nat :=
  let '(file_row_mapping, target_row) := acc in
  let '(file_key, file_row) := entry in
  if dict_mem file_key ref_key_to_row then (file_row_mapping, target_row)
  else (dict_set file_row target_row file_row_mapping, S target_row).

(** The keys of a file that the reference column does not hold, with their
    rows, in the order of the file. *)
Definition own_keys (ref_key_to_row file_key_to_row : dict value nat)
  : dict value nat :=
  filter (λ kr, dict_get kr.1 ref_key_to_row = None) file_key_to_row.

(** What Step 2 guarantees about its two tables. *)
Definition ref_tables_ok (files : list sheet)
    (reference_column_map : gmap string nat)
    (tables : gmap string (list value) * gmap string (dict value nat))
  : Prop :=
  ∀ name keys, tables.1 !! name = Some keys →
    ∃ rf shr cr,
      reference_column_map !! name = Some rf ∧
      files !! rf = Some shr ∧
      column_map_of shr !! name = Some cr ∧
      keys = (scan_keys shr cr).1 ∧
      tables.2 !! name = Some (scan_keys shr cr).2.

(** At most one cell assignment per poll: the part of a script before its
    [i]-th poll holds at most [i] assignments. *)
Definition guarded_le (s : list action) : Prop :=
  ∀ i, (i ≤ polls_of s)%nat →
       (length (script_writes (before_poll i s)) ≤ i)%nat.

(** The first poll, among the first [n] from number [p], that sees the
    cancellation flag set. *)
Fixpoint first_set (tok : nat → bool) (p n : nat) : option nat :=
  match n with
  | O => None
  | S n' => if tok p then Some p else first_set tok (S p) n'
  end.

(** The two cancellable operations. *)
Inductive operation :=
  | Extract (source_sheet : sheet) (selected_columns : list string)
  | Merge (file_infos : list sheet) (selected_cols_info : list (nat * string))
          (reference_column_map : gmap string nat).

Definition operate (op : operation) : M unit :=
  match op with
  | Extract source_sheet selected_columns =>
      extract_columns source_sheet selected_columns
  | Merge file_infos selected_cols_info reference_column_map =>
      merge_multiple_files file_infos selected_cols_info reference_column_map
  end.

Definition is_extract (op : operation) : bool :=
  match op with Extract _ _ => true | Merge _ _ _ => false end.

(** A selected column is written when its file exists, bears the name and
    has a row mapping. *)
Definition resolves (files : list sheet) (row_mapping : gmap nat (dict nat nat))
    (fi : nat) (name : string) (sh : sheet) (c : nat) (m : dict nat nat)
  : Prop :=
  files !! fi = Some sh ∧ column_map_of sh !! name = Some c ∧
  row_mapping !! fi = Some m.

(** The beginning and the end of the script of a merge. *)
Definition opens (n : nat) : list action := (λ i, AEvent (EOpen i)) <$> seq 0 n.

Definition closes_and_save (n : nat) : list action :=
  ((λ i, AEvent (EClose i)) <$> seq 0 n)
  ++ [AEvent (EProgress {| current := 100; total := 100 |}); AEvent ESave].

(** What Step 4 guarantees about [row_mapping]. *)
Definition row_mapping_ok (files : list sheet) (refmap : gmap string nat)
    (rk : gmap string (list value)) (rk2r : gmap string (dict value nat))
    (sel : list (nat * string)) (rm : gmap nat (dict nat nat)) : Prop :=
  ∀ fi m, rm !! fi = Some m →
    ∃ t, result (file_row_mapping_of files (column_map_of <$> files) refmap
                   rk rk2r fi (filter (λ c, c.1 = fi) sel)) = Ok (m, t).

(** An operation opens its sources, works through a body that neither saves
    nor closes anything, and then, unless the body raised, closes, reports
    and saves. *)
Definition shaped (op : operation) (pre body post : list action) : Prop :=
  script (operate op) = pre ++ body ++ post ∧
  polls_of pre = 0%nat ∧ script_writes pre = [] ∧ Forall quiet pre ∧
  Forall quiet body ∧ guarded_le body ∧
  (is_extract op = true → guarded body) ∧
  polls_of post = 0%nat ∧
  match result (operate op) with
  | Ok _ => ESave ∈ events_of post
  | Raise _ => post = []
  end.

(** Files for the counterexample of the alignment claim: a reference file
    and two files that hold the keys 5 and 7, absent from the reference
    file, in opposite orders. *)
Definition file_R : sheet := [ [VStr "ID"]; [VInt 1] ].

Definition file_X : sheet :=
  [ [VStr "ID"; VStr "X"]; [VInt 5; VStr "x5"]; [VInt 7; VStr "x7"] ].

Definition file_Y : sheet :=
  [ [VStr "ID"; VStr "Y"]; [VInt 7; VStr "y7"]; [VInt 5; VStr "y5"] ].

Definition misaligned_events : list event :=
  run_events (run never
    (merge_multiple_files [file_R; file_X; file_Y]
       [(0, "ID"); (1, "ID"); (1, "X"); (2, "ID"); (2, "Y")]%nat
       {["ID" := 0%nat]})).

(** Two files whose first header cell holds the empty text: the reference
    file, and a file with the same keys in another order. *)
Definition file_E : sheet := [ [VStr EmptyString]; [VInt 1]; [VInt 2] ].

Definition file_F : sheet :=
  [ [VStr EmptyString; VStr "V"]; [VInt 2; VStr "b"]; [VInt 1; VStr "a"] ].

(** A file with a repeated key. *)
Definition file_D : sheet :=
  [ [VStr "ID"; VStr "V"]; [VInt 1; VStr "a"]; [VInt 1; VStr "b"];
    [VInt 2; VStr "c"] ].

(** The output the specification expects in its scenario, rows 1 to 4. *)
Definition scenario_expected : list (list value) :=
  [ [VStr "ID"; VStr "Name"; VStr "Score"];
    [VInt 1; VStr "Alice"; VNone];
    [VInt 2; VStr "Bob"; VInt 90];
    [VInt 3; VStr "Carol"; VInt 85] ].

(** The sign of a float; NaN has none. *)
Definition sign_is (s : bool) (x : spec_float) : Prop :=
  match x with
  | S754_nan => True
  | S754_zero s' | S754_infinity s' | S754_finite s' _ _ => s' = s
  end.


(** ** Notions used by the further properties *)

(** What the lookups of a merge need: the file indices of the reference map
    and of the selection are those of files, and the column that drives a
    file is a column of its reference file. *)
Definition well_formed (files : list sheet) (sel : list (nat * string))
    (refmap : gmap string nat) : Prop :=
  (∀ name rf, refmap !! name = Some rf → (rf < length files)%nat) ∧
  (∀ fi name, (fi, name) ∈ sel → (fi < length files)%nat) ∧
  (∀ fi name R, (fi, name) ∈ sel →
     driving_ref (filter (λ c, c.1 = fi) sel) refmap = Some R →
     ∃ rf shr, refmap !! R = Some rf ∧ files !! rf = Some shr ∧
               R ∈ header_names shr).

(** The output cell an assignment goes to. *)
Definition dest (w : write) : nat * nat := (dst_row w, dst_col w).

(** A row mapping under construction, with its counter: no source row and no
    target row occurs twice, and the target rows lie between 2 and the
    counter. *)
Definition rows_inv (acc : dict nat nat * nat) : Prop :=
  (2 ≤ acc.2)%nat ∧ NoDup acc.1.*1 ∧ NoDup acc.1.*2 ∧
  Forall (λ t, (2 ≤ t < acc.2)%nat) acc.1.*2.

(** The cell assignments of a step that starts at output column [s.1]: no
    cell is assigned twice, and the columns assigned lie between the column
    the step starts at and the one it ends at. *)
Definition block_ok (s : nat * nat) (m : M (nat * nat)) : Prop :=
  NoDup (dest <$> script_writes (script m)) ∧
  (∀ w, w ∈ script_writes (script m) → (s.1 ≤ dst_col w)%nat) ∧
  (∀ s', result m = Ok s' →
     (s.1 ≤ s'.1)%nat ∧
     ∀ w, w ∈ script_writes (script m) → (dst_col w < s'.1)%nat).

(** The order in which the merge emits the selected columns: the files in
    ascending order of their index, the columns of a file in the order of
    the selection. *)
Definition emission_order (sel : list (nat * string)) : list (nat * string) :=
  concat ((λ fi, filter (λ c, c.1 = fi) sel)
            <$> merge_sort (≤)%nat (group_by_file sel).*1).

(** A selected column that is emitted: its file, the sheet of the file, the
    position of the column and the row mapping of the file. *)
Definition resolved_column (files : list sheet)
    (rm : gmap nat (dict nat nat)) (col : nat * string)
  : option (nat * sheet * nat * dict nat nat) :=
  sh ← files !! col.1;
  c ← column_map_of sh !! col.2;
  m ← rm !! col.1;
  Some (col.1, sh, c, m).

(** The cell assignments of one emitted column: the header cell, then the
    mapped rows in the order of the row mapping. *)
Definition column_writes (oc : nat) (rc : nat * sheet * nat * dict nat nat)
  : list write :=
  let '(fi, sh, c, m) := rc in
  copied fi sh 1 c 1 oc :: ((λ en, copied fi sh en.1 c en.2 oc) <$> m).

(** ** The main window: [MainUI] *)

From Stdlib Require Import Ascii.

(** What the handlers read and change: the loaded files, each
    [ExcelFileInfo] with its [file_path], and the check boxes of the
    columns, a dictionary from the key ["file_index:column_name"] to the
    state of the box. *)
Record MainUI := {
  file_infos : list (string * ExcelFileInfo);
  column_vars : dict string bool
}.

(** [f"{col_info.file_index}:{col_info.name}"]. *)
Definition var_key (file_index : nat) (name : string) : string :=
  pretty file_index +:+ ":" +:+ name.

(** [MainUI._update_column_list]: one box per listed column, unchecked; two
    columns with the same key share a box. *)
Definition update_column_list (infos : list (string * ExcelFileInfo))
  : dict string bool :=
  foldl (λ vars col_info,
           dict_set (var_key (ci_file_index col_info) (ci_name col_info))
                    false vars)
        [] (concat ((λ info, columns info.2) <$> infos)).

(** The loop of [MainUI._on_select_files]: a path already loaded is skipped;
    [fs] gives the sheet of the workbook at a path, [None] when the workbook
    cannot be opened; a load that raises, at the opening or at the header
    row, ends the loop; the flag tells whether the loop ran to its end. *)
Fixpoint load_files (fs : string → option sheet) (file_paths : list string)
    (infos : list (string * ExcelFileInfo))
  : list (string * ExcelFileInfo) * bool :=
  match file_paths with
  | [] => (infos, true)
  | file_path :: file_paths' =>
      if bool_decide (file_path ∈ infos.*1) then load_files fs file_paths' infos
      else
        match fs file_path with
        | Some sh =>
            let file_index := length infos in
            match load_file_info sh file_index with
            | Ok file_info =>
                load_files fs file_paths' (infos ++ [(file_path, file_info)])
            | Raise _ => (infos, false)
            end
        | None => (infos, false)
        end
  end.

(** [MainUI._on_select_files]: when a load raises, the files loaded before
    it stay, and the column list is not rebuilt. *)
Definition on_select_files (fs : string → option sheet)
    (file_paths : list string) (ui : MainUI) : MainUI :=
  match file_paths with
  | [] => ui
  | _ =>
      let '(infos, completed) := load_files fs file_paths (file_infos ui) in
      {| file_infos := infos;
         column_vars :=
           if completed then update_column_list infos else column_vars ui |}
  end.

(** [self.file_infos.pop(index)], guarded by [0 <= index < len]. *)
Definition pop_at {A} (l : list A) (index : nat) : list A :=
  if decide (index < length l)%nat then delete index l else l.

(** The file index of a file and of its columns set to [i]. *)
Definition renumber (i : nat) (info : string * ExcelFileInfo)
  : string * ExcelFileInfo :=
  (info.1,
   {| columns :=
        (λ col, {| ci_name := ci_name col; ci_index := ci_index col;
                   ci_file_index := i |}) <$> columns info.2;
      total_rows := total_rows info.2;
      fi_file_index := i |}).

(** [MainUI._on_remove_file]: the selected positions are removed from the
    last to the first, the remaining files are numbered anew, and the
    column list is rebuilt. *)
Definition on_remove_file (selected_indices : list nat) (ui : MainUI)
  : MainUI :=
  match selected_indices with
  | [] => ui
  | _ =>
      let infos := foldl pop_at (file_infos ui) (reverse selected_indices) in
      let infos := imap renumber infos in
      {| file_infos := infos; column_vars := update_column_list infos |}
  end.

(** [MainUI._on_select_all] and [MainUI._on_deselect_all]. *)
Definition set_all (state : bool) (ui : MainUI) : MainUI :=
  {| file_infos := file_infos ui;
     column_vars := (λ kv, (kv.1, state)) <$> column_vars ui |}.

(** A click on the check box of [key]. *)
Definition toggle (key : string) (ui : MainUI) : MainUI :=
  {| file_infos := file_infos ui;
     column_vars :=
       match dict_get key (column_vars ui) with
       | Some state => dict_set key (negb state) (column_vars ui)
       | None => column_vars ui
       end |}.

(** [key.split(":", 1)]: the parts before and after the first colon; the
    string itself when it has no colon. *)
Fixpoint split_first_colon (s : string) : option (string * string) :=
  match s with
  | EmptyString => None
  | String a s' =>
      if Ascii.eqb a ":"%char then Some (EmptyString, s')
      else '(before, after) ← split_first_colon s';
           Some (String a before, after)
  end.

Definition py_split_colon (s : string) : list string :=
  match split_first_colon s with
  | Some (before, after) => [before; after]
  | None => [s]
  end.

(** [int(s)] on the strings that [str] of a file index can be: the value of
    a string of decimal digits. [None] stands for every other string; of
    those [int] rejects some with [ValueError] and reads others (blanks, a
    sign, underscores), which no key holds before its first colon. *)
Definition digit_of (a : ascii) : option N :=
  (if Ascii.eqb a "0"%char then Some 0 else if Ascii.eqb a "1"%char then Some 1
   else if Ascii.eqb a "2"%char then Some 2 else if Ascii.eqb a "3"%char then Some 3
   else if Ascii.eqb a "4"%char then Some 4 else if Ascii.eqb a "5"%char then Some 5
   else if Ascii.eqb a "6"%char then Some 6 else if Ascii.eqb a "7"%char then Some 7
   else if Ascii.eqb a "8"%char then Some 8 else if Ascii.eqb a "9"%char then Some 9
   else None)%N.

Fixpoint digits_value (acc : N) (s : string) : option N :=
  match s with
  | EmptyString => Some acc
  | String a s' => d ← digit_of a; digits_value (acc * 10 + d) s'
  end.

Definition int_of_digits (s : string) : option nat :=
  match s with
  | EmptyString => None
  | _ => N.to_nat <$> digits_value 0 s
  end.

(** The start of [MainUI._on_export]: the keys of the checked boxes, in the
    order of the dictionary, and their reading as pairs of a file index and
    a column name; a key without colon is passed over. *)
Definition selected_keys (vars : dict string bool) : list string :=
  (filter (λ kv, kv.2 = true) vars).*1.

Fixpoint parse_keys (keys : list string) : option (list (nat * string)) :=
  match keys with
  | [] => Some []
  | key :: keys' =>
      match py_split_colon key with
      | [part0; part1] =>
          file_index ← int_of_digits part0;
          rest ← parse_keys keys';
          Some ((file_index, part1) :: rest)
      | _ => parse_keys keys'
      end
  end.

(** [column_name_to_files], a [defaultdict(list)], and [duplicate_columns],
    its entries of more than one file. *)
Definition group_by_name (selected_cols_info : list (nat * string))
  : dict string (list (nat * string)) :=
  foldl (λ column_name_to_files '(file_index, column_name),
           dict_set column_name
             (default [] (dict_get column_name column_name_to_files)
                ++ [(file_index, column_name)])
             column_name_to_files)
        [] selected_cols_info.

Definition duplicate_columns (selected_cols_info : list (nat * string))
  : dict string (list (nat * string)) :=
  filter (λ entry, (1 < length entry.2)%nat)
         (group_by_name selected_cols_info).

(** How a handler ends. *)
Inductive handled (A : Type) :=
  | Returned
  | Raised (e : exn)
  | Started (a : A).
Arguments Returned {A}.
Arguments Raised {A} e.
Arguments Started {A} a.

(** The dialogs of [MainUI._on_export], one per duplicated column name:
    [choose column_name file_indices] is what
    [ReferenceColumnDialog.get_result] returns, [None] when the user
    cancels; [self.file_infos[file_index]] is read for every option. *)
Fixpoint choose_references (choose : string → list nat → option nat)
    (n_files : nat) (duplicates : dict string (list (nat * string)))
    (reference_column_map : gmap string nat) : handled (gmap string nat) :=
  match duplicates with
  | [] => Started reference_column_map
  | (column_name, file_list) :: duplicates' =>
      if forallb (λ file_index, file_index <? n_files)%nat file_list.*1 then
        match choose column_name file_list.*1 with
        | None => Returned
        | Some ref_file_index =>
            choose_references choose n_files duplicates'
              (<[column_name := ref_file_index]> reference_column_map)
        end
      else Raised IndexError
  end.

(** [MainUI._on_export], up to the start of the task: the selection and the
    reference map that [merge_multiple_files] is called with.
    [output_path] is what the save dialog returns, the empty string when it
    is cancelled. *)
Definition on_export (choose : string → list nat → option nat)
    (output_path : string) (ui : MainUI)
  : handled (list (nat * string) * gmap string nat) :=
  match file_infos ui with
  | [] => Returned
  | _ =>
      match selected_keys (column_vars ui) with
      | [] => Returned
      | selected_columns =>
          match parse_keys selected_columns with
          | None => Raised ValueError
          | Some selected_cols_info =>
              match choose_references choose (length (file_infos ui))
                      (duplicate_columns selected_cols_info) ∅ with
              | Returned => Returned
              | Raised e => Raised e
              | Started reference_column_map =>
                  if decide (output_path = EmptyString) then Returned
                  else Started (selected_cols_info, reference_column_map)
              end
          end
      end
  end.

(** The window as the handlers keep it: the loaded files are distinct
    paths, numbered by their positions, each described as [load_file_info]
    describes the sheet [fs] holds at its path; and every check box is the
    box of a listed column. *)
Definition described (fs : string → option sheet)
    (info : string * ExcelFileInfo) (sh : sheet) : Prop :=
  fs info.1 = Some sh ∧ ∃ j, load_file_info sh j = Ok info.2.

Definition files_described (fs : string → option sheet)
    (infos : list (string * ExcelFileInfo)) (files : list sheet) : Prop :=
  NoDup infos.*1 ∧
  length files = length infos ∧
  ∀ i sh, files !! i = Some sh →
    ∃ path info, infos !! i = Some (path, info) ∧
                 load_file_info sh i = Ok info ∧ fs path = Some sh.

Definition ui_files (fs : string → option sheet) (ui : MainUI)
    (files : list sheet) : Prop :=
  files_described fs (file_infos ui) files.

Definition vars_ok (ui : MainUI) : Prop :=
  NoDup (column_vars ui).*1 ∧
  ∀ key, key ∈ (column_vars ui).*1 →
    ∃ info col, info ∈ file_infos ui ∧ col ∈ columns info.2 ∧
                key = var_key (ci_file_index col) (ci_name col).

(** The actions of the user on the window. *)
Inductive ui_action :=
  | SelectFiles (file_paths : list string)
  | RemoveFile (selected_indices : list nat)
  | SelectAll
  | DeselectAll
  | Toggle (key : string).

Definition ui_step (fs : string → option sheet) (ui : MainUI)
    (a : ui_action) : MainUI :=
  match a with
  | SelectFiles file_paths => on_select_files fs file_paths ui
  | RemoveFile selected_indices => on_remove_file selected_indices ui
  | SelectAll => set_all true ui
  | DeselectAll => set_all false ui
  | Toggle key => toggle key ui
  end.

Definition ui_init : MainUI := {| file_infos := []; column_vars := [] |}.

(** A window for the examples: the two files of the scenario are loaded and
    every box is checked. *)
Definition fs_example (path : string) : option sheet :=
  if decide (path = "a.xlsx") then Some file_A
  else if decide (path = "b.xlsx") then Some file_B
  else None.

Definition ui_example : MainUI :=
  foldl (ui_step fs_example) ui_init
        [SelectFiles ["a.xlsx"; "b.xlsx"]; SelectAll].

Definition first_option (column_name : string) (file_indices : list nat)
  : option nat :=
  head file_indices.

(** ** The executor and its tokens: [AsyncTaskExecutor] *)

(** The [CancellationToken] objects created so far, each with its flag, and
    [self.cancellation_token], the reference the executor keeps. *)
Record AsyncTaskExecutor := {
  tokens : list bool;
  cancellation_token : option nat
}.

(** [AsyncTaskExecutor.__init__]. *)
Definition executor_new : AsyncTaskExecutor :=
  {| tokens := []; cancellation_token := None |}.

(** [CancellationToken.cancel] and [CancellationToken.is_cancelled] on the
    token at reference [t]. *)
Definition token_cancel (t : nat) (store : list bool) : list bool :=
  <[t := true]> store.

Definition token_is_cancelled (t : nat) (store : list bool) : bool :=
  default false (store !! t).

(** The first statement of [AsyncTaskExecutor.execute]:
    [self.cancellation_token = CancellationToken()]; the new token is the
    one the task receives. *)
Definition execute_token (ex : AsyncTaskExecutor) : AsyncTaskExecutor :=
  {| tokens := tokens ex ++ [false];
     cancellation_token := Some (length (tokens ex)) |}.

(** [AsyncTaskExecutor.cancel]. *)
Definition executor_cancel (ex : AsyncTaskExecutor) : AsyncTaskExecutor :=
  match cancellation_token ex with
  | Some t =>
      {| tokens := token_cancel t (tokens ex); cancellation_token := Some t |}
  | None => ex
  end.

Inductive executor_op :=
  | Execute
  | Cancel.

#[global] Instance executor_op_eq_dec : EqDecision executor_op.
Proof. solve_decision. Defined.

Definition executor_step (ex : AsyncTaskExecutor) (op : executor_op)
  : AsyncTaskExecutor :=
  match op with
  | Execute => execute_token ex
  | Cancel => executor_cancel ex
  end.

(** The executor keeps a reference to a token that exists, the last one
    created. *)
Definition executor_inv (ex : AsyncTaskExecutor) : Prop :=
  match cancellation_token ex with
  | Some t => S t = length (tokens ex)
  | None => tokens ex = []
  end.

(** The progress ticks among the events of a run. *)
Definition progress_of (evs : list event) : list TaskProgress :=
  omap (λ e, match e with EProgress p => Some p | _ => None end) evs.

(** The elements of a list at the positions, counted from 0, that are not
    in [indices]. *)
Definition remaining {A} (indices : list nat) (l : list A) : list A :=
  (filter (λ ix, ix.1 ∉ indices) (enumerate 0 l)).*2.

(** * Properties *)

(** ** The percentage *)

Section percentage_facts.

Lemma binary_round_aux_sign s m e l :
  sign_is s (binary_round_aux prec emax s m e l).
Proof.
  unfold binary_round_aux.
  destruct (shr_fexp prec emax m e l) as [mrs' e'].
  destruct (shr_fexp prec emax _ e' loc_Exact) as [mrs'' e''].
  destruct (shr_m mrs''); simpl; auto.
  destruct (e'' <=? emax - prec); simpl; auto.
Qed.

Lemma py_truediv_sign a b q :
  0 <= a -> 0 < b -> py_truediv a b = Ok q -> sign_is false q.
Proof.
  intros Ha Hb. unfold py_truediv.
  destruct (Z.eqb_spec b 0) as [->|_]; [lia|].
  assert (Hbs : (b <? 0) = false) by (apply Z.ltb_ge; lia).
  destruct (Z.eqb_spec a 0) as [->|Hna].
  - intros [= <-]. simpl. exact Hbs.
  - assert (Has : (a <? 0) = false) by (apply Z.ltb_ge; lia).
    rewrite Has, Hbs. simpl xorb.
    destruct (SFdiv_core_binary prec emax (Z.abs a) 0 (Z.abs b) 0)
      as [[mz ez] lz].
    pose proof (binary_round_aux_sign false mz ez lz) as Hs.
    destruct (binary_round_aux prec emax false mz ez lz);
      intros [= <-]; exact Hs.
Qed.

Lemma py_float_mul_100_sign q :
  sign_is false q -> sign_is false (py_float_mul q (py_float_of_int 100)).
Proof.
  intros Hq.
  change (py_float_of_int 100)
    with (S754_finite false 7036874417766400 (-46)).
  unfold py_float_mul.
  destruct q as [s|s| |s m e]; simpl in *; subst; auto.
  apply binary_round_aux_sign.
Qed.

Lemma py_int_nonneg x n : sign_is false x -> py_int x = Ok n -> 0 <= n.
Proof.
  destruct x as [s|s| |s m e]; simpl; try discriminate.
  - intros _ [= <-]. lia.
  - intros -> [= <-].
    destruct (Z.leb_spec 0 e).
    + apply Z.mul_nonneg_nonneg; [lia|]. apply Z.pow_nonneg. lia.
    + apply Z.div_pos; [lia|].
      apply Z.pow_pos_nonneg; lia.
Qed.

Lemma percentage_nonpositive_total p : total p <= 0 -> percentage p = Ok 0.
Proof.
  intros H. unfold percentage.
  destruct (Z.leb_spec (total p) 0); [reflexivity | lia].
Qed.

Lemma percentage_upper p r : percentage p = Ok r -> r <= 100.
Proof.
  unfold percentage. destruct (total p <=? 0).
  - intros [= <-]. lia.
  - destruct (py_truediv _ _); [|discriminate].
    destruct (py_int _); [|discriminate].
    intros [= <-]. lia.
Qed.

Lemma percentage_lower p r :
  0 <= current p -> percentage p = Ok r -> 0 <= r.
Proof.
  intros Hc. unfold percentage.
  destruct (Z.leb_spec (total p) 0) as [|Ht].
  - intros [= <-]. lia.
  - destruct (py_truediv _ _) as [q|] eqn:Hq; [|discriminate].
    destruct (py_int _) as [n|] eqn:Hn; [|discriminate].
    intros [= <-].
    apply py_truediv_sign in Hq; [|lia..].
    apply py_float_mul_100_sign in Hq.
    apply (py_int_nonneg _ _ Hq) in Hn. lia.
Qed.

End percentage_facts.

(** ** Rounding: signs, NaN and overflow *)

Section rounding_facts.

Lemma digits2_pos_size p : digits2_pos p = Pos.size p.
Proof. induction p; simpl; by rewrite ?IHp. Qed.

Lemma Zdigits2_log2 m : 0 < m → Zdigits2 m = Z.log2 m + 1.
Proof.
  destruct m as [|p|p]; try lia. intros _. simpl.
  rewrite digits2_pos_size. destruct p; simpl; lia.
Qed.

Lemma Zdigits2_nonneg m : 0 <= Zdigits2 m.
Proof. destruct m; simpl; lia. Qed.

Lemma Zdigits2_shiftr m n :
  0 <= m → 0 <= n → Zdigits2 (Z.shiftr m n) = Z.max 0 (Zdigits2 m - n).
Proof.
  intros Hm Hn. destruct (Z.eq_dec m 0) as [->|Hne].
  { rewrite Z.shiftr_0_l. simpl. lia. }
  assert (0 < m) by lia.
  pose proof (Z.shiftr_nonneg m n) as Hs.
  destruct (Z.eq_dec (Z.shiftr m n) 0) as [Hz|Hnz].
  - rewrite Hz. simpl. apply Z.shiftr_eq_0_iff in Hz as [?|[_ Hlog]]; [lia|].
    rewrite Zdigits2_log2 by done. lia.
  - rewrite !Zdigits2_log2 by lia. rewrite Z.log2_shiftr by done.
    assert (n <= Z.log2 m).
    { destruct (Z.le_gt_cases n (Z.log2 m)) as [|Hlt]; [done|].
      exfalso. apply Hnz. apply Z.shiftr_eq_0; lia. }
    lia.
Qed.

Lemma Zdigits2_succ m : 0 <= m → Zdigits2 (m + 1) <= Zdigits2 m + 1.
Proof.
  intros Hm. destruct (Z.eq_dec m 0) as [->|Hne]; [simpl; lia|].
  rewrite !Zdigits2_log2 by lia.
  pose proof (Z.log2_succ_le m). unfold Z.succ in *. lia.
Qed.

Lemma Zdigits2_le a b : 0 <= a <= b → Zdigits2 a <= Zdigits2 b.
Proof.
  intros [Ha Hab]. destruct (Z.eq_dec a 0) as [->|Hne].
  { apply Zdigits2_nonneg. }
  rewrite !Zdigits2_log2 by lia.
  pose proof (Z.log2_le_mono a b Hab). lia.
Qed.

Lemma Zdigits2_mul a b :
  0 < a → 0 < b → Zdigits2 (a * b) <= Zdigits2 a + Zdigits2 b.
Proof.
  intros Ha Hb. rewrite !Zdigits2_log2 by lia.
  pose proof (Z.log2_mul_above a b). lia.
Qed.

Lemma Zdigits2_shiftl a s :
  0 < a → 0 <= s → Zdigits2 (Z.shiftl a s) = Zdigits2 a + s.
Proof.
  intros Ha Hs.
  assert (0 < Z.shiftl a s).
  { rewrite Z.shiftl_mul_pow2 by done.
    apply Z.mul_pos_pos; [done|]. apply Z.pow_pos_nonneg; lia. }
  rewrite !Zdigits2_log2 by done. rewrite Z.log2_shiftl by lia. lia.
Qed.

Lemma shr_1_m mrs :
  0 <= shr_m mrs → shr_m (shr_1 mrs) = Z.shiftr (shr_m mrs) 1.
Proof.
  destruct mrs as [m r s]. simpl. intros Hm.
  rewrite <- Z.div2_spec.
  destruct m as [|[p|p|]|p]; simpl; try done; lia.
Qed.

Lemma iter_shr_1_m n mrs :
  0 <= shr_m mrs →
  shr_m (SpecFloat.iter_pos shr_1 n mrs) = Z.shiftr (shr_m mrs) (Z.pos n).
Proof.
  revert mrs. induction n as [n IH|n IH|]; intros mrs Hm; simpl.
  - assert (H1 : 0 <= shr_m (shr_1 mrs)).
    { rewrite shr_1_m by done. by apply Z.shiftr_nonneg. }
    assert (H2 : 0 <= shr_m (SpecFloat.iter_pos shr_1 n (shr_1 mrs))).
    { rewrite IH by done. by apply Z.shiftr_nonneg. }
    rewrite IH, IH, shr_1_m by done.
    rewrite !Z.shiftr_shiftr by lia. f_equal. lia.
  - assert (H2 : 0 <= shr_m (SpecFloat.iter_pos shr_1 n mrs)).
    { rewrite IH by done. by apply Z.shiftr_nonneg. }
    rewrite IH, IH by done.
    rewrite !Z.shiftr_shiftr by lia. f_equal. lia.
  - by apply shr_1_m.
Qed.

Lemma shr_record_of_loc_m m l : shr_m (shr_record_of_loc m l) = m.
Proof. by destruct l as [|[]]. Qed.

(** [shr_fexp], for a mantissa that is not negative. *)
Lemma shr_fexp_spec m e l :
  0 <= m →
  let n := Z.max 0 (fexp prec emax (Zdigits2 m + e) - e) in
  shr_m (shr_fexp prec emax m e l).1 = Z.shiftr m n ∧
  (shr_fexp prec emax m e l).2 = e + n.
Proof.
  intros Hm n. subst n. unfold shr_fexp, shr.
  destruct (fexp prec emax (Zdigits2 m + e) - e) as [|p|p] eqn:E; simpl.
  - rewrite shr_record_of_loc_m, Z.shiftr_0_r. split; [done|lia].
  - rewrite iter_shr_1_m by by rewrite shr_record_of_loc_m.
    by rewrite shr_record_of_loc_m.
  - rewrite shr_record_of_loc_m, Z.shiftr_0_r. split; [done|lia].
Qed.

Lemma round_nearest_even_bounds m l :
  m <= round_nearest_even m l <= m + 1.
Proof.
  unfold round_nearest_even. destruct l as [|[]]; try lia.
  destruct (Z.even m); lia.
Qed.

(** What [binary_round_aux] returns for a mantissa that is not negative:
    never NaN; and when the operand is small enough, a zero or a finite
    number whose size is bounded by the size of the operand. *)
Lemma binary_round_aux_spec s m e l :
  0 <= m →
  binary_round_aux prec emax s m e l ≠ S754_nan ∧
  (e <= emax - prec → Zdigits2 m + e + 1 <= emax →
   match binary_round_aux prec emax s m e l with
   | S754_zero _ => True
   | S754_finite _ m' e' =>
       e' <= emax - prec ∧
       Z.pos (digits2_pos m') + e' <= Z.max (Zdigits2 m + e + 1) (-1073)
   | _ => False
   end).
Proof.
  intros Hm. unfold binary_round_aux.
  pose proof (shr_fexp_spec m e l Hm) as [Hm1 He1]. cbv zeta in Hm1, He1.
  destruct (shr_fexp prec emax m e l) as [mrs1 e1]. cbn [fst snd] in *.
  set (m1 := round_nearest_even (shr_m mrs1) (loc_of_shr_record mrs1)).
  pose proof (round_nearest_even_bounds (shr_m mrs1)
                (loc_of_shr_record mrs1)) as Hr. fold m1 in Hr.
  set (n1 := Z.max 0 (fexp prec emax (Zdigits2 m + e) - e)) in *.
  assert (Hs1 : 0 <= shr_m mrs1).
  { rewrite Hm1. apply Z.shiftr_nonneg. done. }
  assert (Hm1' : 0 <= m1) by lia.
  pose proof (shr_fexp_spec m1 e1 loc_Exact Hm1') as [Hm2 He2].
  cbv zeta in Hm2, He2.
  destruct (shr_fexp prec emax m1 e1 loc_Exact) as [mrs2 e2].
  cbn [fst snd] in *.
  set (n2 := Z.max 0 (fexp prec emax (Zdigits2 m1 + e1) - e1)) in *.
  assert (Hs2 : 0 <= shr_m mrs2).
  { rewrite Hm2. apply Z.shiftr_nonneg. done. }
  assert (Hd1 : Zdigits2 (shr_m mrs1) = Z.max 0 (Zdigits2 m - n1)).
  { rewrite Hm1. apply Zdigits2_shiftr; [done|]. unfold n1. lia. }
  assert (Hdm1 : Zdigits2 m1 <= Z.max 0 (Zdigits2 m - n1) + 1).
  { rewrite <- Hd1.
    etrans; [apply (Zdigits2_le m1 (shr_m mrs1 + 1)); lia|].
    by apply Zdigits2_succ. }
  assert (Hd2 : Zdigits2 (shr_m mrs2) = Z.max 0 (Zdigits2 m1 - n2)).
  { rewrite Hm2. apply Zdigits2_shiftr; [done|]. unfold n2. lia. }
  pose proof (Zdigits2_nonneg m) as Hdn.
  pose proof (Zdigits2_nonneg m1) as Hdn1.
  split.
  - destruct (shr_m mrs2) as [|p|p]; [done| |lia].
    by destruct (e2 <=? emax - prec).
  - intros He Hd.
    destruct (shr_m mrs2) as [|p|p] eqn:Hp; [done| |lia].
    simpl in Hd2.
    unfold fexp, SpecFloat.emin, prec, emax in *.
    assert (He2' : e2 <= 1024 - 53) by lia.
    destruct (Z.leb_spec e2 (1024 - 53)); [|lia].
    split; lia.
Qed.

End rounding_facts.

Section percentage_total.

Lemma SFdiv_core_binary_spec a b :
  0 < a → 0 < b →
  let '(mz, ez, lz) := SFdiv_core_binary prec emax a 0 b 0 in
  0 <= mz ∧ ez <= 0 ∧ Zdigits2 mz + ez <= Zdigits2 a.
Proof.
  intros Ha Hb. unfold SFdiv_core_binary.
  set (e' := Z.min (fexp prec emax (Zdigits2 a + 0 - (Zdigits2 b + 0)))
                   (0 - 0)).
  assert (He' : e' <= 0) by (unfold e'; lia).
  set (m' := match 0 - 0 - e' with
             | 0 => a
             | Z.pos _ => Z.shiftl a (0 - 0 - e')
             | Z.neg _ => 0
             end).
  assert (Hm' : 0 < m' ∧ Zdigits2 m' = Zdigits2 a - e').
  { unfold m'. destruct (0 - 0 - e') as [|p|p] eqn:E; [| |lia].
    - split; [done|]. lia.
    - rewrite Zdigits2_shiftl by lia. split; [|lia].
      rewrite Z.shiftl_mul_pow2 by lia.
      apply Z.mul_pos_pos; [done|]. apply Z.pow_pos_nonneg; lia. }
  destruct Hm' as [Hm'pos Hdm'].
  pose proof (Z_div_mod m' b ltac:(lia)) as Hdiv.
  destruct (Z.div_eucl m' b) as [q r]. destruct Hdiv as [Hq Hr].
  assert (Hq0 : 0 <= q) by nia.
  assert (Hqm : q <= m') by nia.
  split; [done|]. split; [done|].
  pose proof (Zdigits2_le q m' ltac:(lia)). lia.
Qed.

(** The quotient of two ints, the divisor not zero and the dividend below
    [2 ^ 1015], is a float: zero or finite, of bounded size. *)
Lemma py_truediv_returns a b :
  b ≠ 0 → Z.abs a < 2 ^ 1015 →
  ∃ q, py_truediv a b = Ok q ∧
       match q with
       | S754_zero _ => True
       | S754_finite _ m e =>
           e <= emax - prec ∧ Z.pos (digits2_pos m) + e <= 1016
       | _ => False
       end.
Proof.
  intros Hb Ha. unfold py_truediv.
  destruct (Z.eqb_spec b 0); [done|].
  destruct (Z.eqb_spec a 0) as [->|Hna]; [by eexists|].
  pose proof (SFdiv_core_binary_spec (Z.abs a) (Z.abs b)
                ltac:(lia) ltac:(lia)) as Hcore.
  destruct (SFdiv_core_binary prec emax (Z.abs a) 0 (Z.abs b) 0)
    as [[mz ez] lz].
  destruct Hcore as (Hmz & Hez & Hd).
  assert (Hda : Zdigits2 (Z.abs a) <= 1015).
  { rewrite Zdigits2_log2 by lia.
    assert (Z.log2 (Z.abs a) < 1015) by (apply Z.log2_lt_pow2; lia). lia. }
  pose proof (binary_round_aux_spec (xorb (a <? 0) (b <? 0)) mz ez lz Hmz)
    as [_ Hfin].
  unfold emax, prec in Hfin.
  specialize (Hfin ltac:(lia) ltac:(lia)).
  destruct (binary_round_aux _ _ _ _ _ _) as [s|s| |s m e]; try done.
  - by eexists.
  - eexists. split; [done|]. unfold emax, prec. lia.
Qed.

Lemma py_float_mul_100_returns q :
  match q with
  | S754_zero _ => True
  | S754_finite _ m e =>
      e <= emax - prec ∧ Z.pos (digits2_pos m) + e <= 1016
  | _ => False
  end →
  ∃ n, py_int (py_float_mul q (py_float_of_int 100)) = Ok n.
Proof.
  change (py_float_of_int 100)
    with (S754_finite false 7036874417766400 (-46)).
  unfold py_float_mul. destruct q as [s|s| |s m e]; try done.
  - intros _. by eexists.
  - intros [He Hd]. simpl.
    pose proof (binary_round_aux_spec (xorb s false)
                  (Z.pos (m * 7036874417766400)) (e + -46) loc_Exact
                  ltac:(lia)) as [_ Hfin].
    assert (Hmul : Zdigits2 (Z.pos (m * 7036874417766400))
                   <= Z.pos (digits2_pos m) + 53).
    { change (Z.pos (m * 7036874417766400))
        with (Z.pos m * 7036874417766400).
      etrans; [apply Zdigits2_mul; lia|]. simpl. lia. }
    unfold emax, prec in *.
    specialize (Hfin ltac:(lia) ltac:(lia)).
    destruct (binary_round_aux _ _ _ _ _ _) as [s'|s'| |s' m' e'];
      try done; by eexists.
Qed.

Lemma py_float_mul_100_not_nan q :
  q ≠ S754_nan → py_float_mul q (py_float_of_int 100) ≠ S754_nan.
Proof.
  change (py_float_of_int 100)
    with (S754_finite false 7036874417766400 (-46)).
  unfold py_float_mul. destruct q as [s|s| |s m e]; try done.
  intros _. simpl. apply binary_round_aux_spec. lia.
Qed.

Lemma percentage_returns p :
  0 < total p → Z.abs (current p) < 2 ^ 1015 → ∃ r, percentage p = Ok r.
Proof.
  intros Ht Hc. unfold percentage.
  destruct (Z.leb_spec (total p) 0); [lia|].
  destruct (py_truediv_returns (current p) (total p)) as (q & -> & Hq);
    [lia|done|].
  destruct (py_float_mul_100_returns q Hq) as [n ->]. by eexists.
Qed.

Lemma py_truediv_outcome a b :
  b ≠ 0 →
  match py_truediv a b with
  | Ok q => q ≠ S754_nan ∧ ∀ s, q ≠ S754_infinity s
  | Raise e => e = OverflowError
  end.
Proof.
  intros Hb. unfold py_truediv.
  destruct (Z.eqb_spec b 0); [done|].
  destruct (Z.eqb_spec a 0); [done|].
  pose proof (SFdiv_core_binary_spec (Z.abs a) (Z.abs b)
                ltac:(lia) ltac:(lia)) as Hcore.
  destruct (SFdiv_core_binary prec emax (Z.abs a) 0 (Z.abs b) 0)
    as [[mz ez] lz].
  destruct Hcore as (Hmz & _).
  pose proof (binary_round_aux_spec (xorb (a <? 0) (b <? 0)) mz ez lz Hmz)
    as [Hnan _].
  destruct (binary_round_aux _ _ _ _ _ _); done.
Qed.

Lemma py_int_raises x e :
  x ≠ S754_nan → py_int x = Raise e → e = OverflowError.
Proof. destruct x; simpl; congruence. Qed.

Lemma percentage_raises p e : percentage p = Raise e → e = OverflowError.
Proof.
  unfold percentage. destruct (Z.leb_spec (total p) 0); [done|].
  pose proof (py_truediv_outcome (current p) (total p) ltac:(lia)) as Hq.
  destruct (py_truediv (current p) (total p)) as [q|e'].
  - destruct Hq as [Hnan _].
    pose proof (py_int_raises _ e (py_float_mul_100_not_nan q Hnan)) as Hi.
    destruct (py_int _); [done|]. intros [= ->]. by apply Hi.
  - by intros [= <-].
Qed.

End percentage_total.

(** ** The value of the percentage *)

Section percentage_value.

Lemma Zdigits2_bounds m :
  0 < m → 2 ^ (Zdigits2 m - 1) <= m < 2 ^ Zdigits2 m.
Proof.
  intros Hm. rewrite Zdigits2_log2 by done.
  replace (Z.log2 m + 1 - 1) with (Z.log2 m) by lia.
  apply (Z.log2_spec m Hm).
Qed.

Lemma Zdigits2_eq m d : 2 ^ (d - 1) <= m < 2 ^ d → 0 < d → Zdigits2 m = d.
Proof.
  intros Hm Hd.
  assert (0 < m).
  { assert (0 < 2 ^ (d - 1)) by (apply Z.pow_pos_nonneg; lia). lia. }
  rewrite Zdigits2_log2 by done.
  rewrite (Z.log2_unique m (d - 1)); [lia|lia|].
  by replace (Z.succ (d - 1)) with d by lia.
Qed.

(** What [binary_round_aux] returns for a mantissa of 53 bits or more, in
    the range of the normal numbers: a finite number, its mantissa of 53
    bits, whose value differs from the operand by no more than one part in
    [2 ^ 52]. *)
Lemma binary_round_aux_value s m e l :
  2 ^ 52 <= m → -1021 <= Zdigits2 m + e <= 1023 →
  ∃ m' e',
    binary_round_aux prec emax s m e l = S754_finite s m' e' ∧
    e <= e' <= e + Zdigits2 m - 52 ∧
    2 ^ 52 <= Z.pos m' < 2 ^ 53 ∧
    (2 ^ 52 - 1) * m <= 2 ^ 52 * (Z.pos m' * 2 ^ (e' - e))
      <= (2 ^ 52 + 1) * m.
Proof.
  intros Hm Hd.
  assert (Hm0 : 0 < m) by lia.
  pose proof (Zdigits2_bounds m Hm0) as Hmb.
  assert (Hd53 : 53 <= Zdigits2 m).
  { destruct (Z.le_gt_cases 53 (Zdigits2 m)) as [|Hlt]; [done|].
    assert (2 ^ Zdigits2 m <= 2 ^ 52) by (apply Z.pow_le_mono_r; lia).
    lia. }
  set (d := Zdigits2 m) in *.
  set (n := d - 53).
  assert (Hn : 0 <= n) by (unfold n; lia).
  unfold binary_round_aux.
  pose proof (shr_fexp_spec m e l ltac:(lia)) as [Hm1 He1].
  cbv zeta in Hm1, He1. fold d in Hm1, He1.
  assert (Hf1 : fexp prec emax (d + e) = d + e - 53).
  { unfold fexp, SpecFloat.emin, prec, emax. lia. }
  rewrite Hf1 in Hm1, He1.
  replace (Z.max 0 (d + e - 53 - e)) with n in Hm1, He1 by (unfold n; lia).
  destruct (shr_fexp prec emax m e l) as [mrs1 e1]. cbn [fst snd] in *.
  set (m1 := shr_m mrs1) in *.
  assert (Hu : 0 < 2 ^ n) by (apply Z.pow_pos_nonneg; lia).
  assert (Hm1b : m1 * 2 ^ n <= m < (m1 + 1) * 2 ^ n).
  { rewrite Hm1, Z.shiftr_div_pow2 by done.
    pose proof (Z.div_mod m (2 ^ n) ltac:(lia)) as Hdm.
    pose proof (Z.mod_pos_bound m (2 ^ n) Hu). lia. }
  assert (Hd1 : Zdigits2 m1 = 53).
  { rewrite Hm1, Zdigits2_shiftr by lia. fold d. unfold n. lia. }
  assert (Hm1r : 2 ^ 52 <= m1 < 2 ^ 53).
  { assert (0 < m1) as Hpos.
    { destruct (Z.lt_trichotomy m1 0) as [Hneg|[Hz|Hp]]; [|by rewrite Hz in Hd1|done].
      assert (0 <= m1); [|lia].
      rewrite Hm1. by apply Z.shiftr_nonneg; lia. }
    pose proof (Zdigits2_bounds m1 Hpos) as Hb. rewrite Hd1 in Hb.
    exact Hb. }
  set (m1' := round_nearest_even m1 (loc_of_shr_record mrs1)).
  pose proof (round_nearest_even_bounds m1 (loc_of_shr_record mrs1)) as Hr.
  fold m1' in Hr.
  pose proof (shr_fexp_spec m1' e1 loc_Exact ltac:(lia)) as [Hm2 He2].
  cbv zeta in Hm2, He2.
  destruct (shr_fexp prec emax m1' e1 loc_Exact) as [mrs2 e2].
  cbn [fst snd] in *.
  assert (Hbound : ∀ V, V = m1' * 2 ^ n →
            (2 ^ 52 - 1) * m <= 2 ^ 52 * V <= (2 ^ 52 + 1) * m).
  { intros V ->.
    assert (2 ^ 52 * 2 ^ n <= m1 * 2 ^ n)
      by (apply Z.mul_le_mono_nonneg_r; lia).
    assert (m1 * 2 ^ n <= m1' * 2 ^ n)
      by (apply Z.mul_le_mono_nonneg_r; lia).
    assert (m1' * 2 ^ n <= (m1 + 1) * 2 ^ n)
      by (apply Z.mul_le_mono_nonneg_r; lia).
    lia. }
  destruct (Z.lt_ge_cases m1' (2 ^ 53)) as [Hlt|Hge].
  - assert (Hd1' : Zdigits2 m1' = 53) by (apply Zdigits2_eq; simpl; lia).
    rewrite Hd1' in Hm2, He2.
    assert (Hf2 : fexp prec emax (53 + e1) = e1).
    { unfold fexp, SpecFloat.emin, prec, emax. lia. }
    rewrite Hf2 in Hm2, He2.
    replace (Z.max 0 (e1 - e1)) with 0 in Hm2, He2 by lia.
    rewrite Z.shiftr_0_r in Hm2. rewrite Hm2.
    destruct m1' as [|p|p] eqn:Hp; [lia| |lia].
    assert ((e2 <=? emax - prec) = true) as ->.
    { apply Z.leb_le. unfold emax, prec. lia. }
    exists p, e2. split; [done|]. split; [lia|]. split; [lia|].
    apply Hbound. f_equal. f_equal. lia.
  - assert (Heq : m1' = 2 ^ 53) by lia.
    assert (Hd1' : Zdigits2 m1' = 54) by (rewrite Heq; reflexivity).
    rewrite Hd1' in Hm2, He2.
    assert (Hf2 : fexp prec emax (54 + e1) = e1 + 1).
    { unfold fexp, SpecFloat.emin, prec, emax. lia. }
    rewrite Hf2 in Hm2, He2.
    replace (Z.max 0 (e1 + 1 - e1)) with 1 in Hm2, He2 by lia.
    rewrite Heq in Hm2. change (Z.shiftr (2 ^ 53) 1) with (2 ^ 52) in Hm2.
    rewrite Hm2. change (2 ^ 52) with (Z.pos 4503599627370496).
    assert ((e2 <=? emax - prec) = true) as ->.
    { apply Z.leb_le. unfold emax, prec. lia. }
    exists 4503599627370496%positive, e2.
    split; [done|]. split; [lia|]. split; [simpl; lia|].
    apply Hbound. rewrite Heq.
    replace (e2 - e) with (1 + n) by lia.
    rewrite Z.pow_add_r by lia. simpl. lia.
Qed.


(** The quotient step of the division of [a] by [b]: the dividend is
    scaled by [2 ^ k] so that the integer quotient has 53 or 54 bits. *)
Lemma SFdiv_core_binary_value a b :
  0 < a <= 2 ^ 43 → 0 < b < 2 ^ 1000 →
  ∃ q k l,
    SFdiv_core_binary prec emax a 0 b 0 = (q, - k, l) ∧
    9 <= k <= 1053 ∧ 2 ^ 52 <= q ∧ 53 <= Zdigits2 q <= 54 ∧
    q * b <= a * 2 ^ k < (q + 1) * b.
Proof.
  intros Ha Hb.
  pose proof (Zdigits2_bounds a ltac:(lia)) as Hda.
  pose proof (Zdigits2_bounds b ltac:(lia)) as Hdb.
  set (d1 := Zdigits2 a) in *. set (d2 := Zdigits2 b) in *.
  assert (Hd1 : 1 <= d1 <= 44).
  { split.
    - unfold d1. rewrite Zdigits2_log2 by lia.
      pose proof (Z.log2_nonneg a). lia.
    - destruct (Z.le_gt_cases d1 44) as [|Hgt]; [done|].
      assert (2 ^ 44 <= 2 ^ (d1 - 1)) by (apply Z.pow_le_mono_r; lia).
      lia. }
  assert (Hd2 : 1 <= d2 <= 1000).
  { split.
    - unfold d2. rewrite Zdigits2_log2 by lia.
      pose proof (Z.log2_nonneg b). lia.
    - destruct (Z.le_gt_cases d2 1000) as [|Hgt]; [done|].
      assert (2 ^ 1000 <= 2 ^ (d2 - 1)) by (apply Z.pow_le_mono_r; lia).
      lia. }
  set (k := d2 + 53 - d1).
  unfold SFdiv_core_binary. fold d1 d2.
  assert (He : Z.min (fexp prec emax (d1 + 0 - (d2 + 0))) (0 - 0) = - k).
  { unfold fexp, SpecFloat.emin, prec, emax, k. lia. }
  rewrite He.
  replace (0 - 0 - - k) with k by lia.
  destruct k as [|pk|pk] eqn:Hk; [lia| |lia]. rewrite <- Hk.
  assert (Hk9 : 9 <= k <= 1053) by (unfold k in *; lia).
  rewrite Z.shiftl_mul_pow2 by lia.
  pose proof (Z_div_mod (a * 2 ^ k) b ltac:(lia)) as Hdiv.
  destruct (Z.div_eucl (a * 2 ^ k) b) as [q r]. destruct Hdiv as [Hq Hr].
  assert (Hlow : 2 ^ 52 * 2 ^ d2 <= a * 2 ^ k).
  { rewrite <- Z.pow_add_r by lia.
    replace (52 + d2) with ((d1 - 1) + k) by (unfold k in *; lia).
    rewrite Z.pow_add_r by lia.
    apply Z.mul_le_mono_nonneg_r; [|lia].
    apply Z.pow_nonneg. lia. }
  assert (Hhigh : a * 2 ^ k < 2 ^ 54 * 2 ^ (d2 - 1)).
  { rewrite <- Z.pow_add_r by lia.
    replace (54 + (d2 - 1)) with (d1 + k) by (unfold k in *; lia).
    rewrite Z.pow_add_r by lia.
    apply Z.mul_lt_mono_pos_r; [|lia].
    apply Z.pow_pos_nonneg; lia. }
  assert (Hq52 : 2 ^ 52 <= q).
  { destruct (Z.le_gt_cases (2 ^ 52) q) as [|Hlt]; [done|].
    assert (b * (q + 1) <= b * 2 ^ 52)
      by (apply Z.mul_le_mono_nonneg_l; lia).
    assert (2 ^ 52 * b < 2 ^ 52 * 2 ^ d2)
      by (apply Z.mul_lt_mono_pos_l; [done|lia]).
    lia. }
  assert (Hq54 : q < 2 ^ 54).
  { destruct (Z.lt_ge_cases q (2 ^ 54)) as [|Hge]; [done|].
    assert (2 ^ 54 * 2 ^ (d2 - 1) <= q * b).
    { etrans; [apply (Z.mul_le_mono_nonneg_l _ b); lia|].
      apply Z.mul_le_mono_nonneg_r; lia. }
    lia. }
  exists q, k, (new_location b r). split; [done|].
  split; [done|]. split; [done|]. split; [|lia].
  assert (0 < q) by lia.
  pose proof (Zdigits2_bounds q ltac:(lia)) as Hdq.
  split.
  - destruct (Z.le_gt_cases 53 (Zdigits2 q)) as [|Hlt]; [done|].
    assert (2 ^ Zdigits2 q <= 2 ^ 52) by (apply Z.pow_le_mono_r; lia).
    lia.
  - destruct (Z.le_gt_cases (Zdigits2 q) 54) as [|Hgt]; [done|].
    assert (2 ^ 54 <= 2 ^ (Zdigits2 q - 1))
      by (apply Z.pow_le_mono_r; lia).
    lia.
Qed.

(** [int] of a finite float whose value is [m * 2 ^ u / 2 ^ w]. *)
Lemma py_int_scaled s m e u w n :
  0 <= u → 0 < w → e = u - w →
  py_int (S754_finite s m e) = Ok n →
  n = (if s then - (Z.pos m * 2 ^ u / 2 ^ w) else Z.pos m * 2 ^ u / 2 ^ w).
Proof.
  intros Hu Hw -> [= <-].
  assert (Heq : (if 0 <=? u - w then Z.pos m * 2 ^ (u - w)
                 else Z.pos m / 2 ^ (- (u - w)))
                = Z.pos m * 2 ^ u / 2 ^ w).
  { destruct (Z.leb_spec 0 (u - w)).
    - replace u with ((u - w) + w) at 2 by lia.
      rewrite Z.pow_add_r by lia. rewrite Z.mul_assoc.
      rewrite Z.div_mul; [done|].
      assert (0 < 2 ^ w) by (apply Z.pow_pos_nonneg; lia). lia.
    - replace w with (- (u - w) + u) at 2 by lia.
      rewrite Z.pow_add_r by lia.
      rewrite Z.div_mul_cancel_r; [done| |].
      + assert (0 < 2 ^ (- (u - w))) by (apply Z.pow_pos_nonneg; lia). lia.
      + assert (0 < 2 ^ u) by (apply Z.pow_pos_nonneg; lia). lia. }
  by rewrite Heq.
Qed.

(** From the two rounding errors to the integer result: [Y / T] is the
    computed value, [X / t] the exact quotient. *)
Lemma percentage_arith X t T Y :
  0 < t → 0 < T → 0 <= X <= 100 * 2 ^ 43 → 0 <= Y →
  2 ^ 104 * (Y * t) <= (2 ^ 52 + 1) * (2 ^ 52 + 1) * (X * T) →
  (2 ^ 52 - 1) * (2 ^ 52 - 1) * 2 ^ 52 * (X * T)
    <= 2 ^ 104 * (2 ^ 52 + 1) * (Y * t) →
  0 <= Y / T ∧ X / t - 1 <= Y / T <= X / t ∧
  (X mod t ≠ 0 → Y / T = X / t).
Proof.
  intros Ht HT HX HY Hup Hlow.
  pose proof (Z.div_mod X t ltac:(lia)) as Hdm.
  pose proof (Z.mod_pos_bound X t Ht) as Hrho.
  set (K := X / t) in *. set (rho := X mod t) in *.
  assert (HK : 0 <= K) by (apply Z.div_pos; lia).
  assert (HXT : X * T <= 100 * 2 ^ 43 * T)
    by (apply Z.mul_le_mono_nonneg_r; lia).
  assert (HXT0 : 0 <= X * T) by (apply Z.mul_nonneg_nonneg; lia).
  assert (Hno_up : ¬ (X * T + T <= Y * t)).
  { intros Hc. simpl in *. lia. }
  assert (Hno_low : ¬ (Y * t + T <= X * T)).
  { intros Hc. simpl in *. lia. }
  assert (Hle : Y / T <= K).
  { apply Z.lt_succ_r. apply Z.div_lt_upper_bound; [done|].
    destruct (Z.lt_ge_cases Y (T * Z.succ K)) as [|Hge]; [done|].
    exfalso. apply Hno_up.
    assert (T * Z.succ K * t <= Y * t)
      by (apply Z.mul_le_mono_nonneg_r; lia).
    assert (T * (X + 1) <= T * (Z.succ K * t))
      by (apply Z.mul_le_mono_nonneg_l; lia).
    lia. }
  assert (Hge1 : K - 1 <= Y / T).
  { apply Z.div_le_lower_bound; [done|].
    destruct (Z.le_gt_cases (T * (K - 1)) Y) as [|Hlt]; [done|].
    exfalso. apply Hno_low.
    assert ((Y + 1) * t <= T * (K - 1) * t)
      by (apply Z.mul_le_mono_nonneg_r; lia).
    assert (T * ((K - 1) * t) <= T * (X - 1))
      by (apply Z.mul_le_mono_nonneg_l; lia).
    lia. }
  split; [apply Z.div_pos; lia|]. split; [lia|].
  intros Hne.
  assert (K <= Y / T); [|lia].
  apply Z.div_le_lower_bound; [done|].
  destruct (Z.le_gt_cases (T * K) Y) as [|Hlt]; [done|].
  exfalso. apply Hno_low.
  assert ((Y + 1) * t <= T * K * t)
    by (apply Z.mul_le_mono_nonneg_r; lia).
  assert (T * (K * t) <= T * (X - 1))
    by (apply Z.mul_le_mono_nonneg_l; lia).
  lia.
Qed.

(** The percentage of a tick of ordinary size: the quotient
    [100 * current / total] truncated toward zero, or, when [total]
    divides [100 * current], possibly the integer next to it toward
    zero. *)
Lemma percentage_value p :
  0 < total p < 2 ^ 1000 → Z.abs (current p) <= 2 ^ 43 →
  ∃ w,
    percentage p = Ok (Z.min 100 (Z.sgn (current p) * w)) ∧ 0 <= w ∧
    100 * Z.abs (current p) / total p - 1 <= w
      <= 100 * Z.abs (current p) / total p ∧
    ((100 * Z.abs (current p)) mod total p ≠ 0 →
     w = 100 * Z.abs (current p) / total p).
Proof.
  destruct p as [c t]. cbn [current total]. intros Ht Hc.
  unfold percentage. cbn [current total].
  destruct (Z.leb_spec t 0) as [|_]; [lia|].
  unfold py_truediv.
  destruct (Z.eqb_spec t 0) as [|_]; [lia|].
  destruct (Z.eqb_spec c 0) as [->|Hc0].
  { exists 0. split; [reflexivity|]. cbn [Z.abs].
    rewrite Z.mul_0_r, Z.div_0_l, Z.mod_0_l by lia.
    split; [lia|]. split; [lia|]. done. }
  set (a := Z.abs c) in *.
  replace (Z.abs t) with t by lia.
  assert ((t <? 0) = false) as -> by (apply Z.ltb_ge; lia).
  rewrite xorb_false_r.
  destruct (SFdiv_core_binary_value a t ltac:(lia) ltac:(lia))
    as (q & k & l & -> & Hk & Hq52 & Hdq & Hqb).
  destruct (binary_round_aux_value (c <? 0) q (- k) l Hq52 ltac:(lia))
    as (mq & eq & -> & Heq & Hmq & Hr1).
  change (py_float_of_int 100)
    with (S754_finite false 7036874417766400 (-46)).
  unfold py_float_mul. cbn [SFmul]. rewrite xorb_false_r.
  set (M := 7036874417766400).
  change (Z.pos (mq * 7036874417766400)) with (Z.pos mq * M).
  assert (HP : 2 ^ 104 <= Z.pos mq * M < 2 ^ 106) by (unfold M; lia).
  assert (HdP : 105 <= Zdigits2 (Z.pos mq * M) <= 106).
  { pose proof (Zdigits2_bounds (Z.pos mq * M) ltac:(lia)) as Hb.
    split.
    - destruct (Z.le_gt_cases 105 (Zdigits2 (Z.pos mq * M)))
        as [|Hlt]; [done|].
      assert (2 ^ Zdigits2 (Z.pos mq * M) <= 2 ^ 104)
        by (apply Z.pow_le_mono_r; lia).
      lia.
    - destruct (Z.le_gt_cases (Zdigits2 (Z.pos mq * M)) 106)
        as [|Hgt]; [done|].
      assert (2 ^ 106 <= 2 ^ (Zdigits2 (Z.pos mq * M) - 1))
        by (apply Z.pow_le_mono_r; lia).
      lia. }
  destruct (binary_round_aux_value (c <? 0) (Z.pos mq * M) (eq + -46)
              loc_Exact ltac:(lia) ltac:(lia))
    as (my & ey & -> & Hey & Hmy & Hr2).
  set (u := (eq + k) + (ey - (eq + -46))).
  set (w := k + 46).
  destruct (py_int (S754_finite (c <? 0) my ey)) as [n|e] eqn:Hn;
    [|done].
  apply (py_int_scaled _ _ _ u w) in Hn; [|unfold u; lia|unfold w; lia
                                              |unfold u, w; lia].
  set (S1 := 2 ^ (eq - - k)) in *.
  set (S2 := 2 ^ (ey - (eq + -46))) in *.
  assert (HS1 : 0 < S1) by (apply Z.pow_pos_nonneg; lia).
  assert (HS2 : 0 < S2) by (apply Z.pow_pos_nonneg; lia).
  assert (Hu : 2 ^ u = S2 * S1).
  { unfold u, S1, S2. rewrite <- Z.pow_add_r by lia. f_equal. lia. }
  assert (HT : 2 ^ w = 2 ^ k * 2 ^ 46).
  { unfold w. rewrite Z.pow_add_r by lia. done. }
  assert (Hk0 : 0 < 2 ^ k) by (apply Z.pow_pos_nonneg; lia).
  set (Y := Z.pos my * 2 ^ u) in *.
  set (T := 2 ^ w) in *.
  set (A := Z.pos mq * S1) in *.
  set (B := Z.pos my * S2) in *.
  assert (HY : Y = B * S1) by (unfold Y, B; rewrite Hu; ring).
  assert (HXT : 100 * a * T = M * (a * 2 ^ k))
    by (rewrite HT; unfold M; ring).
  assert (HAq : M * (2 ^ 52 * A) <= M * ((2 ^ 52 + 1) * q)
                ∧ M * ((2 ^ 52 - 1) * q) <= M * (2 ^ 52 * A))
    by (split; apply Z.mul_le_mono_nonneg_l; unfold M; lia).
  assert (HBP : 2 ^ 52 * B * S1 <= (2 ^ 52 + 1) * (Z.pos mq * M) * S1
                ∧ (2 ^ 52 - 1) * (Z.pos mq * M) * S1 <= 2 ^ 52 * B * S1)
    by (split; apply Z.mul_le_mono_nonneg_r; lia).
  assert (HMq0 : 0 <= M * q) by (unfold M; lia).
  assert (HBS0 : 0 <= B * S1) by (unfold B; lia).
  assert (H3 : 2 ^ 104 * (B * S1) <= (2 ^ 52 + 1) * (2 ^ 52 + 1) * (M * q)
               ∧ (2 ^ 52 - 1) * (2 ^ 52 - 1) * (M * q)
                 <= 2 ^ 104 * (B * S1)).
  { destruct HAq as [HA1 HA2], HBP as [HB1 HB2].
    replace (Z.pos mq * M * S1) with (A * M) in HB1, HB2
      by (unfold A; ring).
    simpl in *. lia. }
  assert (Hqt : M * (q * t) <= M * (a * 2 ^ k)
                ∧ M * (2 ^ 52 * (a * 2 ^ k))
                  <= M * ((2 ^ 52 + 1) * (q * t))).
  { assert (2 ^ 52 * t <= q * t)
      by (apply Z.mul_le_mono_nonneg_r; lia).
    split; apply Z.mul_le_mono_nonneg_l; unfold M; lia. }
  assert (H3t : 2 ^ 104 * (B * S1) * t
                <= (2 ^ 52 + 1) * (2 ^ 52 + 1) * (M * q) * t
                ∧ (2 ^ 52 - 1) * (2 ^ 52 - 1) * (M * q) * t
                  <= 2 ^ 104 * (B * S1) * t)
    by (split; apply Z.mul_le_mono_nonneg_r; lia).
  assert (Hup : 2 ^ 104 * (Y * t)
                <= (2 ^ 52 + 1) * (2 ^ 52 + 1) * (100 * a * T)).
  { rewrite HXT, HY. destruct Hqt as [Hq1 _], H3t as [Ht1 _].
    simpl in *. lia. }
  assert (Hlow : (2 ^ 52 - 1) * (2 ^ 52 - 1) * 2 ^ 52 * (100 * a * T)
                 <= 2 ^ 104 * (2 ^ 52 + 1) * (Y * t)).
  { rewrite HXT, HY. destruct Hqt as [_ Hq2], H3t as [_ Ht2].
    simpl in *. lia. }
  assert (HY0 : 0 <= Y) by (unfold Y; rewrite Hu; lia).
  destruct (percentage_arith (100 * a) t T Y ltac:(lia)
              ltac:(unfold T; apply Z.pow_pos_nonneg; unfold w; lia)
              ltac:(lia) HY0 Hup Hlow) as (Hv0 & Hv & Hvne).
  exists (Y / T). split; [|done].
  f_equal. f_equal. rewrite Hn.
  destruct (Z.ltb_spec c 0).
  - rewrite Z.sgn_neg by lia. lia.
  - rewrite Z.sgn_pos by lia. lia.
Qed.

End percentage_value.

(** ** Scripts and their runs *)

Section script_facts.

Lemma script_bind {A B} (m : M A) (f : A → M B) :
  script (m ≫= f) =
  script m ++ match result m with Ok a => script (f a) | Raise _ => [] end.
Proof.
  unfold mbind, M_bind. destruct (result m); simpl; [done|].
  by rewrite app_nil_r.
Qed.

Lemma result_bind {A B} (m : M A) (f : A → M B) :
  result (m ≫= f) =
  match result m with Ok a => result (f a) | Raise e => Raise e end.
Proof. unfold mbind, M_bind. by destruct (result m). Qed.

Lemma polls_of_app s1 s2 : polls_of (s1 ++ s2) = (polls_of s1 + polls_of s2)%nat.
Proof. induction s1 as [|[|e] s1 IH]; simpl; lia. Qed.

Lemma events_of_app s1 s2 : events_of (s1 ++ s2) = events_of s1 ++ events_of s2.
Proof. apply omap_app. Qed.

Lemma writes_of_app e1 e2 : writes_of (e1 ++ e2) = writes_of e1 ++ writes_of e2.
Proof. apply omap_app. Qed.

Lemma exec_no_cancel tok p s :
  (∀ i, (p ≤ i < p + polls_of s)%nat → tok i = false) →
  exec tok p s = (None, events_of s, (p + polls_of s)%nat).
Proof.
  revert p. induction s as [|[|e] s IH]; intros p H; simpl.
  - by rewrite Nat.add_0_r.
  - rewrite H by (simpl; lia). rewrite IH.
    + f_equal. lia.
    + intros i Hi. apply H. simpl. lia.
  - rewrite IH; [done|]. intros i Hi. apply H. simpl. lia.
Qed.

Lemma exec_cancel tok p s :
  (∃ i, (p ≤ i < p + polls_of s)%nat ∧ tok i = true) →
  ∃ j, (j < polls_of s)%nat ∧ tok (p + j)%nat = true ∧
       (∀ j', (j' < j)%nat → tok (p + j')%nat = false) ∧
       exec tok p s =
         (Some TaskCancelledException, events_of (before_poll j s),
          S (p + j)).
Proof.
  revert p. induction s as [|[|e] s IH]; intros p (i & Hi & Hti); simpl in *.
  - lia.
  - destruct (tok p) eqn:Hp.
    + exists 0%nat. rewrite Nat.add_0_r. repeat split; [lia|done|lia].
    + destruct (IH (S p)) as (j & Hj & Htj & Hlt & He).
      { exists i. split; [|done].
        destruct (decide (i = p)) as [->|]; [congruence|lia]. }
      exists (S j). rewrite <- Nat.add_succ_comm.
      repeat split; [lia|done| |done].
      intros [|j'] Hj'; [by rewrite Nat.add_0_r|].
      rewrite <- Nat.add_succ_comm. apply Hlt. lia.
  - destruct (IH p) as (j & Hj & Htj & Hlt & He); [by eauto|].
    exists j. rewrite He. done.
Qed.

Lemma before_poll_prefix i s : before_poll i s `prefix_of` s.
Proof.
  revert i. induction s as [|[|e] s IH]; intros i; simpl.
  - done.
  - destruct i; [apply prefix_nil|]. by apply prefix_cons.
  - by apply prefix_cons.
Qed.

Lemma before_poll_app_l i s1 s2 :
  (i < polls_of s1)%nat → before_poll i (s1 ++ s2) = before_poll i s1.
Proof.
  revert i. induction s1 as [|[|e] s1 IH]; intros i Hi; simpl in *.
  - lia.
  - destruct i; [done|]. rewrite IH; [done|lia].
  - by rewrite IH.
Qed.

Lemma events_of_prefix s1 s2 :
  s1 `prefix_of` s2 → events_of s1 `prefix_of` events_of s2.
Proof. intros [k ->]. rewrite events_of_app. by eexists. Qed.

(** A run either goes through the whole script or is cancelled at a
    poll. *)
Lemma exec_cases tok s :
  ((∀ i, (i < polls_of s)%nat → tok i = false) ∧
   exec tok 0 s = (None, events_of s, polls_of s)) ∨
  (∃ j, (j < polls_of s)%nat ∧ tok j = true ∧
        (∀ j', (j' < j)%nat → tok j' = false) ∧
        exec tok 0 s =
          (Some TaskCancelledException, events_of (before_poll j s), S j)).
Proof.
  destruct (decide (Forall (λ i, tok i = false) (seq 0 (polls_of s))))
    as [Hall|Hex].
  - left. rewrite Forall_forall in Hall.
    assert (H : ∀ i, (i < polls_of s)%nat → tok i = false).
    { intros i Hi. apply Hall, elem_of_seq. lia. }
    split; [done|]. rewrite exec_no_cancel; [done|].
    intros i Hi. apply H. lia.
  - right. apply not_Forall_Exists in Hex; [|apply _].
    apply Exists_exists in Hex as (i & Hi & Hti).
    apply elem_of_seq in Hi.
    destruct (exec_cancel tok 0 s) as (j & Hj & Htj & Hlt & He).
    { exists i. split; [lia|]. simpl in Hti. by destruct (tok i). }
    exists j. eauto.
Qed.

Lemma run_events_prefix {A} tok (m : M A) :
  run_events (run tok m) `prefix_of` events_of (script m).
Proof.
  unfold run.
  destruct (exec_cases tok (script m)) as [[_ ->]|(j & _ & _ & _ & ->)];
    simpl; [done|].
  apply events_of_prefix, before_poll_prefix.
Qed.

Lemma run_outcome_cases {A} tok (m : M A) :
  run_outcome (run tok m) = result m ∨
  run_outcome (run tok m) = Raise TaskCancelledException.
Proof.
  unfold run.
  destruct (exec_cases tok (script m)) as [[_ ->]|(j & _ & _ & _ & ->)];
    simpl; auto.
Qed.

(** Loops. *)
Lemma foldM_script_elem {S A} (f : S → A → M S) l s a :
  a ∈ script (foldM f l s) → ∃ s' x, x ∈ l ∧ a ∈ script (f s' x).
Proof.
  revert s. induction l as [|x l IH]; intros s; simpl.
  - by intros ?%elem_of_nil.
  - rewrite script_bind, elem_of_app. intros [Ha|Ha].
    + exists s, x. split; [left|done].
    + destruct (result (f s x)) as [s'|]; [|by apply elem_of_nil in Ha].
      destruct (IH _ Ha) as (s'' & y & Hy & Hay).
      exists s'', y. split; [by right|done].
Qed.

Lemma foldM_ok_elem {S A} (f : S → A → M S) l s s_end x :
  result (foldM f l s) = Ok s_end → x ∈ l →
  ∃ s1 s2, result (f s1 x) = Ok s2 ∧
           ∀ a, a ∈ script (f s1 x) → a ∈ script (foldM f l s).
Proof.
  revert s. induction l as [|y l IH]; intros s Hr Hx.
  - by apply elem_of_nil in Hx.
  - simpl in Hr. rewrite result_bind in Hr.
    destruct (result (f s y)) as [s'|] eqn:Hy; [|done].
    apply elem_of_cons in Hx as [->|Hx].
    + exists s, s'. split; [done|]. intros a Ha. simpl.
      rewrite script_bind. apply elem_of_app. by left.
    + destruct (IH _ Hr Hx) as (s1 & s2 & H1 & H2).
      exists s1, s2. split; [done|]. intros a Ha. simpl.
      rewrite script_bind, Hy. apply elem_of_app. right. by apply H2.
Qed.

Lemma forM_script_elem {A} (l : list A) body a :
  a ∈ script (forM l body) → ∃ x, x ∈ l ∧ a ∈ script (body x).
Proof.
  unfold forM. intros (s' & x & Hx & Ha)%foldM_script_elem. eauto.
Qed.

Lemma forM_script {A} (l : list A) (body : A → M unit) :
  (∀ x, x ∈ l → result (body x) = Ok tt) →
  script (forM l body) = concat ((λ x, script (body x)) <$> l) ∧
  result (forM l body) = Ok tt.
Proof.
  unfold forM. induction l as [|x l IH]; intros H; simpl; [done|].
  rewrite script_bind, result_bind, H by left.
  destruct IH as [-> ->]; [|done]. intros y Hy. apply H. by right.
Qed.

End script_facts.

(** ** Headers and column maps *)

Section header_facts.

Lemma enumerate_lookup {A} (l : list A) start j :
  enumerate start l !! j = (λ x, ((start + j)%nat, x)) <$> l !! j.
Proof.
  revert start j. induction l as [|x l IH]; intros start [|j]; simpl; try done.
  - by rewrite Nat.add_0_r.
  - rewrite IH. by rewrite Nat.add_succ_comm.
Qed.

Lemma enumerate_app {A} (l1 l2 : list A) start :
  enumerate start (l1 ++ l2) =
  enumerate start l1 ++ enumerate (start + length l1) l2.
Proof.
  revert start. induction l1 as [|x l1 IH]; intros start; simpl.
  - by rewrite Nat.add_0_r.
  - rewrite IH. by rewrite Nat.add_succ_comm.
Qed.

Lemma enumerate_length {A} (l : list A) start :
  length (enumerate start l) = length l.
Proof. revert start. induction l; intros; simpl; auto. Qed.

Lemma header_names_lookup sh j :
  header_names sh !! j =
  (if decide (j < max_column sh)%nat
   then Some (header_name (S j) (cell_value sh 1 (S j))) else None).
Proof.
  unfold header_names, row_cells.
  rewrite list_lookup_fmap, enumerate_lookup, list_lookup_fmap.
  case_decide as Hj.
  - by rewrite lookup_seq_lt.
  - by rewrite lookup_seq_ge by lia.
Qed.

(** Schema discovery fails on the sheet without cells, and on no other. *)
Lemma load_file_info_empty fi : load_file_info [] fi = Raise IndexError.
Proof. reflexivity. Qed.

Lemma load_file_info_returns sh fi :
  sh ≠ [] →
  load_file_info sh fi = Ok (file_info_of sh (row_cells sh 1) fi).
Proof.
  intros Hsh. unfold load_file_info.
  rewrite decide_True by (unfold max_row; lia).
  by destruct sh.
Qed.

Lemma load_file_info_inv sh fi info :
  load_file_info sh fi = Ok info →
  sh ≠ [] ∧ info = file_info_of sh (row_cells sh 1) fi.
Proof.
  destruct sh as [|row sh]; [done|].
  rewrite load_file_info_returns by done. by intros [= <-].
Qed.

Lemma load_file_info_names sh fi info :
  load_file_info sh fi = Ok info →
  ci_name <$> columns info = header_names sh.
Proof.
  intros [_ ->]%load_file_info_inv. unfold file_info_of, header_names.
  cbn [columns]. rewrite <- list_fmap_compose. apply list_fmap_ext.
  by intros _ [i v] _.
Qed.

Lemma last_named_snoc ps i v name idx :
  last_named (ps ++ [(i, v)]) name idx ↔
  (header_name i v = name ∧ idx = i) ∨
  (header_name i v ≠ name ∧ last_named ps name idx).
Proof.
  split.
  - intros (j & v' & Hj & Hn & Hlast).
    destruct (decide (j < length ps)%nat) as [Hlt|Hge].
    + right. rewrite lookup_app_l in Hj by done.
      split.
      * apply (Hlast (length ps) i v); [done|].
        by rewrite lookup_app_r, Nat.sub_diag.
      * exists j, v'. repeat split; [done..|].
        intros j' i' v'' Hjj' Hj'. apply (Hlast j' i' v''); [done|].
        rewrite lookup_app_l; [done|]. by eapply lookup_lt_Some.
    + left. rewrite lookup_app_r in Hj by lia.
      destruct (j - length ps)%nat eqn:E; simpl in Hj; [|done].
      by simplify_eq.
  - intros [[Hn ->]|[Hne (j & v' & Hj & Hn & Hlast)]].
    + exists (length ps), v. repeat split; [|done|].
      * by rewrite lookup_app_r, Nat.sub_diag.
      * intros j' i' v'' Hjj' Hj'.
        apply lookup_lt_Some in Hj'. rewrite length_app in Hj'.
        simpl in Hj'. lia.
    + exists j, v'. repeat split; [|done|].
      * rewrite lookup_app_l; [done|]. by eapply lookup_lt_Some.
      * intros j' i' v'' Hjj' Hj'.
        destruct (decide (j' < length ps)%nat) as [Hlt|Hge].
        -- rewrite lookup_app_l in Hj' by done. by eapply Hlast.
        -- rewrite lookup_app_r in Hj' by lia.
           destruct (j' - length ps)%nat eqn:E; simpl in Hj'; [|done].
           by simplify_eq.
Qed.

Lemma last_named_nil name idx : ¬ last_named [] name idx.
Proof. by intros (j & v & Hj & _). Qed.

Lemma column_map_fold ps name idx :
  foldl column_map_step ∅ ps !! name = Some idx ↔ last_named ps name idx.
Proof.
  revert idx. induction ps as [|[i v] ps IH] using rev_ind; intros idx.
  - simpl. rewrite lookup_empty. split; [done|].
    by intros ?%last_named_nil.
  - rewrite foldl_app. simpl. rewrite last_named_snoc.
    destruct (decide (header_name i v = name)) as [<-|Hne].
    + rewrite lookup_insert_eq. split.
      * intros [= ->]. by left.
      * by intros [[_ ->]|[? _]].
    + rewrite lookup_insert_ne by done. rewrite IH. split.
      * intros ?. by right.
      * by intros [[? _]|[_ ?]].
Qed.

Lemma column_map_of_lookup sh name idx :
  column_map_of sh !! name = Some idx ↔
  last_named (enumerate 1 (row_cells sh 1)) name idx.
Proof. apply column_map_fold. Qed.

Lemma extract_column_map_fold (sel : list string) ps name :
  foldl (λ (column_map : gmap string nat) '(col_idx, v),
           let col_name := header_name col_idx v in
           if decide (col_name ∈ sel)
           then <[col_name := col_idx]> column_map
           else column_map) ∅ ps !! name =
  if decide (name ∈ sel) then foldl column_map_step ∅ ps !! name else None.
Proof.
  induction ps as [|[i v] ps IH] using rev_ind.
  - simpl. rewrite lookup_empty. by case_decide.
  - rewrite !foldl_app. simpl.
    destruct (decide (header_name i v = name)) as [<-|Hne].
    + case_decide.
      * by rewrite !lookup_insert_eq.
      * done.
    + rewrite lookup_insert_ne by done.
      destruct (decide (header_name i v ∈ sel)).
      * by rewrite lookup_insert_ne.
      * done.
Qed.

Lemma extract_column_map_lookup sh sel name :
  extract_column_map sh sel !! name =
  if decide (name ∈ sel) then column_map_of sh !! name else None.
Proof. apply extract_column_map_fold. Qed.

(** A column map sends a name to the last header position bearing it. *)
Lemma column_map_of_spec sh name idx :
  column_map_of sh !! name = Some idx ↔
  (1 ≤ idx)%nat ∧ header_names sh !! (idx - 1)%nat = Some name ∧
  ∀ j, (idx ≤ j)%nat → header_names sh !! j ≠ Some name.
Proof.
  rewrite column_map_of_lookup. unfold last_named, header_names. split.
  - intros (j & v & Hj & Hn & Hlast).
    assert (idx = S j) as ->.
    { rewrite enumerate_lookup in Hj.
      destruct (row_cells sh 1 !! j); simpl in Hj; by simplify_eq. }
    repeat split; [lia| |].
    + replace (S j - 1)%nat with j by lia.
      rewrite list_lookup_fmap, Hj. simpl. by rewrite Hn.
    + intros j' Hj'. rewrite list_lookup_fmap.
      destruct (enumerate 1 (row_cells sh 1) !! j') as [[i' v'']|] eqn:E;
        [|done].
      simpl. intros [= Heq]. by apply (Hlast j' i' v''); [lia|..].
  - intros (Hidx & Hn & Hlast).
    rewrite list_lookup_fmap in Hn.
    destruct (enumerate 1 (row_cells sh 1) !! (idx - 1)%nat)
      as [[i v]|] eqn:E; [|done].
    simpl in Hn. simplify_eq.
    assert (i = idx) as ->.
    { rewrite enumerate_lookup in E.
      destruct (row_cells sh 1 !! (idx - 1)%nat); simpl in E; [|done].
      simplify_eq. lia. }
    exists (idx - 1)%nat, v. repeat split; [done..|].
    intros j' i' v' Hj' E' Heq. apply (Hlast j'); [lia|].
    by rewrite list_lookup_fmap, E'; simpl; rewrite Heq.
Qed.

End header_facts.

(** ** Polls, assignments and the shape of scripts *)

Section guarded_facts.

Lemma script_writes_app s1 s2 :
  script_writes (s1 ++ s2) = script_writes s1 ++ script_writes s2.
Proof. unfold script_writes. by rewrite events_of_app, writes_of_app. Qed.

Lemma before_poll_all i s : (polls_of s ≤ i)%nat → before_poll i s = s.
Proof.
  revert i. induction s as [|[|e] s IH]; intros i Hi; simpl in *.
  - done.
  - destruct i; [lia|]. rewrite IH; [done|lia].
  - by rewrite IH.
Qed.

Lemma before_poll_app_r i s1 s2 :
  (polls_of s1 ≤ i)%nat →
  before_poll i (s1 ++ s2) = s1 ++ before_poll (i - polls_of s1) s2.
Proof.
  revert i. induction s1 as [|[|e] s1 IH]; intros i Hi; simpl in *.
  - by rewrite Nat.sub_0_r.
  - destruct i; [lia|]. rewrite IH; [done|lia].
  - by rewrite IH.
Qed.

Lemma guarded_nil : guarded [].
Proof. intros i Hi. simpl in *. lia. Qed.

Lemma guarded_app s1 s2 : guarded s1 → guarded s2 → guarded (s1 ++ s2).
Proof.
  intros H1 H2 i Hi. rewrite polls_of_app in Hi.
  destruct (decide (i < polls_of s1)%nat) as [Hlt|Hge].
  - rewrite before_poll_app_l by done. apply H1. lia.
  - rewrite before_poll_app_r, script_writes_app, length_app by lia.
    rewrite H2 by lia.
    rewrite <- (before_poll_all (polls_of s1) s1) at 1 by done.
    rewrite H1 by done. lia.
Qed.

Lemma guarded_concat ss : Forall guarded ss → guarded (concat ss).
Proof.
  induction 1; simpl; [apply guarded_nil|]. by apply guarded_app.
Qed.

Lemma guarded_silent s :
  polls_of s = 0%nat → script_writes s = [] → guarded s.
Proof.
  intros Hp Hw i Hi. rewrite before_poll_all by lia. rewrite Hw. simpl. lia.
Qed.

Lemma guarded_poll_write w s :
  polls_of s = 0%nat → script_writes s = [] →
  guarded (APoll :: AEvent (EWrite w) :: s).
Proof.
  intros Hp Hw [|i] Hi; simpl in *; [done|].
  rewrite before_poll_all by lia.
  unfold script_writes in *. simpl. rewrite Hw. simpl. lia.
Qed.

Lemma polls_of_concat ss :
  polls_of (concat ss) = sum_list (polls_of <$> ss).
Proof. induction ss; simpl; [done|]. by rewrite polls_of_app, IHss. Qed.

Lemma script_writes_concat ss :
  script_writes (concat ss) = concat (script_writes <$> ss).
Proof.
  induction ss; simpl; [done|]. by rewrite script_writes_app, IHss.
Qed.

Lemma Forall_quiet_app s1 s2 :
  Forall quiet (s1 ++ s2) ↔ Forall quiet s1 ∧ Forall quiet s2.
Proof. apply Forall_app. Qed.

(** A cancelled run leaves what precedes the poll that stopped it. *)
Lemma run_cancelled_at {A} tok (m : M A) j :
  (j < polls_of (script m))%nat → tok j = true →
  (∀ j', (j' < j)%nat → tok j' = false) →
  run tok m =
    mkRun (Raise TaskCancelledException)
          (events_of (before_poll j (script m))) (S j).
Proof.
  intros Hj Htj Hlt. unfold run.
  destruct (exec_cancel tok 0 (script m)) as (j0 & Hj0 & Htj0 & Hlt0 & ->).
  { exists j. split; [lia|done]. }
  simpl in *.
  assert (j0 = j) as ->; [|done].
  destruct (Nat.lt_trichotomy j0 j) as [H|[H|H]]; [|done|].
  - rewrite Hlt in Htj0; done.
  - rewrite Hlt0 in Htj; done.
Qed.

Lemma run_not_cancelled {A} tok (m : M A) :
  (∀ i, (i < polls_of (script m))%nat → tok i = false) →
  run tok m = mkRun (result m) (events_of (script m)) (polls_of (script m)).
Proof.
  intros H. unfold run. rewrite exec_no_cancel; [done|].
  intros i Hi. apply H. lia.
Qed.

End guarded_facts.

(** ** Loops whose body polls, then assigns one cell *)

Section block_facts.
Context {A : Type} (body : A → M unit) (w : A → write).
Hypothesis body_script : ∀ x,
  ∃ tl, script (body x) = APoll :: AEvent (EWrite (w x)) :: tl ∧
        polls_of tl = 0%nat ∧ script_writes tl = [] ∧ Forall quiet tl ∧
        result (body x) = Ok tt.

Lemma forM_blocks l :
  let m := forM l body in
  result m = Ok tt ∧
  script_writes (script m) = w <$> l ∧
  polls_of (script m) = length l ∧
  guarded (script m) ∧ Forall quiet (script m).
Proof.
  unfold forM. induction l as [|x l IH]; simpl.
  - repeat split; [apply guarded_nil|constructor].
  - destruct IH as (Hr & Hw & Hp & Hg & Hq).
    destruct (body_script x) as (tl & Hs & Hp0 & Hw0 & Hq0 & Hr0).
    rewrite script_bind, result_bind, Hr0, Hs. repeat split.
    + done.
    + rewrite script_writes_app, Hw.
      unfold script_writes in *. simpl. by rewrite Hw0.
    + rewrite polls_of_app. simpl. rewrite Hp0, Hp. done.
    + apply guarded_app; [|done]. by apply guarded_poll_write.
    + apply Forall_app. split; [|done]. by repeat constructor.
Qed.
End block_facts.

(** ** The extractor *)

Section extract_facts.
Context (sh : sheet) (cm : gmap string nat) (n : nat).

(** The assignments that copy source column [c] to output column [oc]. *)
Lemma extract_row_script c oc r :
  ∃ tl, script (extract_row sh n c oc r) =
          APoll :: AEvent (EWrite (copied 0 sh r c r oc)) :: tl ∧
        polls_of tl = 0%nat ∧ script_writes tl = [] ∧ Forall quiet tl ∧
        result (extract_row sh n c oc r) = Ok tt.
Proof.
  unfold extract_row, when.
  destruct (bool_decide _); eexists; (split; [reflexivity|]);
    repeat split; repeat constructor.
Qed.

Lemma extract_rows_script c oc rows :
  let m := forM rows (extract_row sh n c oc) in
  result m = Ok tt ∧
  script_writes (script m) = (λ r, copied 0 sh r c r oc) <$> rows ∧
  polls_of (script m) = length rows ∧
  guarded (script m) ∧ Forall quiet (script m).
Proof. apply forM_blocks, extract_row_script. Qed.

Lemma extract_column_step oc name :
  match cm !! name with
  | Some c =>
      result (extract_column sh cm n oc name) = Ok (S oc) ∧
      script (extract_column sh cm n oc name) =
        script (forM (seq 1 (max_row sh)) (extract_row sh n c oc))
  | None =>
      result (extract_column sh cm n oc name) = Ok oc ∧
      script (extract_column sh cm n oc name) = []
  end.
Proof.
  unfold extract_column. destruct (cm !! name) as [c|]; [|done].
  assert (Hrange : py_range 1 (max_row sh + 1) = seq 1 (max_row sh)).
  { unfold py_range. f_equal. lia. }
  rewrite Hrange.
  destruct (extract_rows_script c oc (seq 1 (max_row sh))) as (Hr & _).
  rewrite script_bind, result_bind, Hr. simpl.
  rewrite app_nil_r, Nat.add_1_r. done.
Qed.

(** The selected names that resolve, as source columns, in selection
    order. *)
Lemma extract_loop_script names oc :
  let m := foldM (extract_column sh cm n) names oc in
  let cols := omap (λ name, cm !! name) names in
  result m = Ok (oc + length cols)%nat ∧
  script_writes (script m) =
    concat ((λ '(o, c), (λ r, copied 0 sh r c r o) <$> seq 1 (max_row sh))
              <$> enumerate oc cols) ∧
  polls_of (script m) = (length cols * max_row sh)%nat ∧
  guarded (script m) ∧ Forall quiet (script m).
Proof.
  revert oc. induction names as [|name names IH]; intros oc.
  - simpl. rewrite Nat.add_0_r.
    repeat split; [apply guarded_nil|constructor].
  - cbn [foldM omap list_omap]. rewrite script_bind, result_bind.
    pose proof (extract_column_step oc name) as Hstep.
    destruct (cm !! name) as [c|] eqn:Hc.
    + destruct Hstep as [-> ->].
      destruct (extract_rows_script c oc (seq 1 (max_row sh)))
        as (Hr & Hw & Hp & Hg & Hq).
      destruct (IH (S oc)) as (Hr' & Hw' & Hp' & Hg' & Hq').
      cbn [enumerate fmap list_fmap concat length].
      repeat split.
      * rewrite Hr'. f_equal. lia.
      * rewrite script_writes_app, Hw, Hw'. done.
      * rewrite polls_of_app, Hp, Hp', length_seq. lia.
      * by apply guarded_app.
      * by apply Forall_app.
    + destruct Hstep as [-> ->]. rewrite app_nil_l. apply IH.
Qed.

End extract_facts.

Section extract_run.

Lemma column_map_fold_is_Some ps m name :
  is_Some (foldl column_map_step m ps !! name) ↔
  is_Some (m !! name) ∨ ∃ i v, (i, v) ∈ ps ∧ header_name i v = name.
Proof.
  revert m. induction ps as [|[i v] ps IH]; intros m; simpl.
  - split; [by left|]. intros [?|(i & v & H & _)]; [done|].
    by apply elem_of_nil in H.
  - rewrite IH. split.
    + intros [Hm|(i' & v' & Hin & Hn)].
      * destruct (decide (header_name i v = name)) as [Heq|Hne].
        -- right. exists i, v. split; [left|done].
        -- rewrite lookup_insert_ne in Hm by done. by left.
      * right. exists i', v'. split; [by right|done].
    + intros [Hm|(i' & v' & Hin & Hn)].
      * left. destruct (decide (header_name i v = name)) as [Heq|Hne].
        -- rewrite Heq, lookup_insert_eq. by eexists.
        -- by rewrite lookup_insert_ne.
      * apply elem_of_cons in Hin as [[= -> ->]|Hin].
        -- left. rewrite Hn, lookup_insert_eq. by eexists.
        -- right. eauto.
Qed.

(** A name resolves exactly when some header cell bears it. *)
Lemma column_map_of_is_Some sh name :
  is_Some (column_map_of sh !! name) ↔ name ∈ header_names sh.
Proof.
  unfold column_map_of.
  change (foldl _ ∅ ?ps) with (foldl column_map_step ∅ ps).
  rewrite column_map_fold_is_Some, lookup_empty. unfold header_names.
  rewrite list_elem_of_fmap. split.
  - intros [[? [=]]|(i & v & Hin & Hn)]. by exists (i, v).
  - intros ([i v] & Hn & Hin). right. by exists i, v.
Qed.

Lemma omap_extract_column_map sh sel :
  omap (λ name, extract_column_map sh sel !! name) sel =
  omap (λ name, column_map_of sh !! name) sel.
Proof.
  assert (H : ∀ l, l ⊆ sel →
    omap (λ name, extract_column_map sh sel !! name) l =
    omap (λ name, column_map_of sh !! name) l).
  { induction l as [|x l IH]; intros Hl; [done|].
    assert (Hx : extract_column_map sh sel !! x = column_map_of sh !! x).
    { rewrite extract_column_map_lookup.
      by rewrite decide_True by (apply Hl; left). }
    csimpl. rewrite Hx, IH; [done|].
    intros y Hy. apply Hl. by right. }
  by apply H.
Qed.

Lemma extract_columns_script sh sel :
  script (extract_columns sh sel) =
    AEvent (EOpen 0)
      :: script (foldM (extract_column sh (extract_column_map sh sel)
                                       (length sel)) sel 1%nat)
      ++ [AEvent (EProgress {| current := 100; total := 100 |});
          AEvent ESave; AEvent (EClose 0)] ∧
  result (extract_columns sh sel) = Ok tt.
Proof.
  unfold extract_columns.
  destruct (extract_loop_script sh (extract_column_map sh sel) (length sel)
              sel 1%nat) as (Hr & _).
  rewrite !script_bind, !result_bind. simpl.
  rewrite Hr. split; reflexivity.
Qed.

End extract_run.

(** C4. With no cancellation, extraction ends without error, and its cell
    assignments are exactly these: for the selected names that resolve in
    the header, taken in selection order, the [j]-th of them has its source
    column copied, rows 1 to [max_row], to output column [j], counting from
    1 and leaving no gap; a name that is absent from the header contributes
    nothing. A name resolves exactly when a header cell bears it, and it
    resolves to a column that bears it. *)
Theorem extract_columns_order_preserved sh sel tok :
  (∀ i, tok i = false) →
  let r := run tok (extract_columns sh sel) in
  let cols := omap (λ name, column_map_of sh !! name) sel in
  run_outcome r = Ok tt ∧
  writes_of (run_events r) =
    concat ((λ '(o, c), (λ row, copied 0 sh row c row o)
                          <$> seq 1 (max_row sh))
              <$> enumerate 1 cols) ∧
  (∀ name, is_Some (column_map_of sh !! name) ↔ name ∈ header_names sh) ∧
  (∀ name c, column_map_of sh !! name = Some c →
             (1 ≤ c)%nat ∧ header_names sh !! (c - 1)%nat = Some name).
Proof.
  intros Htok r cols. subst r.
  rewrite run_not_cancelled by auto. cbn [run_outcome run_events].
  destruct (extract_columns_script sh sel) as [Hs Hr].
  destruct (extract_loop_script sh (extract_column_map sh sel) (length sel)
              sel 1%nat) as (_ & Hw & _).
  rewrite omap_extract_column_map in Hw.
  split; [|split; [|split]].
  - done.
  - rewrite Hs.
    change (writes_of (events_of ?s)) with (script_writes s).
    change (AEvent (EOpen 0) :: ?s) with ([AEvent (EOpen 0)] ++ s).
    rewrite !script_writes_app, Hw. unfold script_writes. simpl.
    by rewrite app_nil_r.
  - intros name. apply column_map_of_is_Some.
  - intros name c H. apply column_map_of_spec in H as (? & ? & _). done.
Qed.

Lemma extract_columns_order_preserved_witness :
  (∀ i, never i = false) ∧
  writes_of (run_events (run never (extract_columns file_A ["Name"; "Nope"; "ID"]))) =
    ((λ row, copied 0 file_A row 2 row 1) <$> seq 1 4) ++
    ((λ row, copied 0 file_A row 1 row 2) <$> seq 1 4).
Proof.
  split; [done|].
  destruct (extract_columns_order_preserved file_A ["Name"; "Nope"; "ID"] never)
    as (_ & Hw & _); [done|].
  rewrite Hw. vm_compute. reflexivity.
Defined.

(** ** Dictionaries *)

Section dict_facts.
Context {K V : Type} `{EqDecision K}.
Implicit Types d : dict K V.

Lemma dict_get_set k k' v d :
  dict_get k' (dict_set k v d) =
  if decide (k' = k) then Some v else dict_get k' d.
Proof.
  induction d as [|[k0 v0] d IH]; simpl.
  - by destruct (decide (k' = k)).
  - destruct (decide (k = k0)) as [->|Hne]; simpl.
    + by destruct (decide (k' = k0)).
    + rewrite IH. destruct (decide (k' = k0)) as [->|]; [|done].
      by rewrite decide_False by done.
Qed.

Lemma dict_set_new k v d :
  dict_get k d = None → dict_set k v d = d ++ [(k, v)].
Proof.
  induction d as [|[k0 v0] d IH]; simpl; [done|].
  destruct (decide (k = k0)); [done|]. intros Hd. by rewrite IH.
Qed.

Lemma dict_get_app k d1 d2 :
  dict_get k (d1 ++ d2) =
  match dict_get k d1 with Some v => Some v | None => dict_get k d2 end.
Proof.
  induction d1 as [|[k0 v0] d1 IH]; simpl; [done|].
  by destruct (decide (k = k0)).
Qed.

Lemma dict_get_Some_elem k v d : dict_get k d = Some v → (k, v) ∈ d.
Proof.
  induction d as [|[k0 v0] d IH]; simpl; [done|].
  destruct (decide (k = k0)) as [->|].
  - intros [= ->]. left.
  - intros Hd. right. by apply IH.
Qed.

Lemma dict_get_None_keys k d : dict_get k d = None ↔ k ∉ d.*1.
Proof.
  induction d as [|[k0 v0] d IH]; simpl.
  - split; [|done]. intros _ ?%elem_of_nil. done.
  - rewrite not_elem_of_cons. destruct (decide (k = k0)) as [->|Hne].
    + split; [done|]. by intros [? _].
    + rewrite IH. split; [done|]. by intros [_ ?].
Qed.

Lemma dict_get_NoDup k v d :
  NoDup d.*1 → (k, v) ∈ d → dict_get k d = Some v.
Proof.
  induction d as [|[k0 v0] d IH]; simpl.
  - by intros _ ?%elem_of_nil.
  - intros [Hk0 Hnd]%NoDup_cons [[= -> ->]|Hin]%elem_of_cons.
    + by rewrite decide_True.
    + rewrite decide_False; [by apply IH|].
      intros ->. apply Hk0. apply list_elem_of_fmap. by exists (k0, v).
Qed.

Lemma dict_mem_true k d : dict_mem k d = true ↔ is_Some (dict_get k d).
Proof. unfold dict_mem. by rewrite bool_decide_eq_true. Qed.

Lemma dict_mem_false k d : dict_mem k d = false ↔ dict_get k d = None.
Proof.
  unfold dict_mem. rewrite bool_decide_eq_false.
  by rewrite <- eq_None_not_Some.
Qed.
End dict_facts.

(** ** The scan of a key column *)

Section scan_facts.
Context (sh : sheet) (col : nat).

Lemma scan_inv_init : scan_inv sh col 0 ([], []).
Proof.
  unfold scan_inv. simpl. split_and!; try done; try constructor.
  intros k _ r Hr. lia.
Qed.

Lemma scan_inv_step n acc :
  scan_inv sh col n acc →
  scan_inv sh col (S n) (scan_step sh col acc (2 + n)%nat).
Proof.
  destruct acc as [keys d]. intros (Hk & Hnd & HS & HN & Hso & Hlt).
  cbn [fst snd] in *. unfold scan_step.
  change (2 + n)%nat with (S (S n)) in *.
  change (2 + S n)%nat with (S (S (S n))).
  set (k0 := cell_value sh (S (S n)) col) in *.
  assert (Hk0 : cell_value sh (S (S n)) col = k0) by done.
  clearbody k0.
  destruct (dict_mem k0 d) eqn:Hm.
  - apply dict_mem_true in Hm as [r0 Hr0].
    unfold scan_inv. cbn [fst snd]. split_and!; try done.
    + intros k r H. destruct (HS _ _ H) as (? & ? & ?).
      split_and!; [lia..|done|done].
    + intros k Hkd r Hr.
      destruct (decide (r = S (S n))) as [->|Hne].
      * intros <-. congruence.
      * apply HN; [done|lia].
    + eapply Forall_impl; [done|]. simpl. lia.
  - apply dict_mem_false in Hm.
    rewrite (dict_set_new _ _ _ Hm).
    unfold scan_inv. cbn [fst snd]. split_and!.
    + by rewrite fmap_app, Hk.
    + apply NoDup_app. split_and!; [done| |apply NoDup_singleton].
      intros x Hx ->%list_elem_of_singleton.
      rewrite Hk in Hx. by apply dict_get_None_keys in Hm.
    + intros k r H. rewrite dict_get_app in H.
      destruct (dict_get k d) as [r'|] eqn:Hkd.
      * simplify_eq. destruct (HS _ _ Hkd) as (? & ? & ?).
        split_and!; [lia..|done|done].
      * simpl in H. case_decide; simplify_eq.
        split_and!; [lia..|done|].
        intros r' Hr'. apply HN; [done|lia].
    + intros k Hkd r Hr. rewrite dict_get_app in Hkd.
      destruct (dict_get k d) eqn:Hkd'; [done|].
      simpl in Hkd. case_decide as Hne; [done|].
      destruct (decide (r = S (S n))) as [->|Hne'].
      * congruence.
      * apply HN; [done|lia].
    + rewrite fmap_app. apply StronglySorted_app_2; [|done|].
      * intros x1 x2 Hx1 ->%list_elem_of_singleton.
        rewrite Forall_forall in Hlt. specialize (Hlt _ Hx1). simpl. lia.
      * repeat constructor.
    + rewrite fmap_app. apply Forall_app. split.
      * eapply Forall_impl; [done|]. simpl. lia.
      * repeat constructor; simpl; lia.
Qed.

Lemma scan_inv_fold n :
  scan_inv sh col n (foldl (scan_step sh col) ([], []) (seq 2 n)).
Proof.
  induction n as [|n IH]; [apply scan_inv_init|].
  rewrite seq_S, foldl_app. simpl. by apply scan_inv_step.
Qed.

Lemma scan_keys_inv : scan_inv sh col (max_row sh - 1) (scan_keys sh col).
Proof.
  unfold scan_keys, py_range.
  replace (max_row sh + 1 - 2)%nat with (max_row sh - 1)%nat by lia.
  apply scan_inv_fold.
Qed.

(** The scan maps every key to the first data row that holds it. *)
Lemma scan_keys_first_row k r :
  dict_get k (scan_keys sh col).2 = Some r ↔ first_row sh col k r.
Proof.
  destruct scan_keys_inv as (_ & _ & HS & HN & _).
  assert (Hmax : (1 ≤ max_row sh)%nat) by (unfold max_row; lia).
  split.
  - intros H. destruct (HS _ _ H) as (? & ? & ?).
    repeat split; [lia..|done|done].
  - intros ((Hr1 & Hr2) & Hcell & Hfirst).
    destruct (dict_get k (scan_keys sh col).2) as [r'|] eqn:Hd.
    + destruct (HS _ _ Hd) as (Hr' & Hcell' & Hfirst').
      f_equal. destruct (Nat.lt_trichotomy r r') as [Hlt|[->|Hlt]].
      * exfalso. apply (Hfirst' r); [lia|done].
      * done.
      * exfalso. apply (Hfirst r'); [lia|done].
    + exfalso. apply (HN _ Hd r); [lia|done].
Qed.

Lemma scan_keys_fst : (scan_keys sh col).1 = (scan_keys sh col).2.*1.
Proof. by destruct scan_keys_inv as (? & _). Qed.

Lemma scan_keys_NoDup : NoDup (scan_keys sh col).1.
Proof. by destruct scan_keys_inv as (_ & ? & _). Qed.

Lemma scan_keys_sorted : StronglySorted lt (scan_keys sh col).2.*2.
Proof. by destruct scan_keys_inv as (_ & _ & _ & _ & ? & _). Qed.

End scan_facts.

(** ** The row mapping of a reference-driven file *)

Section row_mapping_facts.
Context (fk : dict value nat).
Hypothesis fk_inj : ∀ k1 k2 r,
  dict_get k1 fk = Some r → dict_get k2 fk = Some r → k1 = k2.

Lemma ref_key_fold keys m t :
  NoDup keys →
  let acc := foldl (ref_key_step fk) (m, t) keys in
  acc.2 = (t + length keys)%nat ∧
  (∀ i k r, keys !! i = Some k → dict_get k fk = Some r →
            dict_get r acc.1 = Some (t + i)%nat) ∧
  (∀ r, (∀ k, k ∈ keys → dict_get k fk ≠ Some r) →
        dict_get r acc.1 = dict_get r m).
Proof.
  revert m t. induction keys as [|k0 ks IH]; intros m t Hnd; simpl.
  - split_and!; [lia| |done]. intros i k r Hi. done.
  - apply NoDup_cons in Hnd as [Hk0 Hnd].
    destruct (dict_get k0 fk) as [r0|] eqn:Hr0.
    + destruct (IH (dict_set r0 t m) (S t) Hnd) as (Ht & Ha & Hb).
      split_and!.
      * rewrite Ht. lia.
      * intros [|i] k r Hi Hk; simpl in Hi.
        -- assert (k = k0) as -> by congruence.
           assert (r = r0) as -> by congruence.
           rewrite Hb.
           ++ rewrite dict_get_set, decide_True by done.
              f_equal. lia.
           ++ intros k' Hk' Hkr. apply Hk0.
              by rewrite (fk_inj k0 k' r0).
        -- rewrite (Ha i k r Hi Hk). f_equal. lia.
      * intros r Hr. rewrite Hb.
        -- rewrite dict_get_set, decide_False; [done|].
           intros ->. by apply (Hr k0); [left|].
        -- intros k Hk. apply Hr. by right.
    + destruct (IH m (S t) Hnd) as (Ht & Ha & Hb).
      split_and!.
      * rewrite Ht. lia.
      * intros [|i] k r Hi Hk; simpl in Hi.
        -- simplify_eq.
        -- rewrite (Ha i k r Hi Hk). f_equal. lia.
      * intros r Hr. apply Hb. intros k Hk. apply Hr. by right.
Qed.

Context (refd : dict value nat).

Lemma own_key_fold entries m t :
  NoDup entries.*2 →
  let own := filter (λ kr, dict_get kr.1 refd = None) entries in
  let acc := foldl (own_key_step refd) (m, t) entries in
  acc.2 = (t + length own)%nat ∧
  (∀ j k r, own !! j = Some (k, r) →
            dict_get r acc.1 = Some (t + j)%nat) ∧
  (∀ r, r ∉ own.*2 → dict_get r acc.1 = dict_get r m).
Proof.
  revert m t. induction entries as [|[k0 r0] es IH]; intros m t Hnd.
  - simpl. split_and!; [lia|done|done].
  - rewrite fmap_cons in Hnd. apply NoDup_cons in Hnd as [Hr0 Hnd].
    cbn [foldl own_key_step]. rewrite filter_cons. cbn [fst].
    destruct (dict_get k0 refd) as [x|] eqn:Hk0.
    + assert (Hm : dict_mem k0 refd = true) by (apply dict_mem_true; eauto).
      rewrite Hm, decide_False by done. by apply IH.
    + assert (Hm : dict_mem k0 refd = false) by by apply dict_mem_false.
      rewrite Hm, decide_True by done.
      destruct (IH (dict_set r0 t m) (S t) Hnd) as (Ht & Ha & Hb).
      cbn zeta in *.
      split_and!.
      * rewrite Ht. simpl. lia.
      * intros [|j] k r Hj; simpl in Hj.
        -- simplify_eq. rewrite Hb.
           ++ rewrite dict_get_set, decide_True by done. f_equal. lia.
           ++ intros Hin. apply Hr0.
              apply list_elem_of_fmap in Hin as ([k' r'] & -> & Hin).
              apply list_elem_of_filter in Hin as [_ Hin].
              apply list_elem_of_fmap. by exists (k', r').
        -- rewrite (Ha j k r Hj). f_equal. lia.
      * intros r Hr. rewrite fmap_cons, not_elem_of_cons in Hr.
        destruct Hr as [Hne Hr]. simpl in Hne.
        rewrite Hb by done. by rewrite dict_get_set, decide_False.
Qed.

Lemma append_own_step_pure rk2r R acc entry :
  rk2r !! R = Some refd →
  script (append_own_step rk2r R acc entry) = [] ∧
  result (append_own_step rk2r R acc entry) =
    Ok (own_key_step refd acc entry).
Proof.
  intros HR. destruct acc as [m t], entry as [k r].
  unfold append_own_step, own_key_step. rewrite HR.
  rewrite script_bind, result_bind. simpl.
  by destruct (dict_mem k refd).
Qed.

Lemma append_own_keys_pure rk2r R entries start :
  rk2r !! R = Some refd →
  script (append_own_keys entries rk2r R start) = [] ∧
  result (append_own_keys entries rk2r R start) =
    Ok (foldl (own_key_step refd) start entries).
Proof.
  intros HR. unfold append_own_keys.
  revert start. induction entries as [|e es IH]; intros acc; [done|].
  cbn [foldM foldl]. rewrite script_bind, result_bind.
  destruct (append_own_step_pure rk2r R acc e HR) as [-> ->].
  apply IH.
Qed.

End row_mapping_facts.

(** ** Loop invariants *)

Section foldM_facts.
Context {S A : Type} (f : S → A → M S).

Lemma foldM_invariant (I : S → Prop) l s s_end :
  I s →
  (∀ s x s', x ∈ l → I s → result (f s x) = Ok s' → I s') →
  result (foldM f l s) = Ok s_end → I s_end.
Proof.
  revert s. induction l as [|x l IH]; intros s Hs Hstep; simpl.
  - by intros [= <-].
  - rewrite result_bind.
    destruct (result (f s x)) as [s'|] eqn:Hx; [|done].
    apply IH.
    + apply (Hstep s x); [left|done..].
    + intros s0 y s0' Hy. apply Hstep. by right.
Qed.

Lemma foldM_silent l s :
  (∀ s x, x ∈ l → script (f s x) = []) → script (foldM f l s) = [].
Proof.
  revert s. induction l as [|x l IH]; intros s H; simpl; [done|].
  rewrite script_bind, H by left.
  destruct (result (f s x)); [|done].
  apply IH. intros s' y Hy. apply H. by right.
Qed.
End foldM_facts.

(** ** Step 2: the reference tables *)

Section reference_facts.
Context (files : list sheet) (refmap : gmap string nat).

Lemma reference_step_silent acc entry :
  script (reference_step files (column_map_of <$> files) acc entry) = [].
Proof.
  destruct acc as [rk rk2r], entry as [name rf]. unfold reference_step.
  rewrite script_bind.
  destruct ((column_map_of <$> files) !! rf) as [cm|]; simpl; [|done].
  destruct (cm !! name); [|done].
  rewrite script_bind.
  destruct (files !! rf) as [shr|]; simpl; [|done].
  by destruct (scan_keys shr _).
Qed.

Lemma build_reference_silent :
  script (build_reference files (column_map_of <$> files) refmap) = [].
Proof.
  apply foldM_silent. intros. apply reference_step_silent.
Qed.

Lemma build_reference_ok tables :
  result (build_reference files (column_map_of <$> files) refmap)
    = Ok tables →
  ref_tables_ok files refmap tables.
Proof.
  apply foldM_invariant.
  - intros name keys. simpl. by rewrite lookup_empty.
  - intros [rk rk2r] [name rf] acc' Hin HI.
    apply elem_of_map_to_list in Hin.
    unfold reference_step. rewrite result_bind.
    rewrite list_lookup_fmap.
    destruct (files !! rf) as [shr|] eqn:Hrf; simpl; [|done].
    destruct (column_map_of shr !! name) as [cr|] eqn:Hcr.
    + rewrite result_bind. simpl.
      destruct (scan_keys shr cr) as [keys k2r] eqn:Hscan. simpl.
      intros [= <-]. intros name' keys'. simpl.
      destruct (decide (name = name')) as [<-|Hne].
      * rewrite !lookup_insert_eq. intros [= <-].
        exists rf, shr, cr. by rewrite Hscan.
      * rewrite !lookup_insert_ne by done. apply HI.
    + simpl. by intros [= <-].
Qed.

End reference_facts.

(** ** Step 4b as a whole *)

Section ref_mapping.
Context (fk refd : dict value nat) (keys : list value).
Hypothesis keys_refd : keys = refd.*1.
Hypothesis keys_nodup : NoDup keys.
Hypothesis fk_keys_nodup : NoDup fk.*1.
Hypothesis fk_rows_nodup : NoDup fk.*2.
Hypothesis fk_inj : ∀ k1 k2 r,
  dict_get k1 fk = Some r → dict_get k2 fk = Some r → k1 = k2.

Let own := own_keys refd fk.
Let acc := foldl (own_key_step refd) (map_ref_keys fk keys) fk.

Lemma own_keys_elem k r :
  (k, r) ∈ own ↔ dict_get k fk = Some r ∧ k ∉ keys.
Proof.
  unfold own, own_keys. rewrite list_elem_of_filter. simpl.
  rewrite dict_get_None_keys, <- keys_refd. split.
  - intros [Hk Hin]. split; [|done]. by apply dict_get_NoDup.
  - intros [Hk Hin]. split; [done|]. by apply dict_get_Some_elem.
Qed.

Lemma own_rows_not_canonical k r :
  k ∈ keys → dict_get k fk = Some r → r ∉ own.*2.
Proof.
  intros Hk Hr Hin.
  apply list_elem_of_fmap in Hin as ([k' r'] & -> & Hin).
  apply own_keys_elem in Hin as [Hk' Hnk]. simpl in *.
  by rewrite (fk_inj k k' r') in Hk.
Qed.

Lemma ref_mapping_spec :
  acc.2 = (2 + length keys + length own)%nat ∧
  (∀ i k r, keys !! i = Some k → dict_get k fk = Some r →
            dict_get r acc.1 = Some (2 + i)%nat) ∧
  (∀ j k r, own !! j = Some (k, r) →
            dict_get r acc.1 = Some (2 + length keys + j)%nat) ∧
  (∀ r t, dict_get r acc.1 = Some t →
     ∃ k, dict_get k fk = Some r ∧
          ((∃ i, keys !! i = Some k ∧ t = (2 + i)%nat) ∨
           (∃ j, own !! j = Some (k, r) ∧
                 t = (2 + length keys + j)%nat))).
Proof.
  subst acc. unfold map_ref_keys.
  pose proof (ref_key_fold fk fk_inj keys [] 2%nat keys_nodup)
    as (Ht1 & Ha1 & Hb1).
  destruct (foldl (ref_key_step fk) ([], 2%nat) keys) as [m1 t1].
  cbn [fst snd] in *.
  pose proof (own_key_fold refd fk m1 t1 fk_rows_nodup) as (Ht2 & Ha2 & Hb2).
  fold (own_keys refd fk) in Ht2, Ha2, Hb2. fold own in Ht2, Ha2, Hb2.
  destruct (foldl (own_key_step refd) (m1, t1) fk) as [m2 t2].
  cbn [fst snd] in *. subst t1.
  assert (Hcanon : ∀ i k r, keys !! i = Some k → dict_get k fk = Some r →
                             dict_get r m2 = Some (2 + i)%nat).
  { intros i k r Hi Hk. rewrite Hb2.
    - by apply (Ha1 i k r).
    - apply (own_rows_not_canonical k); [|done].
      by eapply list_elem_of_lookup_2. }
  split_and!.
  - lia.
  - done.
  - done.
  - intros r t Hr.
    destruct (decide (r ∈ own.*2)) as [Hin|Hnin].
    + apply list_elem_of_fmap in Hin as ([k r'] & -> & Hin).
      cbn [snd] in *.
      pose proof Hin as Hin'. apply own_keys_elem in Hin' as [Hk _].
      apply list_elem_of_lookup in Hin as [j Hj].
      exists k. split; [done|]. right. exists j. split; [done|].
      rewrite (Ha2 j k r' Hj) in Hr. by injection Hr.
    + rewrite Hb2 in Hr by done.
      destruct (decide (Exists (λ k, dict_get k fk = Some r) keys))
        as [Hex|Hnex].
      * apply Exists_exists in Hex as (k & Hk & Hkr).
        apply list_elem_of_lookup in Hk as [i Hi].
        exists k. split; [done|]. left. exists i. split; [done|].
        rewrite (Ha1 i k r Hi Hkr) in Hr. by injection Hr.
      * rewrite Hb1 in Hr; [done|].
        intros k Hk Hkr. apply Hnex, Exists_exists. eauto.
Qed.

End ref_mapping.

Section file_row_mapping_facts.
Context (files : list sheet) (refmap : gmap string nat).
Context (rk : gmap string (list value)) (rk2r : gmap string (dict value nat)).

Lemma find_ref_column_Some cols R :
  find_ref_column cols refmap = Some R →
  is_Some (refmap !! R) ∧ R ∈ cols.*2.
Proof.
  induction cols as [|[f name] cols IH]; simpl; [done|].
  destruct (decide (is_Some (refmap !! name))) as [Hs|Hn].
  - intros [= <-]. split; [done|]. left.
  - intros H. destruct (IH H) as [? ?]. split; [done|]. by right.
Qed.

Lemma driving_ref_Some cols R :
  driving_ref cols refmap = Some R →
  is_Some (refmap !! R) ∧ R ∈ cols.*2 ∧ R ≠ EmptyString.
Proof.
  unfold driving_ref.
  destruct (find_ref_column cols refmap) as [R'|] eqn:Hf; [|done].
  destruct (decide (R' = EmptyString)); [done|]. intros [= <-].
  destruct (find_ref_column_Some _ _ Hf). done.
Qed.

Lemma column_map_of_positive sh name c :
  column_map_of sh !! name = Some c → ∃ c', c = S c'.
Proof.
  intros (Hc & _)%column_map_of_spec. destruct c; [lia|]. eauto.
Qed.

Lemma append_own_step_silent R acc entry :
  script (append_own_step rk2r R acc entry) = [].
Proof.
  destruct acc as [m t], entry as [k r]. unfold append_own_step.
  rewrite script_bind. destruct (rk2r !! R) as [d|]; simpl; [|done].
  by destruct (dict_mem k d).
Qed.

Lemma file_row_mapping_silent fi cols :
  script (file_row_mapping_of files (column_map_of <$> files) refmap
            rk rk2r fi cols) = [].
Proof.
  unfold file_row_mapping_of.
  destruct (driving_ref cols refmap) as [R|].
  - rewrite script_bind. destruct (refmap !! R); simpl; [|done].
    rewrite script_bind. destruct (rk !! R); simpl; [|done].
    rewrite script_bind.
    destruct ((column_map_of <$> files) !! fi) as [cm|]; simpl; [|done].
    destruct (cm !! R) as [[|c]|].
    + rewrite script_bind.
      by destruct ((max_row <$> files) !! fi).
    + rewrite script_bind. destruct (files !! fi); simpl; [|done].
      apply foldM_silent. intros. apply append_own_step_silent.
    + rewrite script_bind.
      by destruct ((max_row <$> files) !! fi).
  - rewrite script_bind. by destruct ((max_row <$> files) !! fi).
Qed.

Lemma file_row_mapping_ref fi cols R sh c keys refd :
  driving_ref cols refmap = Some R →
  files !! fi = Some sh →
  column_map_of sh !! R = Some c →
  rk !! R = Some keys →
  rk2r !! R = Some refd →
  result (file_row_mapping_of files (column_map_of <$> files) refmap
            rk rk2r fi cols) =
  Ok (foldl (own_key_step refd) (map_ref_keys (scan_keys sh c).2 keys)
            (scan_keys sh c).2).
Proof.
  intros Hdrv Hfi Hc Hkeys Hrefd. unfold file_row_mapping_of.
  rewrite Hdrv.
  destruct (driving_ref_Some _ _ Hdrv) as ([rf Hrf] & _).
  destruct (column_map_of_positive _ _ _ Hc) as [c' ->].
  rewrite result_bind, Hrf. simpl.
  rewrite result_bind, Hkeys. simpl.
  rewrite result_bind, list_lookup_fmap, Hfi. simpl. rewrite Hc.
  unfold M_bind. cbn [result script].
  by destruct (append_own_keys_pure refd rk2r R (scan_keys sh (S c')).2
                 (map_ref_keys (scan_keys sh (S c')).2 keys) Hrefd)
    as [_ ->].
Qed.

Lemma StronglySorted_lt_NoDup (l : list nat) :
  StronglySorted lt l → NoDup l.
Proof.
  induction 1 as [|x l _ IH Hx]; constructor; [|done].
  intros Hin. rewrite Forall_forall in Hx. specialize (Hx _ Hin). lia.
Qed.

Lemma StronglySorted_filter_rows (P : value * nat → Prop)
    `{∀ x, Decision (P x)} (d : dict value nat) :
  StronglySorted lt d.*2 → StronglySorted lt (filter P d).*2.
Proof.
  induction d as [|[k r] d IH]; simpl; [done|].
  intros [Hall Hs]%StronglySorted_cons. rewrite filter_cons.
  assert (Hall' : Forall (lt r) (filter P d).*2).
  { rewrite Forall_forall in *. intros x Hx. apply Hall.
    apply list_elem_of_fmap in Hx as (y & -> & Hy).
    apply list_elem_of_filter in Hy as [_ Hy].
    apply list_elem_of_fmap. eauto. }
  destruct (decide (P (k, r))); [|by apply IH].
  rewrite fmap_cons. apply StronglySorted_cons. split; [done|by apply IH].
Qed.

Lemma scan_keys_inj sh c k1 k2 r :
  dict_get k1 (scan_keys sh c).2 = Some r →
  dict_get k2 (scan_keys sh c).2 = Some r → k1 = k2.
Proof.
  intros (_ & H1 & _)%scan_keys_first_row (_ & H2 & _)%scan_keys_first_row.
  congruence.
Qed.

End file_row_mapping_facts.

(** The row mapping of a reference-driven file, in terms of the scans. *)
Lemma row_mapping_core files refmap rk rk2r fi cols R sh c keys :
  result (build_reference files (column_map_of <$> files) refmap)
    = Ok (rk, rk2r) →
  driving_ref cols refmap = Some R →
  files !! fi = Some sh →
  column_map_of sh !! R = Some c →
  rk !! R = Some keys →
  ∃ rf shr cr refd m t,
    (refmap !! R = Some rf ∧ files !! rf = Some shr ∧
     column_map_of shr !! R = Some cr ∧
     scan_keys shr cr = (keys, refd)) ∧
    result (file_row_mapping_of files (column_map_of <$> files) refmap
              rk rk2r fi cols) = Ok (m, t) ∧
    let fk := (scan_keys sh c).2 in
    let own := own_keys refd fk in
    t = (2 + length keys + length own)%nat ∧
    (∀ i k r, keys !! i = Some k → dict_get k fk = Some r →
              dict_get r m = Some (2 + i)%nat) ∧
    (∀ j k r, own !! j = Some (k, r) →
              dict_get r m = Some (2 + length keys + j)%nat) ∧
    (∀ r t', dict_get r m = Some t' →
       ∃ k, dict_get k fk = Some r ∧
            ((∃ i, keys !! i = Some k ∧ t' = (2 + i)%nat) ∨
             (∃ j, own !! j = Some (k, r) ∧
                   t' = (2 + length keys + j)%nat))) ∧
    (∀ k r, (k, r) ∈ own ↔ dict_get k fk = Some r ∧ k ∉ keys).
Proof.
  intros Hbuild Hdrv Hfi Hc Hkeys.
  destruct (build_reference_ok _ _ _ Hbuild R keys Hkeys)
    as (rf & shr & cr & Hrf & Hshr & Hcr & Hk & Hrefd).
  cbn [fst snd] in *.
  set (refd := (scan_keys shr cr).2) in *.
  set (fk := (scan_keys sh c).2).
  assert (Hkr : keys = refd.*1) by (rewrite Hk; apply scan_keys_fst).
  assert (Hnd : NoDup keys) by (rewrite Hk; apply scan_keys_NoDup).
  assert (Hfk1 : NoDup fk.*1).
  { unfold fk. rewrite <- scan_keys_fst. apply scan_keys_NoDup. }
  assert (Hfk2 : NoDup fk.*2).
  { apply StronglySorted_lt_NoDup, scan_keys_sorted. }
  pose proof (ref_mapping_spec fk refd keys Hkr Hnd Hfk1 Hfk2
                (scan_keys_inj sh c)) as (Ht & Ha & Hb & Hconv).
  pose proof (file_row_mapping_ref files refmap rk rk2r fi cols R sh c keys
                refd Hdrv Hfi Hc Hkeys Hrefd) as Hres.
  fold fk in Hres.
  destruct (foldl (own_key_step refd) (map_ref_keys fk keys) fk) as [m t].
  cbn [fst snd] in *.
  exists rf, shr, cr, refd, m, t. split_and!; try done.
  - rewrite Hk. unfold refd. by destruct (scan_keys shr cr).
  - intros k r. apply (own_keys_elem fk refd keys Hkr Hfk1).
Qed.

(** C3, as the code has it. Take a file whose first selected column named
    in the reference map is [R], with [R] not the empty text, and which has
    a column [R] of its own. [keys] being the canonical key sequence of [R]
    (the distinct values of the reference file's column, in first-occurrence
    order), the row mapping sends the first row of the [i]-th canonical key,
    when the file has that key, to target row [2 + i] (the counter runs over
    every canonical key); the keys of the file that are not canonical follow
    in the row order of the file, from target row [2 + length keys] on;
    nothing else is mapped. *)
Theorem row_mapping_construction files refmap rk rk2r fi cols R sh c keys :
  result (build_reference files (column_map_of <$> files) refmap)
    = Ok (rk, rk2r) →
  find_ref_column cols refmap = Some R →
  R ≠ EmptyString →
  files !! fi = Some sh →
  column_map_of sh !! R = Some c →
  rk !! R = Some keys →
  ∃ rf shr cr refd m t,
    (refmap !! R = Some rf ∧ files !! rf = Some shr ∧
     column_map_of shr !! R = Some cr ∧
     scan_keys shr cr = (keys, refd) ∧ NoDup keys ∧
     (∀ k r, dict_get k refd = Some r ↔ first_row shr cr k r)) ∧
    result (file_row_mapping_of files (column_map_of <$> files) refmap
              rk rk2r fi cols) = Ok (m, t) ∧
    let own := own_keys refd (scan_keys sh c).2 in
    (∀ i k r, keys !! i = Some k → first_row sh c k r →
              dict_get r m = Some (2 + i)%nat) ∧
    (∀ k r, (k, r) ∈ own ↔ first_row sh c k r ∧ k ∉ keys) ∧
    StronglySorted lt own.*2 ∧
    (∀ j k r, own !! j = Some (k, r) →
              dict_get r m = Some (2 + length keys + j)%nat) ∧
    (∀ r t', dict_get r m = Some t' →
       ∃ k, first_row sh c k r ∧
            ((∃ i, keys !! i = Some k ∧ t' = (2 + i)%nat) ∨
             (∃ j, own !! j = Some (k, r) ∧
                   t' = (2 + length keys + j)%nat))) ∧
    t = (2 + length keys + length own)%nat.
Proof.
  intros Hbuild Hfind HR Hfi Hc Hkeys.
  assert (Hdrv : driving_ref cols refmap = Some R).
  { unfold driving_ref. rewrite Hfind. by rewrite decide_False. }
  destruct (row_mapping_core _ _ _ _ _ _ _ _ _ _ Hbuild Hdrv Hfi Hc Hkeys)
    as (rf & shr & cr & refd & m & t & (Hrf & Hshr & Hcr & Hscan) & Hres
        & Ht & Ha & Hb & Hconv & Hown).
  exists rf, shr, cr, refd, m, t.
  assert (Hrefd : refd = (scan_keys shr cr).2) by by rewrite Hscan.
  assert (Hk : keys = (scan_keys shr cr).1) by by rewrite Hscan.
  split; [|split]; [|done|].
  - split_and!; try done.
    + rewrite Hk. apply scan_keys_NoDup.
    + intros k r. rewrite Hrefd. apply scan_keys_first_row.
  - cbv zeta. split_and!.
    + intros i k r Hi Hr. apply (Ha i k r Hi).
      by apply scan_keys_first_row.
    + intros k r. rewrite Hown. by rewrite scan_keys_first_row.
    + apply StronglySorted_filter_rows, scan_keys_sorted.
    + done.
    + intros r t' Hr. destruct (Hconv r t' Hr) as (k & Hk' & Hcase).
      exists k. split; [|done]. by apply scan_keys_first_row.
    + done.
Qed.

Lemma row_mapping_construction_witness :
  ∃ rf shr cr refd m t,
    (({["ID" := 0%nat]} : gmap string nat) !! "ID" = Some rf ∧
     [file_A; file_B] !! rf = Some shr ∧
     column_map_of shr !! "ID" = Some cr ∧
     scan_keys shr cr = ([VInt 1; VInt 2; VInt 3], refd) ∧
     NoDup [VInt 1; VInt 2; VInt 3] ∧
     (∀ k r, dict_get k refd = Some r ↔ first_row shr cr k r)) ∧
    result (file_row_mapping_of [file_A; file_B]
              (column_map_of <$> [file_A; file_B]) {["ID" := 0%nat]}
              {["ID" := [VInt 1; VInt 2; VInt 3]]}
              {["ID" := [(VInt 1, 2); (VInt 2, 3); (VInt 3, 4)]%nat]}
              1 [(1, "ID"); (1, "Score")]%nat) = Ok (m, t) ∧
    let own := own_keys refd (scan_keys file_B 1).2 in
    (∀ i k r, [VInt 1; VInt 2; VInt 3] !! i = Some k →
              first_row file_B 1 k r → dict_get r m = Some (2 + i)%nat) ∧
    (∀ k r, (k, r) ∈ own ↔
            first_row file_B 1 k r ∧ k ∉ [VInt 1; VInt 2; VInt 3]) ∧
    StronglySorted lt own.*2 ∧
    (∀ j k r, own !! j = Some (k, r) →
              dict_get r m = Some (2 + length [VInt 1; VInt 2; VInt 3] + j)%nat) ∧
    (∀ r t', dict_get r m = Some t' →
       ∃ k, first_row file_B 1 k r ∧
            ((∃ i, [VInt 1; VInt 2; VInt 3] !! i = Some k ∧ t' = (2 + i)%nat) ∨
             (∃ j, own !! j = Some (k, r) ∧
                   t' = (2 + length [VInt 1; VInt 2; VInt 3] + j)%nat))) ∧
    t = (2 + length [VInt 1; VInt 2; VInt 3] + length own)%nat.
Proof.
  apply (row_mapping_construction [file_A; file_B] {["ID" := 0%nat]}
           {["ID" := [VInt 1; VInt 2; VInt 3]]}
           {["ID" := [(VInt 1, 2); (VInt 2, 3); (VInt 3, 4)]%nat]}
           1 [(1, "ID"); (1, "Score")]%nat "ID" file_B 1
           [VInt 1; VInt 2; VInt 3]).
  - vm_compute. reflexivity.
  - vm_compute. reflexivity.
  - done.
  - reflexivity.
  - vm_compute. reflexivity.
  - vm_compute. reflexivity.
Defined.

(** C3, as stated, fails: the reference column is the column whose header
    holds the empty text. File 1 selects it, the reference map names it and
    the file has it; the canonical keys are 1 and 2, and the file has key 1
    first in row 3. The walk would send row 3 to target row 2; but the test
    [has_ref_column and ref_column_name] fails on the empty name, the rows
    are mapped one to one, and row 3 goes to target row 3. *)
Lemma row_mapping_direct_for_empty_name :
  let files := [file_E; file_F] in
  let refmap : gmap string nat := {[EmptyString := 0%nat]} in
  let cols := [(1, EmptyString); (1, "V")]%nat in
  let rk : gmap string (list value) :=
    {[EmptyString := [VInt 1; VInt 2]]} in
  let rk2r : gmap string (dict value nat) :=
    {[EmptyString := [(VInt 1, 2); (VInt 2, 3)]%nat]} in
  result (build_reference files (column_map_of <$> files) refmap)
    = Ok (rk, rk2r) ∧
  find_ref_column cols refmap = Some EmptyString ∧
  column_map_of file_F !! EmptyString = Some 1%nat ∧
  [VInt 1; VInt 2] !! 0%nat = Some (VInt 1) ∧
  dict_get (VInt 1) (scan_keys file_F 1).2 = Some 3%nat ∧
  result (file_row_mapping_of files (column_map_of <$> files) refmap
            rk rk2r 1 cols) = Ok ([(2, 2); (3, 3)]%nat, 4%nat) ∧
  dict_get 3%nat [(2, 2); (3, 3)]%nat = Some 3%nat ∧
  (3 ≠ 2 + 0)%nat.
Proof. vm_compute. repeat split; done. Qed.

(** ** Checkpoints *)

Section checkpoint_facts.

Lemma guarded_guarded_le s : guarded s → guarded_le s.
Proof. intros H i Hi. by rewrite H. Qed.

Lemma guarded_le_nil : guarded_le [].
Proof. intros i Hi. simpl. lia. Qed.

Lemma guarded_le_app s1 s2 :
  guarded_le s1 → guarded_le s2 → guarded_le (s1 ++ s2).
Proof.
  intros H1 H2 i Hi. rewrite polls_of_app in Hi.
  destruct (decide (i < polls_of s1)%nat) as [Hlt|Hge].
  - rewrite before_poll_app_l by done. apply H1. lia.
  - rewrite before_poll_app_r, script_writes_app, length_app by lia.
    specialize (H2 (i - polls_of s1)%nat).
    specialize (H1 (polls_of s1)).
    rewrite before_poll_all in H1 by done. lia.
Qed.

Lemma guarded_le_poll s : guarded_le s → guarded_le (APoll :: s).
Proof.
  intros H [|i] Hi; simpl in *; [lia|].
  specialize (H i). unfold script_writes in *. simpl. lia.
Qed.

Lemma foldM_guarded_le {S A} (f : S → A → M S) l s :
  (∀ s x, x ∈ l → guarded_le (script (f s x))) →
  guarded_le (script (foldM f l s)).
Proof.
  revert s. induction l as [|x l IH]; intros s H; simpl.
  - apply guarded_le_nil.
  - rewrite script_bind. apply guarded_le_app; [apply H; left|].
    destruct (result (f s x)); [|apply guarded_le_nil].
    apply IH. intros s' y Hy. apply H. by right.
Qed.

Lemma foldM_Forall {S A} (P : action → Prop) (f : S → A → M S) l s :
  (∀ s x, x ∈ l → Forall P (script (f s x))) →
  Forall P (script (foldM f l s)).
Proof.
  intros H. apply Forall_forall. intros a Ha.
  apply foldM_script_elem in Ha as (s' & x & Hx & Ha).
  specialize (H s' x Hx). rewrite Forall_forall in H. by apply H.
Qed.

Lemma first_set_Some tok p n j :
  first_set tok p n = Some j ↔
  (p ≤ j < p + n)%nat ∧ tok j = true ∧
  ∀ j', (p ≤ j' < j)%nat → tok j' = false.
Proof.
  revert p. induction n as [|n IH]; intros p; simpl.
  - split; [done|]. lia.
  - destruct (tok p) eqn:Hp.
    + split.
      * intros [= <-]. split_and!; [lia..|done|lia].
      * intros (Hj & Htj & Hlt). f_equal.
        destruct (decide (p = j)) as [|Hne]; [done|].
        rewrite Hlt in Hp by lia. done.
    + rewrite IH. split.
      * intros (Hj & Htj & Hlt). split_and!; [lia..|done|].
        intros j' Hj'. destruct (decide (j' = p)) as [->|]; [done|].
        apply Hlt. lia.
      * intros (Hj & Htj & Hlt).
        assert (p ≠ j) by congruence.
        split_and!; [lia..|done|]. intros j' Hj'. apply Hlt. lia.
Qed.

Lemma first_set_None tok p n :
  first_set tok p n = None ↔ ∀ i, (p ≤ i < p + n)%nat → tok i = false.
Proof.
  revert p. induction n as [|n IH]; intros p; simpl.
  - split; [lia|done].
  - destruct (tok p) eqn:Hp.
    + split; [done|]. intros H. rewrite H in Hp by lia. done.
    + rewrite IH. split.
      * intros H i Hi. destruct (decide (i = p)) as [->|]; [done|].
        apply H. lia.
      * intros H i Hi. apply H. lia.
Qed.

Lemma quiet_no_save s : Forall quiet s → ESave ∉ events_of s.
Proof.
  induction 1 as [|[|e] s Hq _ IH]; simpl.
  - by intros ?%elem_of_nil.
  - done.
  - intros [<-|Hin]%elem_of_cons; [done|]. by apply IH.
Qed.

Lemma quiet_no_close s i : Forall quiet s → EClose i ∉ events_of s.
Proof.
  induction 1 as [|[|e] s Hq _ IH]; simpl.
  - by intros ?%elem_of_nil.
  - done.
  - intros [<-|Hin]%elem_of_cons; [done|]. by apply IH.
Qed.

Lemma Forall_quiet_prefix s1 s2 :
  s1 `prefix_of` s2 → Forall quiet s2 → Forall quiet s1.
Proof. intros [k ->] H. by apply Forall_app in H as [? _]. Qed.

End checkpoint_facts.

(** ** Step 3: the selection grouped by file *)

Section group_facts.

Lemma group_by_file_snoc sel f n :
  group_by_file (sel ++ [(f, n)]) =
  dict_set f (default [] (dict_get f (group_by_file sel)) ++ [(f, n)])
           (group_by_file sel).
Proof. unfold group_by_file. by rewrite foldl_app. Qed.

(** [columns_by_file[fi]] is the selection restricted to file [fi]. *)
Lemma group_by_file_get sel fi :
  dict_get fi (group_by_file sel) =
  match filter (λ c, c.1 = fi) sel with
  | [] => None
  | cols => Some cols
  end.
Proof.
  induction sel as [|[f n] sel IH] using rev_ind; [done|].
  rewrite group_by_file_snoc, dict_get_set, filter_app, filter_cons.
  simpl. destruct (decide (fi = f)) as [->|Hne].
  - rewrite decide_True by done. rewrite IH.
    by destruct (filter (λ c, c.1 = f) sel).
  - rewrite decide_False by done. rewrite filter_nil, app_nil_r. apply IH.
Qed.

Lemma group_by_file_keys sel fi :
  fi ∈ (group_by_file sel).*1 ↔ ∃ name, (fi, name) ∈ sel.
Proof.
  split.
  - intros Hin. destruct (dict_get fi (group_by_file sel)) as [cols|] eqn:E.
    + rewrite group_by_file_get in E.
      destruct (filter (λ c, c.1 = fi) sel) as [|[f n] l] eqn:Hf; [done|].
      assert (Hx : (f, n) ∈ filter (λ c, c.1 = fi) sel)
        by (rewrite Hf; left).
      apply list_elem_of_filter in Hx as [Heq Hx]. simpl in Heq. subst f.
      eauto.
    + by apply dict_get_None_keys in E.
  - intros [name Hin].
    destruct (dict_get fi (group_by_file sel)) as [cols|] eqn:E.
    + apply dict_get_Some_elem in E. apply list_elem_of_fmap.
      by exists (fi, cols).
    + rewrite group_by_file_get in E.
      assert (Hx : (fi, name) ∈ filter (λ c, c.1 = fi) sel)
        by by apply list_elem_of_filter.
      destruct (filter (λ c, c.1 = fi) sel); [|done].
      by apply elem_of_nil in Hx.
Qed.

Lemma dict_set_keys_NoDup {V} (d : dict nat V) k v :
  NoDup d.*1 → NoDup (dict_set k v d).*1.
Proof.
  induction d as [|[k0 v0] d IH]; simpl.
  - intros _. apply NoDup_singleton.
  - intros [Hk0 Hnd]%NoDup_cons.
    destruct (decide (k = k0)) as [->|Hne]; simpl.
    + by apply NoDup_cons.
    + apply NoDup_cons. split; [|by apply IH].
      intros Hin. apply Hk0.
      apply dict_get_None_keys in Hk0 as Hnone.
      destruct (dict_get k0 (dict_set k v d)) eqn:E.
      * rewrite dict_get_set, decide_False in E by done. congruence.
      * by apply dict_get_None_keys in E.
Qed.

Lemma group_by_file_NoDup sel : NoDup (group_by_file sel).*1.
Proof.
  induction sel as [|[f n] sel IH] using rev_ind; [constructor|].
  rewrite group_by_file_snoc. by apply dict_set_keys_NoDup.
Qed.

Lemma group_by_file_elem sel fi cols :
  (fi, cols) ∈ group_by_file sel → cols = filter (λ c, c.1 = fi) sel.
Proof.
  intros Hin. apply dict_get_NoDup in Hin; [|apply group_by_file_NoDup].
  rewrite group_by_file_get in Hin.
  destruct (filter (λ c, c.1 = fi) sel); [done|]. by injection Hin.
Qed.

End group_facts.

(** ** Step 5: emission *)

Section emit_facts.
Context (files : list sheet) (rm : gmap nat (dict nat nat)).
Context (total_cols : nat).

Lemma emit_row_script fi sh c oc entry :
  ∃ tl, script (emit_row fi sh c oc entry) =
          APoll :: AEvent (EWrite (copied fi sh entry.1 c entry.2 oc)) :: tl ∧
        polls_of tl = 0%nat ∧ script_writes tl = [] ∧ Forall quiet tl ∧
        result (emit_row fi sh c oc entry) = Ok tt.
Proof. destruct entry as [sr tr]. exists []. by repeat split. Qed.

Lemma emit_rows_script fi sh c oc (m : dict nat nat) :
  let e := forM m (emit_row fi sh c oc) in
  result e = Ok tt ∧
  script_writes (script e) = (λ en, copied fi sh en.1 c en.2 oc) <$> m ∧
  polls_of (script e) = length m ∧
  guarded (script e) ∧ Forall quiet (script e).
Proof. apply forM_blocks, emit_row_script. Qed.

Local Abbreviation resolves := (resolves files rm).

Lemma emit_column_cases fi oc pc col :
  let e := emit_column files (column_map_of <$> files) rm total_cols
                       fi (oc, pc) col in
  (∃ sh c m, resolves fi col.2 sh c m ∧
     script e =
       [APoll; AEvent (EWrite (copied fi sh 1 c 1 oc))]
       ++ script (forM m (emit_row fi sh c oc))
       ++ [AEvent (EProgress {| current := Z.of_nat (S pc);
                                total := Z.of_nat total_cols |})] ∧
     result e = Ok (S oc, S pc)) ∨
  (script e = [APoll] ∧
   (∀ sh c m, ¬ resolves fi col.2 sh c m)).
Proof.
  intros e. subst e. unfold emit_column, resolves.
  rewrite script_bind, result_bind. cbn [raise_if_cancelled result script].
  rewrite script_bind, result_bind, list_lookup_fmap.
  destruct (files !! fi) as [sh|] eqn:Hfi; simpl.
  2:{ right. split; [done|]. by intros sh c m (? & _). }
  destruct (column_map_of sh !! col.2) as [[|c]|] eqn:Hc.
  - apply column_map_of_positive in Hc as [c' [=]].
  - destruct (rm !! fi) as [m|] eqn:Hm; simpl.
    + left. exists sh, (S c), m. split; [done|].
      destruct (emit_rows_script fi sh (S c) oc m) as (Hr & _).
      cbn zeta in Hr. unfold M_bind, mbind. simpl.
      unfold M_bind. rewrite Hr. simpl. done.
    + right. split; [done|]. intros sh' c' m' (_ & _ & ?). done.
  - right. split; [done|]. intros sh' c' m' (? & ? & _). simplify_eq.
Qed.

Lemma emit_column_quiet fi st col :
  Forall quiet (script (emit_column files (column_map_of <$> files) rm
                          total_cols fi st col)).
Proof.
  destruct st as [oc pc].
  destruct (emit_column_cases fi oc pc col)
    as [(sh & c & m & _ & -> & _)|[-> _]].
  - destruct (emit_rows_script fi sh c oc m) as (_ & _ & _ & _ & Hq).
    apply Forall_app. split; [by repeat constructor|].
    apply Forall_app. split; [done|by repeat constructor].
  - by repeat constructor.
Qed.

Lemma emit_column_guarded_le fi st col :
  guarded_le (script (emit_column files (column_map_of <$> files) rm
                        total_cols fi st col)).
Proof.
  destruct st as [oc pc].
  destruct (emit_column_cases fi oc pc col)
    as [(sh & c & m & _ & -> & _)|[-> _]].
  - destruct (emit_rows_script fi sh c oc m) as (_ & _ & _ & Hg & _).
    apply guarded_le_app.
    + apply guarded_guarded_le. by apply guarded_poll_write.
    + apply guarded_le_app; [by apply guarded_guarded_le|].
      apply guarded_guarded_le. by apply guarded_silent.
  - apply guarded_le_poll, guarded_le_nil.
Qed.

(** Every assignment of a column of file [fi] reads the header row or a
    row of the file's row mapping. *)
Lemma emit_column_writes fi st col w :
  AEvent (EWrite w)
    ∈ script (emit_column files (column_map_of <$> files) rm
                total_cols fi st col) →
  src_file w = fi ∧
  (src_row w = 1%nat ∨
   ∃ m, rm !! fi = Some m ∧ (src_row w, dst_row w) ∈ m).
Proof.
  destruct st as [oc pc].
  destruct (emit_column_cases fi oc pc col)
    as [(sh & c & m & (Hfi & Hc & Hm) & -> & _)|[-> _]].
  - rewrite !elem_of_app. intros [Hin|[Hin|Hin]].
    + apply elem_of_cons in Hin as [[=]|Hin].
      apply list_elem_of_singleton in Hin as [= ->]. split; [done|by left].
    + apply forM_script_elem in Hin as ([sr tr] & Hen & Hin).
      simpl in Hin. apply elem_of_cons in Hin as [[=]|Hin].
      apply list_elem_of_singleton in Hin as [= ->].
      split; [done|]. right. eauto.
    + by apply list_elem_of_singleton in Hin as [=].
  - intros Hin. by apply list_elem_of_singleton in Hin as [=].
Qed.

Context (cbf : dict nat (list (nat * string))).

Lemma emit_file_script_elem st fi a :
  a ∈ script (emit_file files (column_map_of <$> files) rm total_cols
                cbf st fi) →
  ∃ st' col, a ∈ script (emit_column files (column_map_of <$> files) rm
                           total_cols fi st' col).
Proof.
  unfold emit_file. rewrite script_bind.
  destruct (dict_get fi cbf) as [cols|]; simpl; [|by intros ?%elem_of_nil].
  intros (st' & col & _ & Ha)%foldM_script_elem. eauto.
Qed.

Lemma emit_quiet :
  Forall quiet (script (emit files (column_map_of <$> files) rm total_cols
                          cbf)).
Proof.
  apply Forall_forall. intros a Ha. unfold emit in Ha.
  apply foldM_script_elem in Ha as (st & fi & _ & Ha).
  apply emit_file_script_elem in Ha as (st' & col & Ha).
  pose proof (emit_column_quiet fi st' col) as Hq.
  rewrite Forall_forall in Hq. by apply Hq.
Qed.

Lemma emit_guarded_le :
  guarded_le (script (emit files (column_map_of <$> files) rm total_cols
                        cbf)).
Proof.
  unfold emit. apply foldM_guarded_le. intros st fi _.
  unfold emit_file. rewrite script_bind.
  destruct (dict_get fi cbf) as [cols|]; simpl; [|apply guarded_le_nil].
  apply foldM_guarded_le. intros. apply emit_column_guarded_le.
Qed.

Lemma emit_writes w :
  AEvent (EWrite w)
    ∈ script (emit files (column_map_of <$> files) rm total_cols cbf) →
  src_row w = 1%nat ∨
  ∃ m, rm !! src_file w = Some m ∧ (src_row w, dst_row w) ∈ m.
Proof.
  unfold emit. intros (st & fi & _ & Ha)%foldM_script_elem.
  apply emit_file_script_elem in Ha as (st' & col & Ha).
  apply emit_column_writes in Ha as [<- H]. done.
Qed.

(** When emission succeeds, every selected column that resolves has its
    header and every entry of the row mapping of its file assigned, all
    in one output column. *)
Lemma emit_ok_writes st_end fi name sh c m :
  result (emit files (column_map_of <$> files) rm total_cols cbf)
    = Ok st_end →
  (∃ cols, dict_get fi cbf = Some cols ∧ (fi, name) ∈ cols) →
  resolves fi name sh c m →
  ∃ oc, ∀ sr tr, (sr, tr) ∈ m →
    AEvent (EWrite (copied fi sh sr c tr oc))
      ∈ script (emit files (column_map_of <$> files) rm total_cols cbf).
Proof.
  intros Hok (cols & Hcols & Hin) Hres. unfold emit in *.
  assert (Hfi : fi ∈ merge_sort (≤)%nat cbf.*1).
  { rewrite merge_sort_Permutation.
    apply dict_get_Some_elem in Hcols.
    apply list_elem_of_fmap. by exists (fi, cols). }
  destruct (foldM_ok_elem _ _ _ _ fi Hok Hfi) as (s1 & s2 & Hr1 & Hsub).
  unfold emit_file in Hr1, Hsub.
  rewrite result_bind, Hcols in Hr1. simpl in Hr1.
  destruct (foldM_ok_elem _ _ _ _ (fi, name) Hr1 Hin)
    as ([oc pc] & s4 & Hr2 & Hsub2).
  exists oc. intros sr tr Hen. apply Hsub.
  rewrite script_bind, Hcols. simpl. apply Hsub2.
  destruct (emit_column_cases fi oc pc (fi, name))
    as [(sh' & c' & m' & (Hfi' & Hc' & Hm') & -> & _)|[_ Hno]].
  - destruct Hres as (Hfi0 & Hc0 & Hm0). cbn [snd] in *. simplify_eq.
    rewrite !elem_of_app. right. left.
    destruct (emit_rows_script fi sh c oc m) as (_ & Hw & _).
    cbn zeta in Hw.
    assert (Hx : copied fi sh sr c tr oc
                   ∈ script_writes (script (forM m (emit_row fi sh c oc)))).
    { rewrite Hw. apply list_elem_of_fmap. by exists (sr, tr). }
    unfold script_writes, writes_of, events_of in Hx.
    apply list_elem_of_omap in Hx as (e & He & Hx).
    destruct e; try done. simplify_eq.
    apply list_elem_of_omap in He as (a & Ha & He).
    destruct a; by simplify_eq.
  - exfalso. by apply (Hno sh c m).
Qed.

End emit_facts.

(** ** The shape of a merge *)

Section merge_facts.
Context (files : list sheet) (sel : list (nat * string)).
Context (refmap : gmap string nat).

Lemma forM_singletons {A} (l : list A) (e : A → event) :
  script (forM l (λ x, perform (e x))) = (λ x, AEvent (e x)) <$> l ∧
  result (forM l (λ x, perform (e x))) = Ok tt.
Proof.
  destruct (forM_script l (λ x, perform (e x))) as [-> ->]; [done|].
  split; [|done]. induction l; simpl; [done|]. by f_equal.
Qed.

Lemma row_mapping_step_silent rk rk2r acc entry :
  script (row_mapping_step files (column_map_of <$> files) refmap rk rk2r
            acc entry) = [].
Proof.
  destruct acc as [rm frc], entry as [fi cols]. unfold row_mapping_step.
  rewrite script_bind, file_row_mapping_silent.
  destruct (result _) as [[m t]|]; done.
Qed.

Lemma build_row_mapping_silent rk rk2r cbf :
  script (build_row_mapping files (column_map_of <$> files) refmap rk rk2r
            cbf) = [].
Proof. apply foldM_silent. intros. apply row_mapping_step_silent. Qed.

Lemma build_row_mapping_ok rk rk2r rm frc :
  result (build_row_mapping files (column_map_of <$> files) refmap rk rk2r
            (group_by_file sel)) = Ok (rm, frc) →
  row_mapping_ok files refmap rk rk2r sel rm.
Proof.
  intros H.
  apply (foldM_invariant _
           (λ acc, row_mapping_ok files refmap rk rk2r sel acc.1)) in H;
    [done| |].
  - intros fi m. simpl. by rewrite lookup_empty.
  - intros [rm0 frc0] [fi0 cols0] acc' Hin HI. unfold row_mapping_step.
    rewrite result_bind.
    destruct (result (file_row_mapping_of _ _ _ _ _ fi0 cols0))
      as [[m0 t0]|] eqn:Hr; [|done].
    simpl. intros [= <-]. intros fi m. simpl.
    destruct (decide (fi0 = fi)) as [<-|Hne].
    + rewrite lookup_insert_eq. intros [= <-]. exists t0.
      by rewrite <- (group_by_file_elem _ _ _ Hin).
    + rewrite lookup_insert_ne by done. apply HI.
Qed.

Lemma merge_cases :
  (∃ e, result (build_reference files (column_map_of <$> files) refmap)
          = Raise e ∧
        script (merge_multiple_files files sel refmap)
          = opens (length files) ∧
        result (merge_multiple_files files sel refmap) = Raise e) ∨
  (∃ rk rk2r e,
      result (build_reference files (column_map_of <$> files) refmap)
        = Ok (rk, rk2r) ∧
      result (build_row_mapping files (column_map_of <$> files) refmap
                rk rk2r (group_by_file sel)) = Raise e ∧
      script (merge_multiple_files files sel refmap)
        = opens (length files) ∧
      result (merge_multiple_files files sel refmap) = Raise e) ∨
  (∃ rk rk2r rm frc,
      result (build_reference files (column_map_of <$> files) refmap)
        = Ok (rk, rk2r) ∧
      result (build_row_mapping files (column_map_of <$> files) refmap
                rk rk2r (group_by_file sel)) = Ok (rm, frc) ∧
      let em := emit files (column_map_of <$> files) rm (length sel)
                     (group_by_file sel) in
      script (merge_multiple_files files sel refmap) =
        opens (length files) ++ script em ++
        match result em with
        | Ok _ => closes_and_save (length files)
        | Raise _ => []
        end ∧
      result (merge_multiple_files files sel refmap) =
        match result em with Ok _ => Ok tt | Raise e => Raise e end).
Proof.
  unfold merge_multiple_files.
  destruct (forM_singletons (seq 0 (length files)) EOpen) as [Ho Hor].
  change (forM _ load_workbook) with
    (forM (seq 0 (length files)) (λ x, perform (EOpen x))).
  rewrite !script_bind, !result_bind, Ho, Hor.
  rewrite build_reference_silent.
  destruct (result (build_reference _ _ _)) as [[rk rk2r]|e] eqn:Href.
  2:{ left. exists e. by rewrite app_nil_r. }
  cbv beta iota zeta.
  rewrite !script_bind, !result_bind, build_row_mapping_silent.
  destruct (result (build_row_mapping _ _ _ _ _ _)) as [[rm frc]|e] eqn:Hrm.
  2:{ right. left. exists rk, rk2r, e. by rewrite app_nil_r. }
  right. right. exists rk, rk2r, rm, frc.
  split; [done|]. split; [done|]. cbv beta iota zeta.
  rewrite !script_bind, !result_bind.
  destruct (result (emit _ _ _ _ _)) as [st|e] eqn:Hem.
  - destruct (forM_singletons (seq 0 (length files)) EClose) as [Hc Hcr].
    change (forM _ close_workbook) with
      (forM (seq 0 (length files)) (λ x, perform (EClose x))).
    rewrite ?script_bind, ?result_bind, Hc, Hcr. simpl.
    split; reflexivity.
  - simpl. done.
Qed.

End merge_facts.

(** ** The shape of the two operations *)

Section shape_facts.

Lemma opens_polls n : polls_of (opens n) = 0%nat.
Proof. unfold opens. induction (seq 0 n); simpl; auto. Qed.

Lemma opens_events n : events_of (opens n) = EOpen <$> seq 0 n.
Proof. unfold opens. induction (seq 0 n); simpl; [done|]. by f_equal. Qed.

Lemma opens_writes n : script_writes (opens n) = [].
Proof.
  unfold script_writes. rewrite opens_events.
  induction (seq 0 n); simpl; auto.
Qed.

Lemma opens_quiet n : Forall quiet (opens n).
Proof. unfold opens. apply Forall_fmap, Forall_forall. by intros. Qed.

Lemma closes_polls n : polls_of (closes_and_save n) = 0%nat.
Proof.
  unfold closes_and_save. rewrite polls_of_app. simpl.
  induction (seq 0 n); simpl; auto.
Qed.

Lemma closes_events n :
  events_of (closes_and_save n) =
  (EClose <$> seq 0 n)
  ++ [EProgress {| current := 100; total := 100 |}; ESave].
Proof.
  unfold closes_and_save. rewrite events_of_app. f_equal.
  induction (seq 0 n); simpl; [done|]. by f_equal.
Qed.

Lemma before_poll_shape pre body post j :
  polls_of pre = 0%nat → polls_of post = 0%nat →
  (j < polls_of (pre ++ body ++ post))%nat →
  before_poll j (pre ++ body ++ post) = pre ++ before_poll j body ∧
  (j < polls_of body)%nat.
Proof.
  intros Hpre Hpost Hj. rewrite !polls_of_app, Hpre, Hpost in Hj.
  split; [|lia].
  rewrite before_poll_app_r by lia. rewrite Hpre, Nat.sub_0_r.
  by rewrite before_poll_app_l by lia.
Qed.


Lemma merge_shaped_early files sel refmap e :
  script (merge_multiple_files files sel refmap) = opens (length files) →
  result (merge_multiple_files files sel refmap) = Raise e →
  shaped (Merge files sel refmap) (opens (length files)) [] [].
Proof.
  intros Hs Hr. unfold shaped. simpl operate. rewrite Hs, Hr, !app_nil_r.
  split; [done|]. split; [apply opens_polls|].
  split; [apply opens_writes|]. split; [apply opens_quiet|].
  split; [constructor|]. split; [apply guarded_le_nil|].
  split; [intros _; apply guarded_nil|]. done.
Qed.

Lemma merge_shaped files sel refmap :
  ∃ body post,
    shaped (Merge files sel refmap) (opens (length files)) body post ∧
    (post = [] ∨ post = closes_and_save (length files)) ∧
    ∀ w, AEvent (EWrite w) ∈ body →
      ∃ rk rk2r rm frc,
        result (build_reference files (column_map_of <$> files) refmap)
          = Ok (rk, rk2r) ∧
        result (build_row_mapping files (column_map_of <$> files) refmap
                  rk rk2r (group_by_file sel)) = Ok (rm, frc) ∧
        (src_row w = 1%nat ∨
         ∃ m, rm !! src_file w = Some m ∧ (src_row w, dst_row w) ∈ m).
Proof.
  destruct (merge_cases files sel refmap)
    as [(e & _ & Hs & Hr)|[(rk & rk2r & e & _ & _ & Hs & Hr)|
        (rk & rk2r & rm & frc & Href & Hrm & Hs & Hr)]].
  - exists [], []. split; [by eapply merge_shaped_early|].
    split; [by left|]. by intros w ?%elem_of_nil.
  - exists [], []. split; [by eapply merge_shaped_early|].
    split; [by left|]. by intros w ?%elem_of_nil.
  - cbv zeta in Hs, Hr.
    set (em := emit files (column_map_of <$> files) rm (length sel)
                    (group_by_file sel)) in *.
    exists (script em),
      (match result em with
       | Ok _ => closes_and_save (length files)
       | Raise _ => []
       end).
    split; [|split].
    + unfold shaped. simpl operate. rewrite Hs, Hr.
      split; [done|]. split; [apply opens_polls|].
      split; [apply opens_writes|]. split; [apply opens_quiet|].
      split; [apply emit_quiet|]. split; [apply emit_guarded_le|].
      split; [done|].
      destruct (result em); [|done].
      split; [apply closes_polls|]. rewrite closes_events. set_solver.
    + destruct (result em); [by right|by left].
    + intros w Hw. exists rk, rk2r, rm, frc.
      split; [done|]. split; [done|]. by apply emit_writes in Hw.
Qed.


End shape_facts.

(** ** Cancellation *)



(** ** Source handles *)

(** C7, as the code has it. A merge that ends normally has opened every
    source, then worked, then closed every source, reported and saved, in
    this order. A merge that raises, by cancellation or by a failed lookup,
    has opened every source and closed none, and saved nothing. *)
Theorem merge_handles files sel refmap tok :
  let r := run tok (merge_multiple_files files sel refmap) in
  let n := length files in
  match run_outcome r with
  | Ok _ =>
      ∃ evs,
        run_events r =
          (EOpen <$> seq 0 n) ++ evs ++ (EClose <$> seq 0 n)
          ++ [EProgress {| current := 100; total := 100 |}; ESave] ∧
        (∀ i, EClose i ∉ evs) ∧ ESave ∉ evs
  | Raise e =>
      (∀ i, (i < n)%nat → EOpen i ∈ run_events r) ∧
      (∀ i, EClose i ∉ run_events r) ∧
      saved (run_events r) = false
  end.
Proof.
  intros r n. subst r n.
  destruct (merge_shaped files sel refmap)
    as (body & post & (Hs & Hpre & Hwpre & Hqpre & Hq & Hg & _ & Hpost & Hres)
        & Hcases & _).
  simpl operate in *.
  set (m := merge_multiple_files files sel refmap) in *.
  assert (Hopen : ∀ i, (i < length files)%nat →
                       EOpen i ∈ events_of (opens (length files))).
  { intros i Hi. rewrite opens_events. apply list_elem_of_fmap.
    exists i. split; [done|]. apply elem_of_seq. lia. }
  assert (Hraise : ∀ s, Forall quiet s →
    (∀ i, (i < length files)%nat →
          EOpen i ∈ events_of (opens (length files) ++ s)) ∧
    (∀ i, EClose i ∉ events_of (opens (length files) ++ s)) ∧
    saved (events_of (opens (length files) ++ s)) = false).
  { intros s Hqs. split_and!.
    - intros i Hi. rewrite events_of_app. apply elem_of_app. left. auto.
    - intros i. apply quiet_no_close. apply Forall_app. split; [|done].
      apply opens_quiet.
    - apply bool_decide_eq_false, quiet_no_save, Forall_app.
      split; [apply opens_quiet|done]. }
  destruct (first_set tok 0 (polls_of (script m))) as [j|] eqn:Hf.
  - apply first_set_Some in Hf as (Hj & Htj & Hlt).
    rewrite (run_cancelled_at tok m j); [|lia|done|].
    2:{ intros j' Hj'. apply Hlt. lia. }
    cbn [run_outcome run_events]. rewrite Hs in Hj |- *.
    destruct (before_poll_shape _ body post j Hpre Hpost) as [-> Hjb]; [lia|].
    apply Hraise.
    eapply Forall_quiet_prefix; [apply before_poll_prefix|done].
  - rewrite first_set_None in Hf.
    rewrite run_not_cancelled.
    2:{ intros i Hi. apply Hf. lia. }
    cbn [run_outcome run_events].
    destruct (result m) as [u|e] eqn:Hr.
    + destruct Hcases as [-> | ->]; [by apply elem_of_nil in Hres|].
      exists (events_of body). rewrite Hs, !events_of_app.
      rewrite opens_events, closes_events. split; [done|].
      split; [intros i; by apply quiet_no_close|by apply quiet_no_save].
    + subst post. rewrite Hs, app_nil_r. by apply Hraise.
Qed.

(** C7, as stated, fails: a cancelled merge leaves its source open. *)
Lemma merge_cancelled_leaves_handle_open :
  let r := run always (merge_multiple_files [file_A] [(0%nat, "ID")] ∅) in
  run_outcome r = Raise TaskCancelledException ∧
  run_events r = [EOpen 0] ∧
  EClose 0 ∉ run_events r.
Proof.
  vm_compute. split; [done|]. split; [done|].
  by intros [=]%list_elem_of_singleton.
Qed.

(** ** Alignment and dropped rows *)

Section alignment_facts.
Context (files : list sheet) (sel : list (nat * string)).
Context (refmap : gmap string nat).

Lemma events_of_elem s e : e ∈ events_of s ↔ AEvent e ∈ s.
Proof.
  unfold events_of. rewrite list_elem_of_omap. split.
  - intros ([|e'] & Hin & He); [done|]. by simplify_eq.
  - intros Hin. by exists (AEvent e).
Qed.

Lemma run_ok {A} tok (m : M A) a :
  run_outcome (run tok m) = Ok a →
  result m = Ok a ∧ run_events (run tok m) = events_of (script m).
Proof.
  unfold run.
  destruct (exec_cases tok (script m)) as [[_ ->]|(j & _ & _ & _ & ->)];
    simpl; [done|done].
Qed.

Lemma file_row_mapping_ref_inv rk rk2r fi cols R sh c mt :
  driving_ref cols refmap = Some R →
  files !! fi = Some sh →
  column_map_of sh !! R = Some c →
  result (file_row_mapping_of files (column_map_of <$> files) refmap
            rk rk2r fi cols) = Ok mt →
  is_Some (rk !! R).
Proof.
  intros Hdrv Hfi Hc. unfold file_row_mapping_of. rewrite Hdrv.
  destruct (driving_ref_Some _ _ _ Hdrv) as ([rf Hrf] & _).
  rewrite result_bind, Hrf. simpl. rewrite result_bind.
  destruct (rk !! R); [by eauto|done].
Qed.

Lemma build_row_mapping_dom rk rk2r l acc acc' :
  result (foldM (row_mapping_step files (column_map_of <$> files) refmap
                   rk rk2r) l acc) = Ok acc' →
  (∀ fi, is_Some (acc.1 !! fi) → is_Some (acc'.1 !! fi)) ∧
  (∀ fi cols, (fi, cols) ∈ l → is_Some (acc'.1 !! fi)).
Proof.
  revert acc. induction l as [|[fi0 cols0] l IH]; intros [rm frc]; simpl.
  - intros [= <-]. split; [done|]. by intros fi cols ?%elem_of_nil.
  - rewrite result_bind. unfold row_mapping_step at 1.
    rewrite result_bind.
    destruct (result (file_row_mapping_of _ _ _ _ _ fi0 cols0))
      as [[m0 t0]|]; [|done].
    simpl. intros H. destruct (IH _ H) as [Hmono Hin]. simpl in Hmono.
    split.
    + intros fi Hfi. apply Hmono.
      destruct (decide (fi0 = fi)) as [->|].
      * rewrite lookup_insert_eq. by eexists.
      * by rewrite lookup_insert_ne.
    + intros fi cols [[= -> ->]|Hi]%elem_of_cons.
      * apply Hmono. rewrite lookup_insert_eq. by eexists.
      * by eapply Hin.
Qed.

(** The row of a repeated key is not first for any key. *)
Lemma repeated_key_not_first sh c r r' k :
  (2 ≤ r' < r)%nat → cell_value sh r' c = cell_value sh r c →
  ¬ first_row sh c k r.
Proof.
  intros Hr Heq (_ & Hk & Hfirst). apply (Hfirst r' Hr). congruence.
Qed.

Lemma dropped_from_mapping rk rk2r fi R sh c r r' m t :
  result (build_reference files (column_map_of <$> files) refmap)
    = Ok (rk, rk2r) →
  driving_ref (filter (λ x, x.1 = fi) sel) refmap = Some R →
  files !! fi = Some sh →
  column_map_of sh !! R = Some c →
  (2 ≤ r' < r)%nat → cell_value sh r' c = cell_value sh r c →
  result (file_row_mapping_of files (column_map_of <$> files) refmap
            rk rk2r fi (filter (λ x, x.1 = fi) sel)) = Ok (m, t) →
  dict_get r m = None.
Proof.
  intros Href Hdrv Hfi Hc Hr Heq Hres.
  destruct (file_row_mapping_ref_inv _ _ _ _ _ _ _ _ Hdrv Hfi Hc Hres)
    as [keys Hkeys].
  destruct (row_mapping_core _ _ _ _ _ _ _ _ _ _ Href Hdrv Hfi Hc Hkeys)
    as (rf & shr & cr & refd & m' & t' & _ & Hres' & _ & _ & _ & Hconv
        & _).
  rewrite Hres in Hres'. injection Hres' as <- <-.
  destruct (dict_get r m) as [tr|] eqn:Hd; [|done].
  destruct (Hconv r tr Hd) as (k & Hfirst & _).
  apply scan_keys_first_row in Hfirst.
  by apply (repeated_key_not_first sh c r r' k) in Hfirst.
Qed.

End alignment_facts.

(** C10. In a file whose rows are placed by a reference column, a row whose
    key already occurs in an earlier data row of the file gets no target
    row, and no cell of that row is ever assigned to the output, whether
    the merge ends normally, fails or is cancelled. *)
Theorem duplicate_key_rows_dropped files sel refmap tok fi R sh c r r' :
  driving_ref (filter (λ x, x.1 = fi) sel) refmap = Some R →
  files !! fi = Some sh →
  column_map_of sh !! R = Some c →
  (2 ≤ r' < r)%nat →
  cell_value sh r' c = cell_value sh r c →
  (∀ rk rk2r m t,
     result (build_reference files (column_map_of <$> files) refmap)
       = Ok (rk, rk2r) →
     result (file_row_mapping_of files (column_map_of <$> files) refmap
               rk rk2r fi (filter (λ x, x.1 = fi) sel)) = Ok (m, t) →
     dict_get r m = None) ∧
  (∀ w, EWrite w ∈ run_events (run tok (merge_multiple_files files sel refmap)) →
        src_file w = fi → src_row w ≠ r).
Proof.
  intros Hdrv Hfi Hc Hr Heq. split.
  - intros rk rk2r m t Href Hres.
    by eapply dropped_from_mapping.
  - intros w Hw Hsrc Hrow.
    pose proof (run_events_prefix tok (merge_multiple_files files sel refmap))
      as [k Hpre].
    assert (Hin : AEvent (EWrite w)
                    ∈ script (merge_multiple_files files sel refmap)).
    { apply events_of_elem. rewrite Hpre. apply elem_of_app. by left. }
    destruct (merge_shaped files sel refmap)
      as (body & post & (Hs & _) & Hpost & Hbody).
    simpl operate in Hs. rewrite Hs in Hin.
    apply elem_of_app in Hin as [Hin|Hin].
    { unfold opens in Hin. apply list_elem_of_fmap in Hin as (? & [=] & _). }
    apply elem_of_app in Hin as [Hin|Hin].
    2:{ destruct Hpost as [-> | ->]; [by apply elem_of_nil in Hin|].
        unfold closes_and_save in Hin.
        apply elem_of_app in Hin as [Hin|Hin].
        - apply list_elem_of_fmap in Hin as (? & [=] & _).
        - apply elem_of_cons in Hin as [[=]|Hin].
          by apply list_elem_of_singleton in Hin. }
    destruct (Hbody w Hin)
      as (rk & rk2r & rm & frc & Href & Hrm & [H1|(m & Hm & Hen)]).
    + lia.
    + rewrite Hsrc in Hm.
      destruct (build_row_mapping_ok _ _ _ _ _ _ _ Hrm fi m Hm) as [t Hres].
      pose proof (dropped_from_mapping files sel refmap rk rk2r fi R sh c r r'
                    m t Href Hdrv Hfi Hc Hr Heq Hres) as Hnone.
      apply dict_get_None_keys in Hnone. apply Hnone.
      rewrite <- Hrow. apply list_elem_of_fmap.
      by exists (src_row w, dst_row w).
Qed.

(** C1, as the code has it. Take a merge that ends normally, two selected
    columns that resolve, from files [fa] and [fb] both driven by the
    reference column [R] and both holding a column [R], and a canonical key
    [k], the [i]-th distinct value of the reference file's column [R], that
    both files hold. Then the cells of the two columns in the first row of
    [k] of either file are assigned to the same output row, [2 + i]. *)
Theorem merge_alignment files sel refmap tok R rf shr cr
    fa fb na nb sha shb ca cb ja jb k i ra rb :
  let r := run tok (merge_multiple_files files sel refmap) in
  run_outcome r = Ok tt →
  (fa, na) ∈ sel → (fb, nb) ∈ sel →
  driving_ref (filter (λ x, x.1 = fa) sel) refmap = Some R →
  driving_ref (filter (λ x, x.1 = fb) sel) refmap = Some R →
  files !! fa = Some sha → files !! fb = Some shb →
  column_map_of sha !! R = Some ca → column_map_of shb !! R = Some cb →
  column_map_of sha !! na = Some ja → column_map_of shb !! nb = Some jb →
  refmap !! R = Some rf → files !! rf = Some shr →
  column_map_of shr !! R = Some cr →
  (scan_keys shr cr).1 !! i = Some k →
  first_row sha ca k ra → first_row shb cb k rb →
  ∃ oa ob,
    EWrite (copied fa sha ra ja (2 + i) oa) ∈ run_events r ∧
    EWrite (copied fb shb rb jb (2 + i) ob) ∈ run_events r.
Proof.
  intros r Hok Hsa Hsb Hda Hdb Hfa Hfb Hca Hcb Hja Hjb Hrf Hshr Hcr Hk Hra Hrb.
  subst r. apply run_ok in Hok as [Hres ->].
  destruct (merge_cases files sel refmap)
    as [(e & _ & _ & Hr)|[(rk & rk2r & e & _ & _ & _ & Hr)|
        (rk & rk2r & rm & frc & Href & Hrm & Hs & Hr)]];
    [congruence..|].
  cbv zeta in Hs, Hr.
  set (em := emit files (column_map_of <$> files) rm (length sel)
                  (group_by_file sel)) in *.
  destruct (result em) as [st|] eqn:Hem; [|congruence].
  assert (Hone : ∀ f n sh c j row,
    (f, n) ∈ sel →
    driving_ref (filter (λ x, x.1 = f) sel) refmap = Some R →
    files !! f = Some sh → column_map_of sh !! R = Some c →
    column_map_of sh !! n = Some j → first_row sh c k row →
    ∃ o, EWrite (copied f sh row j (2 + i) o)
           ∈ events_of (script (merge_multiple_files files sel refmap))).
  { intros f n sh c j row Hsel Hd Hf Hc Hj Hrow.
    assert (Hcols : ∃ cols, dict_get f (group_by_file sel) = Some cols ∧
                            (f, n) ∈ cols).
    { exists (filter (λ x, x.1 = f) sel).
      assert (Hx : (f, n) ∈ filter (λ x, x.1 = f) sel)
        by by apply list_elem_of_filter.
      split; [|done]. rewrite group_by_file_get.
      destruct (filter (λ x, x.1 = f) sel); [|done].
      by apply elem_of_nil in Hx. }
    destruct Hcols as (cols & Hget & Hin).
    destruct (build_row_mapping_dom files refmap rk rk2r _ _ _ Hrm)
      as [_ Hdom].
    destruct (Hdom f cols) as [m Hm]; [by apply dict_get_Some_elem|].
    cbn [fst] in Hm.
    destruct (build_row_mapping_ok _ _ _ _ _ _ _ Hrm f m Hm) as [t Hmt].
    destruct (file_row_mapping_ref_inv _ _ _ _ _ _ _ _ _ _ Hd Hf Hc Hmt)
      as [keys Hkeys].
    destruct (row_mapping_core _ _ _ _ _ _ _ _ _ _ Href Hd Hf Hc Hkeys)
      as (rf' & shr' & cr' & refd & m' & t' & (Hrf' & Hshr' & Hcr' & Hscan)
          & Hmt' & _ & Hcanon & _).
    apply scan_keys_first_row in Hrow.
    rewrite Hmt in Hmt'. injection Hmt' as <- <-.
    assert (rf' = rf) as -> by congruence.
    assert (shr' = shr) as -> by congruence.
    assert (cr' = cr) as -> by congruence.
    rewrite Hscan in Hk. cbn [fst] in Hk.
    pose proof (Hcanon i k row Hk Hrow) as Hrowm.
    apply dict_get_Some_elem in Hrowm.
    destruct (emit_ok_writes files rm (length sel) (group_by_file sel) st
                f n sh j m Hem) as [o Ho].
    { eauto. }
    { done. }
    exists o. apply events_of_elem. rewrite Hs.
    apply elem_of_app. right. apply elem_of_app. left. by apply Ho. }
  destruct (Hone fa na sha ca ja ra) as [oa Hoa]; [done..|].
  destruct (Hone fb nb shb cb jb rb) as [ob Hob]; [done..|].
  eauto.
Qed.

(** Three files for the counterexample of C1: the reference file and two
    files that hold the keys 5 and 7, absent from the reference file, in
    opposite orders. *)
Lemma merge_alignment_witness :
  ∃ oa ob,
    EWrite (copied 0 file_A 3 2 (2 + 1) oa) ∈ scenario_events_with_B_ID ∧
    EWrite (copied 1 file_B 2 2 (2 + 1) ob) ∈ scenario_events_with_B_ID.
Proof.
  apply (merge_alignment [file_A; file_B]
           [(0, "ID"); (0, "Name"); (1, "ID"); (1, "Score")]%nat
           {["ID" := 0%nat]} never "ID" 0%nat file_A 1%nat
           0%nat 1%nat "Name" "Score" file_A file_B 1%nat 1%nat 2%nat 2%nat
           (VInt 2) 1%nat 3%nat 2%nat);
    try (vm_compute; reflexivity).
  - repeat constructor.
  - repeat constructor.
  - apply scan_keys_first_row. vm_compute. reflexivity.
  - apply scan_keys_first_row. vm_compute. reflexivity.
Defined.

(** C1, as stated, fails: files 1 and 2 are both driven by the reference
    column ["ID"] and both hold it; both hold the key 5, file 1 first in row
    2 and file 2 first in row 3; yet the cell of column ["X"] for that key
    is assigned to output row 3 and the cell of column ["Y"] to output row
    4. The key is not a key of the reference file. *)
Lemma merge_alignment_fails_off_reference :
  let sel := [(0, "ID"); (1, "ID"); (1, "X"); (2, "ID"); (2, "Y")]%nat in
  let refmap : gmap string nat := {["ID" := 0%nat]} in
  driving_ref (filter (λ x, x.1 = 1%nat) sel) refmap = Some "ID" ∧
  driving_ref (filter (λ x, x.1 = 2%nat) sel) refmap = Some "ID" ∧
  dict_get (VInt 5) (scan_keys file_X 1).2 = Some 2%nat ∧
  dict_get (VInt 5) (scan_keys file_Y 1).2 = Some 3%nat ∧
  filter (λ w, src_file w = 1%nat ∧ src_row w = 2%nat ∧ src_col w = 2%nat)
         (writes_of misaligned_events)
    = [copied 1 file_X 2 2 3 3] ∧
  filter (λ w, src_file w = 2%nat ∧ src_row w = 3%nat ∧ src_col w = 2%nat)
         (writes_of misaligned_events)
    = [copied 2 file_Y 3 2 4 5] ∧
  (3 ≠ 4)%nat.
Proof. vm_compute. repeat split; done. Qed.

(** ** The scenario *)

(** C2, as the code has it: file B has no selected column named in the
    reference map, so its rows keep their own order from row 2, and the
    scores 90, 85 and 77 land in rows 2, 3 and 4. *)
Theorem scenario_output :
  let r := run never
    (merge_multiple_files [file_A; file_B]
       [(0, "ID"); (0, "Name"); (1, "Score")]%nat {["ID" := 0%nat]}) in
  run_outcome r = Ok tt ∧
  (λ row, out_row (run_events r) row 3) <$> seq 1 4 =
    [ [VStr "ID"; VStr "Name"; VStr "Score"];
      [VInt 1; VStr "Alice"; VInt 90];
      [VInt 2; VStr "Bob"; VInt 85];
      [VInt 3; VStr "Carol"; VInt 77] ].
Proof. vm_compute. done. Qed.

(** C2, as stated, fails: row 2 holds the score 90, not a blank. *)
Lemma scenario_output_differs :
  (λ row, out_row scenario_events row 3) <$> seq 1 4 ≠ scenario_expected ∧
  out_row scenario_events 2 3 = [VInt 1; VStr "Alice"; VInt 90].
Proof. vm_compute. split; [intros [=]|done]. Qed.

(** With the column ["ID"] of file B selected as well, file B is driven by
    the reference column, and the rows align. *)
Lemma scenario_output_with_B_ID :
  (λ row, out_row scenario_events_with_B_ID row 4) <$> seq 1 5 =
    [ [VStr "ID"; VStr "Name"; VStr "ID"; VStr "Score"];
      [VInt 1; VStr "Alice"; VNone; VNone];
      [VInt 2; VStr "Bob"; VInt 2; VInt 90];
      [VInt 3; VStr "Carol"; VInt 3; VInt 85];
      [VNone; VNone; VInt 4; VInt 77] ].
Proof. vm_compute. done. Qed.

(** ** Header names *)

Section name_facts.

Lemma pretty_N_go_nonempty x s : s ≠ EmptyString → pretty_N_go x s ≠ EmptyString.
Proof.
  revert s. induction (N.lt_wf_0 x) as [x _ IH]; intros s Hs.
  assert (x = 0 ∨ 0 < x)%N as [->|Hx] by lia.
  - by rewrite pretty_N_go_0.
  - rewrite pretty_N_go_step by done. apply IH; [by apply N.div_lt|done].
Qed.

Lemma pretty_N_nonempty (x : N) : pretty x ≠ EmptyString.
Proof.
  unfold pretty, pretty_N. case_decide; [done|].
  rewrite pretty_N_go_step by lia. by apply pretty_N_go_nonempty.
Qed.



Lemma load_file_info_lookup sh fi info j :
  load_file_info sh fi = Ok info →
  columns info !! j =
  if decide (j < max_column sh)%nat
  then Some {| ci_name := header_name (S j) (cell_value sh 1 (S j));
               ci_index := S j;
               ci_file_index := fi |}
  else None.
Proof.
  intros [_ ->]%load_file_info_inv. unfold file_info_of. cbn [columns].
  unfold row_cells.
  rewrite list_lookup_fmap, enumerate_lookup, list_lookup_fmap.
  case_decide.
  - by rewrite lookup_seq_lt.
  - by rewrite lookup_seq_ge by lia.
Qed.

End name_facts.




(** A header cell that holds the empty text is named by the empty text. *)
Lemma header_name_empty_text :
  ∃ info,
    load_file_info [[VStr EmptyString]] 0 = Ok info ∧
    ci_name <$> columns info = [EmptyString].
Proof. eexists. split; reflexivity. Qed.

(** The witness of C10: in [file_D] the key 1 occurs in rows 2 and 3; row 3
    gets no target row and none of its cells is assigned. *)
Lemma duplicate_key_rows_dropped_witness :
  let files := [file_A; file_D] in
  let sel := [(0, "ID"); (1, "ID"); (1, "V")]%nat in
  let refmap : gmap string nat := {["ID" := 0%nat]} in
  (∀ rk rk2r m t,
     result (build_reference files (column_map_of <$> files) refmap)
       = Ok (rk, rk2r) →
     result (file_row_mapping_of files (column_map_of <$> files) refmap
               rk rk2r 1 (filter (λ x, x.1 = 1%nat) sel)) = Ok (m, t) →
     dict_get 3%nat m = None) ∧
  (∀ w, EWrite w ∈ run_events (run never (merge_multiple_files files sel refmap)) →
        src_file w = 1%nat → src_row w ≠ 3%nat).
Proof.
  apply (duplicate_key_rows_dropped [file_A; file_D]
           [(0, "ID"); (1, "ID"); (1, "V")]%nat {["ID" := 0%nat]} never
           1%nat "ID" file_D 1%nat 3%nat 2%nat).
  - vm_compute. reflexivity.
  - reflexivity.
  - vm_compute. reflexivity.
  - lia.
  - reflexivity.
Defined.

(** ** The task runner *)

(** C8, as the code has it. At most one call is scheduled, and so at most
    one callback is ever applied. When the task returns with the flag not
    set, the call scheduled is [on_complete] applied to the result; when it
    raises the cancellation, it is [on_cancelled]. A callback that was not
    supplied is skipped, and nothing is scheduled in its place. *)
Theorem run_task_terminal_callback {A C : Type} (tok : nat → bool)
    (task_func : M A) (on_complete : option (A → C))
    (on_error : option (exn → C)) (on_cancelled : option C) :
  let r := run tok task_func in
  let scheduled := run_task tok task_func on_complete on_error on_cancelled in
  (length scheduled ≤ 1)%nat ∧ (length (fired scheduled) ≤ 1)%nat ∧
  (∀ f res, on_complete = Some f → run_outcome r = Ok res →
            tok (run_polls r) = false → scheduled = [Ok (f res)]) ∧
  (∀ c, on_cancelled = Some c →
        run_outcome r = Raise TaskCancelledException → scheduled = [Ok c]) ∧
  (on_complete = None → ∀ res, run_outcome r = Ok res → scheduled = []) ∧
  (on_error = None → ∀ e, run_outcome r = Raise e →
                     e ≠ TaskCancelledException → scheduled = []) ∧
  (on_cancelled = None → run_outcome r = Raise TaskCancelledException →
                         scheduled = []).
Proof.
  intros r scheduled. subst r scheduled. unfold run_task.
  destruct (run_outcome (run tok task_func)) as [res|e].
  - split_and!.
    + destruct (tok _), on_complete; simpl; lia.
    + destruct (tok _), on_complete; simpl; lia.
    + intros f res' -> [= <-] Htok. by rewrite Htok.
    + by intros c _ [=].
    + intros -> res' _. by destruct (tok _).
    + by intros _ e [=].
    + by intros _ [=].
  - split_and!.
    + destruct e, on_cancelled, on_error; simpl; lia.
    + destruct e, on_cancelled, on_error; simpl; lia.
    + by intros f res _ [=].
    + by intros c -> [= ->].
    + by intros _ res [=].
    + intros -> e' [= <-] Hne. by destruct e.
    + by intros -> [= ->].
Qed.

Lemma run_task_terminal_callback_witness :
  let scheduled :=
    run_task never (extract_columns file_A ["ID"])
             (Some (λ _ : unit, 1%nat)) (Some (λ _, 2%nat)) (Some 3%nat) in
  (length scheduled ≤ 1)%nat ∧ scheduled = [Ok 1%nat].
Proof.
  pose proof (run_task_terminal_callback never (extract_columns file_A ["ID"])
                (Some (λ _ : unit, 1%nat)) (Some (λ _, 2%nat)) (Some 3%nat))
    as (Hle & _ & Hone & _).
  split; [exact Hle|].
  exact (Hone (λ _ : unit, 1%nat) tt eq_refl eq_refl eq_refl).
Defined.

(** C8, as stated, fails: a task returns, no completion callback was
    supplied, and nothing is scheduled. *)
Lemma run_task_without_on_complete :
  run_task never (extract_columns file_A ["ID"])
           (None : option (unit → nat)) (Some (λ _, 2%nat)) (Some 3%nat) = [].
Proof. reflexivity. Qed.

(** The flag set after the last poll: the task returns, [is_cancelled] is
    true, and with the three callbacks supplied nothing is scheduled. *)
Lemma run_task_cancelled_after_last_poll :
  let tok := λ i, bool_decide (4 ≤ i)%nat in
  run_outcome (run tok (extract_columns file_A ["ID"])) = Ok tt ∧
  run_task tok (extract_columns file_A ["ID"])
           (Some (λ _ : unit, 1%nat)) (Some (λ _, 2%nat)) (Some 3%nat) = [].
Proof. vm_compute. done. Qed.

(** A task that raises anything but the cancellation: the call scheduled
    fails with [NameError] when it runs, and [on_error] is never applied,
    whatever was supplied. *)
Lemma run_task_error_call_fails {A C : Type} (tok : nat → bool)
    (task_func : M A) on_complete (g : exn → C) on_cancelled e :
  run_outcome (run tok task_func) = Raise e →
  e ≠ TaskCancelledException →
  run_task tok task_func on_complete (Some g) on_cancelled
    = [Raise NameError] ∧
  fired (run_task tok task_func on_complete (Some g) on_cancelled) = [].
Proof.
  intros He Hne. unfold run_task. rewrite He. by destruct e.
Qed.

(** ** The percentage, as a whole *)

(** C9, as the code has it: the percentage is 0 when [total] is not
    positive; otherwise it is the float [current / total * 100] truncated
    by [int] and capped at 100. For a tick of ordinary size, [total] below
    [2 ^ 1000] and [current] up to [2 ^ 43] in absolute value, that is the
    quotient [100 * current / total] truncated toward zero, capped at 100;
    when [total] divides [100 * current] it can be the integer next to the
    quotient toward zero instead, the float product falling short. With
    [total] positive and [current] below [2 ^ 1015] in absolute value a
    percentage is returned, and the only exception the property can raise
    is [OverflowError]. The percentage never exceeds 100, it is 0 when
    [current] is 0, and it is not negative when [current] is not negative;
    there is no floor at 0. *)
Theorem percentage_bounds p :
  (total p <= 0 → percentage p = Ok 0) ∧
  (0 < total p < 2 ^ 1000 → Z.abs (current p) <= 2 ^ 43 →
   ∃ w,
     percentage p = Ok (Z.min 100 (Z.sgn (current p) * w)) ∧ 0 <= w ∧
     100 * Z.abs (current p) / total p - 1 <= w
       <= 100 * Z.abs (current p) / total p ∧
     ((100 * Z.abs (current p)) mod total p ≠ 0 →
      w = 100 * Z.abs (current p) / total p)) ∧
  (0 < total p → Z.abs (current p) < 2 ^ 1015 → ∃ r, percentage p = Ok r) ∧
  (current p = 0 → percentage p = Ok 0) ∧
  (∀ r, percentage p = Ok r → r <= 100 ∧ (0 <= current p → 0 <= r)) ∧
  (∀ e, percentage p = Raise e → e = OverflowError).
Proof.
  split_and!.
  - apply percentage_nonpositive_total.
  - apply percentage_value.
  - apply percentage_returns.
  - intros Hc. unfold percentage, py_truediv. rewrite Hc.
    destruct (Z.leb_spec (total p) 0); [done|].
    destruct (Z.eqb_spec (total p) 0); [lia|]. reflexivity.
  - intros r Hr. split; [by eapply percentage_upper|].
    intros Hc. by eapply percentage_lower.
  - apply percentage_raises.
Qed.

Lemma percentage_bounds_witness :
  percentage {| current := 50; total := 0 |} = Ok 0 ∧
  percentage {| current := 7; total := 9 |} = Ok 77 ∧
  (∃ r, percentage {| current := 250; total := 100 |} = Ok r) ∧
  percentage {| current := 0; total := 100 |} = Ok 0 ∧
  100 <= 100 ∧ 0 <= 100.
Proof.
  destruct (percentage_bounds {| current := 50; total := 0 |}) as [H0 _].
  destruct (percentage_bounds {| current := 7; total := 9 |})
    as (_ & Hv & _).
  destruct (percentage_bounds {| current := 250; total := 100 |})
    as (_ & _ & H1 & _ & H2 & _).
  destruct (percentage_bounds {| current := 0; total := 100 |})
    as (_ & _ & _ & H3 & _).
  split; [apply H0; simpl; lia|].
  split.
  { destruct Hv as (w & Hw & _ & _ & Hne); [simpl; lia..|].
    rewrite Hw. rewrite Hne by (vm_compute; discriminate). reflexivity. }
  split; [apply H1; simpl; lia|].
  split; [apply H3; reflexivity|].
  destruct (H2 100 eq_refl) as [Hu Hl].
  split; [exact Hu|apply Hl; simpl; lia].
Defined.

(** C9, as stated, fails: a negative [current] gives a negative
    percentage, where the formula of the specification gives 0; and the
    float product falls short of the exact one. *)
Lemma percentage_negative_current :
  percentage {| current := -5; total := 100 |} = Ok (-5) ∧
  spec_percentage {| current := -5; total := 100 |} = 0 ∧
  percentage {| current := 29; total := 100 |} = Ok 28 ∧
  spec_percentage {| current := 29; total := 100 |} = 29.
Proof. vm_compute. done. Qed.



(** * Further properties of the code *)

(** ** How loops end *)

Section foldM_results.
Context {S A : Type} (f : S → A → M S).

Lemma foldM_raise l s e :
  result (foldM f l s) = Raise e →
  ∃ s' x, x ∈ l ∧ result (f s' x) = Raise e.
Proof.
  revert s. induction l as [|x l IH]; intros s; simpl; [done|].
  rewrite result_bind.
  destruct (result (f s x)) as [s'|e'] eqn:Hx.
  - intros (s0 & y & Hy & Hr)%IH. exists s0, y. split; [by right|done].
  - intros [= ->]. exists s, x. split; [left|done].
Qed.

Lemma foldM_returns (I : S → Prop) l s :
  I s →
  (∀ s x, x ∈ l → I s → ∃ s', result (f s x) = Ok s' ∧ I s') →
  ∃ s', result (foldM f l s) = Ok s' ∧ I s'.
Proof.
  revert s. induction l as [|x l IH]; intros s Hs Hstep; simpl.
  - by exists s.
  - rewrite result_bind.
    destruct (Hstep s x) as (s' & -> & Hs'); [left|done|].
    apply IH; [done|]. intros s0 y Hy. apply Hstep. by right.
Qed.

Lemma foldM_ok_step l s s_end x :
  result (foldM f l s) = Ok s_end → x ∈ l →
  ∃ s1 s2, result (f s1 x) = Ok s2.
Proof.
  intros H Hx. destruct (foldM_ok_elem f l s s_end x H Hx) as (s1 & s2 & ? & _).
  by exists s1, s2.
Qed.
End foldM_results.

(** ** When the merge returns *)

Section merge_results.
Context (files : list sheet) (refmap : gmap string nat).

Lemma reference_step_result acc name rf :
  result (reference_step files (column_map_of <$> files) acc (name, rf)) =
  match files !! rf with
  | None => Raise KeyError
  | Some shr =>
      match column_map_of shr !! name with
      | None => Ok acc
      | Some c => Ok (<[name := (scan_keys shr c).1]> acc.1,
                      <[name := (scan_keys shr c).2]> acc.2)
      end
  end.
Proof.
  destruct acc as [rk rk2r]. unfold reference_step.
  rewrite result_bind, list_lookup_fmap.
  destruct (files !! rf) as [shr|]; simpl; [|done].
  destruct (column_map_of shr !! name) as [c|]; [|done].
  rewrite result_bind. simpl. by destruct (scan_keys shr c).
Qed.

Lemma build_reference_returns :
  (∀ name rf, refmap !! name = Some rf → (rf < length files)%nat) →
  ∃ tables,
    result (build_reference files (column_map_of <$> files) refmap)
      = Ok tables.
Proof.
  intros Hrf.
  destruct (foldM_returns (reference_step files (column_map_of <$> files))
              (λ _, True) (map_to_list refmap) (∅, ∅)) as (t & Ht & _);
    [done| |by exists t].
  intros acc [name rf] Hin%elem_of_map_to_list _.
  rewrite reference_step_result.
  destruct (lookup_lt_is_Some_2 files rf (Hrf _ _ Hin)) as [shr ->].
  destruct (column_map_of shr !! name); eauto.
Qed.

Lemma build_reference_raises e :
  result (build_reference files (column_map_of <$> files) refmap)
    = Raise e →
  e = KeyError ∧
  ∃ name rf, refmap !! name = Some rf ∧ (length files ≤ rf)%nat.
Proof.
  intros (acc & [name rf] & Hin%elem_of_map_to_list & Hr)%foldM_raise.
  rewrite reference_step_result in Hr.
  destruct (files !! rf) as [shr|] eqn:Hf.
  - by destruct (column_map_of shr !! name).
  - injection Hr as <-. split; [done|]. exists name, rf.
    split; [done|]. by apply lookup_ge_None.
Qed.

Lemma build_reference_in_range tables name rf :
  result (build_reference files (column_map_of <$> files) refmap)
    = Ok tables →
  refmap !! name = Some rf → (rf < length files)%nat.
Proof.
  intros H Hin%elem_of_map_to_list.
  destruct (foldM_ok_step _ _ _ _ _ H Hin) as (s1 & s2 & Hs).
  rewrite reference_step_result in Hs.
  destruct (files !! rf) eqn:Hf; [|done].
  by apply lookup_lt_Some in Hf.
Qed.

(** Step 2 leaves out no reference column that its file holds. *)
Lemma reference_fold_complete l acc acc' :
  NoDup l.*1 →
  result (foldM (reference_step files (column_map_of <$> files)) l acc)
    = Ok acc' →
  (∀ name, name ∉ l.*1 →
           acc'.1 !! name = acc.1 !! name ∧ acc'.2 !! name = acc.2 !! name) ∧
  (∀ name rf shr c, (name, rf) ∈ l → files !! rf = Some shr →
     column_map_of shr !! name = Some c →
     acc'.1 !! name = Some (scan_keys shr c).1 ∧
     acc'.2 !! name = Some (scan_keys shr c).2).
Proof.
  revert acc. induction l as [|[n0 rf0] l IH]; intros acc Hnd; simpl.
  { intros [= <-]. split; [done|]. intros ???? Hin. by apply elem_of_nil in Hin. }
  apply NoDup_cons in Hnd as [Hn0 Hnd].
  rewrite result_bind, reference_step_result.
  destruct (files !! rf0) as [sh0|] eqn:Hf0; [|done].
  destruct (column_map_of sh0 !! n0) as [c0|] eqn:Hc0.
  - intros H. destruct (IH _ Hnd H) as [Hout Hin]. simpl in *. split.
    + intros name Hname. apply not_elem_of_cons in Hname as [Hne Hname].
      destruct (Hout name Hname) as [-> ->].
      by rewrite !lookup_insert_ne.
    + intros name rf shr c [[= -> ->]|Hl]%elem_of_cons Hf Hc.
      * destruct (Hout n0 Hn0) as [-> ->].
        rewrite !lookup_insert_eq. by simplify_eq.
      * by apply Hin with rf.
  - intros H. destruct (IH _ Hnd H) as [Hout Hin]. split.
    + intros name Hname. apply not_elem_of_cons in Hname as [Hne Hname].
      by apply Hout.
    + intros name rf shr c [[= -> ->]|Hl]%elem_of_cons Hf Hc.
      * simplify_eq.
      * by apply Hin with rf.
Qed.

Lemma build_reference_complete tables name rf shr c :
  result (build_reference files (column_map_of <$> files) refmap)
    = Ok tables →
  refmap !! name = Some rf → files !! rf = Some shr →
  column_map_of shr !! name = Some c →
  tables.1 !! name = Some (scan_keys shr c).1 ∧
  tables.2 !! name = Some (scan_keys shr c).2.
Proof.
  intros H Hn Hf Hc.
  eapply (reference_fold_complete _ _ _ (NoDup_fst_map_to_list refmap) H);
    [|done..].
  by apply elem_of_map_to_list.
Qed.

End merge_results.

Section row_mapping_results.
Context (files : list sheet) (refmap : gmap string nat).
Context (rk : gmap string (list value)) (rk2r : gmap string (dict value nat)).
Hypothesis tables_dom : ∀ R, is_Some (rk !! R) → is_Some (rk2r !! R).

Lemma append_own_keys_returns R entries start :
  is_Some (rk !! R) →
  ∃ mt, result (append_own_keys entries rk2r R start) = Ok mt.
Proof.
  intros [refd Hrefd]%tables_dom.
  destruct (append_own_keys_pure refd rk2r R entries start Hrefd) as [_ ->].
  eauto.
Qed.

Lemma file_row_mapping_returns fi cols :
  (fi < length files)%nat →
  (∀ R, driving_ref cols refmap = Some R → is_Some (rk !! R)) →
  ∃ mt, result (file_row_mapping_of files (column_map_of <$> files) refmap
                  rk rk2r fi cols) = Ok mt.
Proof.
  intros [sh Hsh]%lookup_lt_is_Some_2 HR. unfold file_row_mapping_of.
  destruct (driving_ref cols refmap) as [R|] eqn:Hd.
  - destruct (driving_ref_Some _ _ _ Hd) as ([rf Hrf] & _).
    destruct (HR R eq_refl) as [keys Hkeys].
    rewrite !result_bind, Hrf, Hkeys. simpl.
    rewrite !list_lookup_fmap, Hsh. simpl.
    destruct (column_map_of sh !! R) as [[|c]|].
    + rewrite ?result_bind, ?list_lookup_fmap, ?Hsh. simpl. eauto.
    + rewrite ?result_bind, ?list_lookup_fmap, ?Hsh. simpl.
      apply append_own_keys_returns. eauto.
    + rewrite ?result_bind, ?list_lookup_fmap, ?Hsh. simpl. eauto.
  - rewrite result_bind, !list_lookup_fmap, Hsh. simpl. eauto.
Qed.

Lemma file_row_mapping_raises fi cols e :
  result (file_row_mapping_of files (column_map_of <$> files) refmap
            rk rk2r fi cols) = Raise e →
  e = KeyError ∧
  ((length files ≤ fi)%nat ∨
   ∃ R, driving_ref cols refmap = Some R ∧ rk !! R = None).
Proof.
  destruct (decide (fi < length files)%nat) as [Hfi|Hfi].
  - destruct (driving_ref cols refmap) as [R|] eqn:Hd.
    + destruct (rk !! R) as [keys|] eqn:Hkeys.
      * destruct (file_row_mapping_returns fi cols Hfi) as [mt ->]; [|done].
        intros R' HR'. rewrite Hd in HR'. injection HR' as <-. eauto.
      * unfold file_row_mapping_of. rewrite Hd.
        destruct (driving_ref_Some _ _ _ Hd) as ([rf Hrf] & _).
        rewrite !result_bind, Hrf, Hkeys. simpl.
        intros [= <-]. split; [done|]. right. by exists R.
    + destruct (file_row_mapping_returns fi cols Hfi) as [mt ->]; [|done].
      intros R' HR'. by rewrite Hd in HR'.
  - apply Nat.nlt_ge in Hfi. pose proof Hfi as Hnone%lookup_ge_None_2.
    unfold file_row_mapping_of.
    destruct (driving_ref cols refmap) as [R|] eqn:Hd.
    + destruct (driving_ref_Some _ _ _ Hd) as ([rf Hrf] & _).
      rewrite !result_bind, Hrf. simpl.
      destruct (rk !! R); simpl.
      * rewrite !list_lookup_fmap, Hnone. simpl.
        intros [= <-]. auto.
      * intros [= <-]. auto.
    + rewrite result_bind, !list_lookup_fmap, Hnone. simpl.
      intros [= <-]. auto.
Qed.

Lemma row_mapping_step_result acc fi cols :
  result (row_mapping_step files (column_map_of <$> files) refmap rk rk2r
            acc (fi, cols)) =
  match result (file_row_mapping_of files (column_map_of <$> files) refmap
                  rk rk2r fi cols) with
  | Ok mt => Ok (<[fi := mt.1]> acc.1, Nat.max acc.2 mt.2)
  | Raise e => Raise e
  end.
Proof.
  destruct acc as [rm frc]. unfold row_mapping_step. rewrite result_bind.
  by destruct (result (file_row_mapping_of _ _ _ _ _ _ _)) as [[m t]|].
Qed.

Lemma build_row_mapping_returns (cbf : dict nat (list (nat * string))) :
  (∀ fi cols, (fi, cols) ∈ cbf →
     (fi < length files)%nat ∧
     ∀ R, driving_ref cols refmap = Some R → is_Some (rk !! R)) →
  ∃ rmf, result (build_row_mapping files (column_map_of <$> files) refmap
                   rk rk2r cbf) = Ok rmf.
Proof.
  intros H.
  destruct (foldM_returns
              (row_mapping_step files (column_map_of <$> files) refmap
                 rk rk2r) (λ _, True) cbf (∅, 1%nat)) as (r & Hr & _);
    [done| |by exists r].
  intros acc [fi cols] Hin _. rewrite row_mapping_step_result.
  destruct (H fi cols Hin) as [Hfi HR].
  destruct (file_row_mapping_returns fi cols Hfi HR) as [mt ->]. eauto.
Qed.

Lemma build_row_mapping_raises (cbf : dict nat (list (nat * string))) e :
  result (build_row_mapping files (column_map_of <$> files) refmap
            rk rk2r cbf) = Raise e →
  e = KeyError ∧
  ∃ fi cols, (fi, cols) ∈ cbf ∧
    ((length files ≤ fi)%nat ∨
     ∃ R, driving_ref cols refmap = Some R ∧ rk !! R = None).
Proof.
  intros (acc & [fi cols] & Hin & Hr)%foldM_raise.
  rewrite row_mapping_step_result in Hr.
  destruct (result (file_row_mapping_of _ _ _ _ _ fi cols)) eqn:Hf; [done|].
  injection Hr as ->.
  destruct (file_row_mapping_raises _ _ _ Hf) as [-> Hc].
  split; [done|]. by exists fi, cols.
Qed.

Lemma build_row_mapping_in_range (cbf : dict nat (list (nat * string)))
    rmf fi cols :
  result (build_row_mapping files (column_map_of <$> files) refmap
            rk rk2r cbf) = Ok rmf →
  (fi, cols) ∈ cbf →
  (fi < length files)%nat ∧
  (∀ R, driving_ref cols refmap = Some R → is_Some (rk !! R)) ∧
  is_Some (rmf.1 !! fi).
Proof.
  intros H Hin.
  destruct (foldM_ok_step _ _ _ _ _ H Hin) as (s1 & s2 & Hs).
  rewrite row_mapping_step_result in Hs.
  destruct (result (file_row_mapping_of _ _ _ _ _ fi cols)) eqn:Hf; [|done].
  split_and!.
  - destruct (decide (fi < length files)%nat) as [|Hge]; [done|].
    exfalso. apply Nat.nlt_ge, lookup_ge_None_2 in Hge.
    revert Hf. unfold file_row_mapping_of.
    destruct (driving_ref cols refmap) as [R|] eqn:Hd.
    + destruct (driving_ref_Some _ _ _ Hd) as ([rf Hrf] & _).
      rewrite !result_bind, Hrf. simpl. destruct (rk !! R); [|done]. simpl.
      by rewrite !list_lookup_fmap, Hge.
    + by rewrite result_bind, !list_lookup_fmap, Hge.
  - intros R Hd. revert Hf. unfold file_row_mapping_of. rewrite Hd.
    destruct (driving_ref_Some _ _ _ Hd) as ([rf Hrf] & _).
    rewrite !result_bind, Hrf. simpl. by destruct (rk !! R).
  - pose proof (build_row_mapping_dom files refmap rk rk2r cbf (∅, 1%nat) rmf H) as [_ Hd].
    by apply (Hd fi cols).
Qed.

End row_mapping_results.

Section emit_results.
Context (files : list sheet) (rm : gmap nat (dict nat nat)).
Context (total_cols : nat) (cbf : dict nat (list (nat * string))).

Lemma emit_column_result fi oc pc col :
  result (emit_column files (column_map_of <$> files) rm total_cols
            fi (oc, pc) col) =
  match files !! fi with
  | None => Raise KeyError
  | Some sh =>
      match column_map_of sh !! col.2 with
      | Some (S c) =>
          match rm !! fi with
          | Some _ => Ok (S oc, S pc)
          | None => Raise KeyError
          end
      | _ => Ok (oc, S pc)
      end
  end.
Proof.
  unfold emit_column.
  rewrite result_bind. cbn [raise_if_cancelled result script].
  rewrite result_bind, list_lookup_fmap.
  destruct (files !! fi) as [sh|] eqn:Hfi; simpl; [|done].
  destruct (column_map_of sh !! col.2) as [[|c]|] eqn:Hc; [done| |done].
  destruct (rm !! fi) as [m|] eqn:Hm; simpl; [|done].
  destruct (emit_rows_script fi sh (S c) oc m) as (Hr & _).
  cbn zeta in Hr. unfold M_bind, mbind. simpl.
  unfold M_bind. rewrite Hr. simpl. done.
Qed.

Lemma emit_column_returns fi st col :
  (fi < length files)%nat → is_Some (rm !! fi) →
  ∃ st', result (emit_column files (column_map_of <$> files) rm total_cols
                   fi st col) = Ok st'.
Proof.
  intros [sh Hsh]%lookup_lt_is_Some_2 [m Hm].
  destruct st as [oc pc]. rewrite emit_column_result, Hsh, Hm.
  destruct (column_map_of sh !! col.2) as [[|c]|]; eauto.
Qed.

Lemma emit_returns :
  (∀ fi, fi ∈ cbf.*1 → (fi < length files)%nat ∧ is_Some (rm !! fi)) →
  ∃ st, result (emit files (column_map_of <$> files) rm total_cols cbf)
          = Ok st.
Proof.
  intros H.
  destruct (foldM_returns
              (emit_file files (column_map_of <$> files) rm total_cols cbf)
              (λ _, True) (merge_sort (≤)%nat cbf.*1) (1%nat, 0%nat))
    as (st & Hst & _); [done| |by exists st].
  intros st fi Hfi _. rewrite merge_sort_Permutation in Hfi.
  destruct (H fi Hfi) as [Hlt Hrm]. unfold emit_file.
  rewrite result_bind.
  destruct (dict_get fi cbf) as [cols|] eqn:Hg.
  - simpl.
    destruct (foldM_returns
                (emit_column files (column_map_of <$> files) rm total_cols
                   fi) (λ _, True) cols st) as (st' & Hst' & _);
      [done| |by exists st'].
    intros st0 col _ _.
    destruct (emit_column_returns fi st0 col Hlt Hrm) as [st1 ->]. eauto.
  - by apply dict_get_None_keys in Hg.
Qed.

End emit_results.

Section merge_outcomes.
Context (files : list sheet) (sel : list (nat * string)).
Context (refmap : gmap string nat).

Lemma group_by_file_in fi cols :
  (fi, cols) ∈ group_by_file sel →
  cols = filter (λ c, c.1 = fi) sel ∧ ∃ name, (fi, name) ∈ sel.
Proof.
  intros Hin. split; [by apply group_by_file_elem|].
  apply group_by_file_keys. apply list_elem_of_fmap. by exists (fi, cols).
Qed.

Lemma group_by_file_of fi name :
  (fi, name) ∈ sel →
  (fi, filter (λ c, c.1 = fi) sel) ∈ group_by_file sel.
Proof.
  intros Hin. apply dict_get_Some_elem. rewrite group_by_file_get.
  destruct (filter (λ c, c.1 = fi) sel) as [|c l] eqn:Hf; [|done].
  assert ((fi, name) ∈ filter (λ c, c.1 = fi) sel) as Hin'
    by (by apply list_elem_of_filter).
  rewrite Hf in Hin'. by apply elem_of_nil in Hin'.
Qed.

Lemma tables_same_dom tables :
  result (build_reference files (column_map_of <$> files) refmap)
    = Ok tables →
  ∀ R, is_Some (tables.1 !! R) → is_Some (tables.2 !! R).
Proof.
  intros H R [keys Hk].
  destruct (build_reference_ok files refmap tables H R keys Hk)
    as (rf & shr & cr & _ & _ & _ & _ & ->). eauto.
Qed.

End merge_outcomes.

Section merge_returns_or_fails.
Context (files : list sheet) (sel : list (nat * string)).
Context (refmap : gmap string nat).

Lemma merge_result_raises e :
  result (merge_multiple_files files sel refmap) = Raise e →
  e = KeyError ∧
  script (merge_multiple_files files sel refmap) = opens (length files).
Proof.
  destruct (merge_cases files sel refmap)
    as [(e' & Hb & Hs & ->)|[(rk & rk2r & e' & Hb & Hr & Hs & ->)|
        (rk & rk2r & rm & frc & Hb & Hr & Hs & ->)]].
  - intros [= ->]. split; [|done].
    by destruct (build_reference_raises files refmap e Hb).
  - intros [= ->]. split; [|done].
    pose proof (tables_same_dom files refmap (rk, rk2r) Hb) as Hdom.
    by destruct (build_row_mapping_raises files refmap rk rk2r Hdom
                   (group_by_file sel) e Hr).
  - pose proof (tables_same_dom files refmap (rk, rk2r) Hb) as Hdom.
    destruct (emit_returns files rm (length sel) (group_by_file sel))
      as [st ->]; [|done].
    intros fi ((fi' & cols) & -> & Hin)%list_elem_of_fmap. simpl.
    destruct (build_row_mapping_in_range files refmap rk rk2r
                (group_by_file sel) (rm, frc) fi' cols Hr Hin)
      as (? & _ & ?).
    done.
Qed.

End merge_returns_or_fails.

Lemma well_formed_returns files sel refmap :
  well_formed files sel refmap →
  result (merge_multiple_files files sel refmap) = Ok tt.
Proof.
  intros (Hrf & Hfi & Hdrv).
  destruct (build_reference_returns files refmap Hrf) as [[rk rk2r] Hb].
  pose proof (tables_same_dom files refmap (rk, rk2r) Hb) as Hdom.
  destruct (build_row_mapping_returns files refmap rk rk2r Hdom
              (group_by_file sel)) as [[rm frc] Hr].
  { intros fi cols [-> [name Hin]]%group_by_file_in. split; [by eapply Hfi|].
    intros R Hd.
    destruct (Hdrv fi name R Hin Hd) as (rf & shr & Hn & Hf & Hh).
    apply column_map_of_is_Some in Hh as [c Hc].
    destruct (build_reference_complete files refmap (rk, rk2r) R rf shr c
                Hb Hn Hf Hc) as [Hk _]. simpl in Hk. eauto. }
  destruct (result (merge_multiple_files files sel refmap)) as [[]|e] eqn:Hm;
    [done|].
  destruct (merge_result_raises files sel refmap e Hm) as [-> Hs].
  exfalso.
  destruct (merge_cases files sel refmap)
    as [(e' & Hb' & _)|[(rk' & rk2r' & e' & Hb' & Hr' & _)|
        (rk' & rk2r' & rm' & frc' & Hb' & Hr' & _ & Hres)]].
  - congruence.
  - rewrite Hb in Hb'. injection Hb' as <- <-. congruence.
  - rewrite Hb in Hb'. injection Hb' as <- <-.
    rewrite Hr in Hr'. injection Hr' as <- <-.
    destruct (emit_returns files rm (length sel) (group_by_file sel))
      as [st Hst].
    { intros fi ((fi' & cols) & -> & Hin)%list_elem_of_fmap. simpl.
      destruct (build_row_mapping_in_range files refmap rk rk2r
                  (group_by_file sel) (rm, frc) fi' cols Hr Hin)
        as (? & _ & ?). done. }
    rewrite Hst in Hres. congruence.
Qed.

(** X1. The merge returns exactly on well-formed input: a file index out of
    range, in the reference map or in the selection, or a driving column
    that its reference file does not hold, makes a lookup fail. *)
Theorem merge_returns_iff files sel refmap :
  result (merge_multiple_files files sel refmap) = Ok tt ↔
  well_formed files sel refmap.
Proof.
  split; [|apply well_formed_returns].
  intros Hok.
  destruct (merge_cases files sel refmap)
    as [(e' & _ & _ & He)|[(rk & rk2r & e' & _ & _ & _ & He)|
        (rk & rk2r & rm & frc & Hb & Hr & _)]];
    [congruence..|].
  pose proof (tables_same_dom files refmap (rk, rk2r) Hb) as Hdom.
  split_and!.
  - intros name rf. by apply (build_reference_in_range files refmap (rk, rk2r)).
  - intros fi name Hin%group_by_file_of.
    by destruct (build_row_mapping_in_range files refmap rk rk2r
                   _ _ _ _ Hr Hin).
  - intros fi name R Hin%group_by_file_of Hd.
    destruct (build_row_mapping_in_range files refmap rk rk2r
                _ _ _ _ Hr Hin) as (_ & HR & _).
    destruct (HR R Hd) as [keys Hkeys].
    destruct (build_reference_ok files refmap (rk, rk2r) Hb R keys Hkeys)
      as (rf & shr & cr & ? & ? & Hc & _).
    exists rf, shr. split_and!; [done..|].
    apply column_map_of_is_Some. eauto.
Qed.

(** X2. A merge that ends with an exception other than the cancellation has
    failed a lookup ([KeyError]) while building its tables: the sources have
    been opened, and nothing else has happened; no poll, no cell assignment,
    no workbook closed, nothing saved. *)
Theorem merge_fails_early files sel refmap tok e :
  run_outcome (run tok (merge_multiple_files files sel refmap)) = Raise e →
  e = TaskCancelledException ∨
  (e = KeyError ∧
   ¬ well_formed files sel refmap ∧
   run tok (merge_multiple_files files sel refmap) =
     mkRun (Raise KeyError) (EOpen <$> seq 0 (length files)) 0).
Proof.
  intros Hout.
  destruct (decide (e = TaskCancelledException)) as [|Hne]; [by left|right].
  assert (result (merge_multiple_files files sel refmap) = Raise e) as Hres.
  { destruct (run_outcome_cases tok (merge_multiple_files files sel refmap));
      congruence. }
  destruct (merge_result_raises files sel refmap e Hres) as [-> Hs].
  split; [done|]. split.
  - intros Hwf%well_formed_returns. congruence.
  - rewrite run_not_cancelled.
    + by rewrite Hres, Hs, opens_events, opens_polls.
    + rewrite Hs, opens_polls. lia.
Qed.

Lemma merge_fails_early_witness :
  run never (merge_multiple_files [file_A] [(3%nat, "ID")] ∅) =
    mkRun (Raise KeyError) [EOpen 0] 0.
Proof.
  destruct (merge_fails_early [file_A] [(3%nat, "ID")] ∅ never KeyError)
    as [[=]|(_ & _ & ->)]; [|done].
  vm_compute. reflexivity.
Defined.

(** ** Row mappings are one to one *)

Section rows_inv_facts.

Lemma dict_set_values (m : dict nat nat) r t :
  ∀ x, x ∈ (dict_set r t m).*2 → x = t ∨ x ∈ m.*2.
Proof.
  induction m as [|[k v] m IH]; simpl; intros x.
  - intros ->%list_elem_of_singleton. by left.
  - destruct (decide (r = k)); simpl.
    + intros [->|Hx]%elem_of_cons; [by left|]. right. by right.
    + intros [->|Hx]%elem_of_cons; [right; left|].
      destruct (IH x Hx); [by left|]. right. by right.
Qed.

Lemma dict_set_values_NoDup (m : dict nat nat) r t :
  t ∉ m.*2 → NoDup m.*2 → NoDup (dict_set r t m).*2.
Proof.
  induction m as [|[k v] m IH]; simpl; intros Ht Hnd.
  - apply NoDup_singleton.
  - apply not_elem_of_cons in Ht as [Htv Ht].
    apply NoDup_cons in Hnd as [Hv Hnd].
    destruct (decide (r = k)); simpl.
    + apply NoDup_cons. done.
    + apply NoDup_cons. split; [|by apply IH].
      intros [->|Hx]%dict_set_values; done.
Qed.

Lemma rows_inv_skip m t : rows_inv (m, t) → rows_inv (m, S t).
Proof.
  intros (Ht & Hk & Hv & Hb). split_and!; simpl in *; [lia|done..|].
  eapply Forall_impl; [done|]. simpl. lia.
Qed.

Lemma rows_inv_set m t r : rows_inv (m, t) → rows_inv (dict_set r t m, S t).
Proof.
  intros (Ht & Hk & Hv & Hb). simpl in *. split_and!; simpl.
  - lia.
  - by apply dict_set_keys_NoDup.
  - apply dict_set_values_NoDup; [|done].
    intros Hin. rewrite Forall_forall in Hb. apply Hb in Hin. lia.
  - apply Forall_forall. intros x [->|Hx]%dict_set_values; [lia|].
    rewrite Forall_forall in Hb. apply Hb in Hx. lia.
Qed.

Lemma rows_inv_init : rows_inv ([], 2%nat).
Proof. split_and!; simpl; [lia|constructor..]. Qed.

Lemma direct_mapping_inv n : rows_inv (direct_mapping n).
Proof.
  unfold direct_mapping. generalize (py_range 2 (n + 1)).
  generalize rows_inv_init. generalize (@nil (nat * nat), 2%nat).
  intros acc Hacc l. revert acc Hacc.
  induction l as [|r l IH]; intros [m t] Hacc; simpl; [done|].
  apply IH. by apply rows_inv_set.
Qed.

Lemma map_ref_keys_inv fk keys : rows_inv (map_ref_keys fk keys).
Proof.
  unfold map_ref_keys. generalize rows_inv_init.
  generalize (@nil (nat * nat), 2%nat).
  intros acc Hacc. revert acc Hacc.
  induction keys as [|k keys IH]; intros [m t] Hacc; simpl; [done|].
  apply IH. destruct (dict_get k fk).
  - by apply rows_inv_set.
  - by apply rows_inv_skip.
Qed.

Lemma append_own_keys_inv rk2r R entries start mt :
  rows_inv start →
  result (append_own_keys entries rk2r R start) = Ok mt → rows_inv mt.
Proof.
  intros Hs. unfold append_own_keys. apply foldM_invariant; [done|].
  intros [m t] [k r] acc' _ Hacc. unfold append_own_step.
  rewrite result_bind. destruct (rk2r !! R) as [refd|]; simpl; [|done].
  destruct (dict_mem k refd); simpl; intros [= <-]; [done|].
  by apply rows_inv_set.
Qed.

Lemma file_row_mapping_inv files refmap rk rk2r fi cols mt :
  result (file_row_mapping_of files (column_map_of <$> files) refmap
            rk rk2r fi cols) = Ok mt →
  rows_inv mt.
Proof.
  unfold file_row_mapping_of.
  assert (Hdirect :
    result (getitem ((max_row <$> files) !! fi)
              ≫= λ file_max_row, mret (direct_mapping file_max_row))
      = Ok mt → rows_inv mt).
  { rewrite result_bind. destruct ((max_row <$> files) !! fi); [|done].
    simpl. intros [= <-]. apply direct_mapping_inv. }
  destruct (driving_ref cols refmap) as [R|]; [|done].
  rewrite !result_bind. destruct (refmap !! R); simpl; [|done].
  destruct (rk !! R) as [keys|]; simpl; [|done].
  destruct ((column_map_of <$> files) !! fi) as [cm|]; simpl; [|done].
  destruct (cm !! R) as [[|c]|]; [done| |done].
  rewrite result_bind. destruct (files !! fi) as [sh|]; simpl; [|done].
  apply append_own_keys_inv, map_ref_keys_inv.
Qed.

Lemma build_row_mapping_inv files refmap rk rk2r sel rm frc fi m :
  result (build_row_mapping files (column_map_of <$> files) refmap rk rk2r
            (group_by_file sel)) = Ok (rm, frc) →
  rm !! fi = Some m →
  ∃ t, rows_inv (m, t).
Proof.
  intros Hr Hm.
  destruct (build_row_mapping_ok files sel refmap rk rk2r rm frc Hr fi m Hm)
    as [t Ht].
  exists t. by eapply file_row_mapping_inv.
Qed.

End rows_inv_facts.

(** ** No output cell is assigned twice *)

Section block_facts2.
Context {A : Type} (f : nat * nat → A → M (nat * nat)).

Lemma block_ok_ret s : block_ok s (mret s).
Proof.
  split_and!; simpl.
  - constructor.
  - intros w Hw. by apply elem_of_nil in Hw.
  - intros s' [= <-]. split; [done|]. intros w Hw. by apply elem_of_nil in Hw.
Qed.

Lemma block_ok_bind s (m : M (nat * nat)) (k : nat * nat → M (nat * nat)) :
  block_ok s m →
  (∀ s1, result m = Ok s1 → block_ok s1 (k s1)) →
  block_ok s (m ≫= k).
Proof.
  intros (Hnd & Hlo & Hhi) Hk. unfold block_ok.
  rewrite script_bind, result_bind.
  destruct (result m) as [s1|e] eqn:Hm.
  - destruct (Hhi s1 eq_refl) as [Hle Hup].
    destruct (Hk s1 eq_refl) as (Hnd' & Hlo' & Hhi').
    rewrite script_writes_app, fmap_app. split_and!.
    + apply NoDup_app. split_and!; [done| |done].
      intros d (w & -> & Hw)%list_elem_of_fmap
               (w' & Heq & Hw')%list_elem_of_fmap.
      apply Hup in Hw. apply Hlo' in Hw'.
      unfold dest in Heq. injection Heq as _ Heq. lia.
    + intros w [Hw|Hw]%elem_of_app; [by apply Hlo|].
      apply Hlo' in Hw. lia.
    + intros s' Hs'. destruct (Hhi' s' Hs') as [Hle' Hup']. split; [lia|].
      intros w [Hw|Hw]%elem_of_app; [|by apply Hup'].
      apply Hup in Hw. lia.
  - rewrite app_nil_r. split_and!; [done..|]. done.
Qed.

Lemma foldM_block_ok l s :
  (∀ s x, x ∈ l → block_ok s (f s x)) → block_ok s (foldM f l s).
Proof.
  revert s. induction l as [|x l IH]; intros s H; simpl.
  - apply block_ok_ret.
  - apply block_ok_bind; [apply H; left|].
    intros s1 _. apply IH. intros s0 y Hy. apply H. by right.
Qed.
End block_facts2.

Section emit_blocks.
Context (files : list sheet) (rm : gmap nat (dict nat nat)).
Context (total_cols : nat) (cbf : dict nat (list (nat * string))).
Hypothesis rm_inv : ∀ fi m, rm !! fi = Some m → ∃ t, rows_inv (m, t).

Lemma emit_column_block fi st col :
  block_ok st (emit_column files (column_map_of <$> files) rm total_cols
                 fi st col).
Proof.
  destruct st as [oc pc].
  pose proof (emit_column_result files rm total_cols fi oc pc col) as Hres.
  destruct (emit_column_cases files rm total_cols fi oc pc col)
    as [(sh & c & m & (Hsh & Hc & Hm) & Hs & Hr)|[Hs _]].
  - destruct (rm_inv fi m Hm) as (t & _ & _ & Hnd & Hb).
    cbn [fst snd] in Hnd, Hb.
    destruct (emit_rows_script fi sh c oc m) as (_ & Hw & _).
    cbn zeta in Hw.
    assert (Hws : script_writes
              (script (emit_column files (column_map_of <$> files) rm
                         total_cols fi (oc, pc) col)) =
            copied fi sh 1 c 1 oc
              :: ((λ en, copied fi sh en.1 c en.2 oc) <$> m)).
    { rewrite Hs, !script_writes_app, Hw. unfold script_writes. simpl.
      by rewrite app_nil_r. }
    unfold block_ok. rewrite Hws, Hr. split_and!.
    + rewrite fmap_cons, <- list_fmap_compose. apply NoDup_cons. split.
      * intros ([sr tr] & Heq & Hin)%list_elem_of_fmap.
        unfold dest in Heq. simpl in Heq. injection Heq as Heq.
        rewrite Forall_forall in Hb.
        assert (tr ∈ m.*2) as Htr%Hb; [|lia].
        apply list_elem_of_fmap. by exists (sr, tr).
      * assert (dest ∘ (λ en : nat * nat, copied fi sh en.1 c en.2 oc)
                = (λ t, (t, oc)) ∘ snd) as -> by done.
        rewrite list_fmap_compose. apply NoDup_fmap_2; [|done].
        by intros ?? [=].
    + intros w [->|(en & -> & _)%list_elem_of_fmap]%elem_of_cons; simpl; lia.
    + intros s' [= <-]. simpl. split; [lia|].
      intros w [->|(en & -> & _)%list_elem_of_fmap]%elem_of_cons; simpl; lia.
  - assert (Hws : script_writes
              (script (emit_column files (column_map_of <$> files) rm
                         total_cols fi (oc, pc) col)) = [])
      by by rewrite Hs.
    unfold block_ok. rewrite Hws. split_and!.
    + constructor.
    + intros w Hw. by apply elem_of_nil in Hw.
    + intros s' Hs'. split.
      * rewrite Hres in Hs'.
        destruct (files !! fi) as [sh|]; [|done].
        destruct (column_map_of sh !! col.2) as [[|c]|];
          [by injection Hs' as <-| |by injection Hs' as <-].
        destruct (rm !! fi); [|done]. injection Hs' as <-. simpl. lia.
      * intros w Hw. by apply elem_of_nil in Hw.
Qed.

Lemma emit_file_block st fi :
  block_ok st (emit_file files (column_map_of <$> files) rm total_cols
                 cbf st fi).
Proof.
  unfold emit_file. destruct (dict_get fi cbf) as [cols|]; simpl.
  - unfold block_ok. rewrite script_bind, result_bind. simpl.
    apply foldM_block_ok. intros. apply emit_column_block.
  - unfold block_ok. rewrite script_bind, result_bind. simpl.
    unfold script_writes. simpl. split_and!; [constructor| |done].
    intros w Hw. by apply elem_of_nil in Hw.
Qed.

Lemma emit_block :
  block_ok (1%nat, 0%nat)
    (emit files (column_map_of <$> files) rm total_cols cbf).
Proof. apply foldM_block_ok. intros. apply emit_file_block. Qed.

End emit_blocks.

Section out_cell_facts.

Lemma filter_dest_nil ws row col :
  (row, col) ∉ dest <$> ws →
  filter (λ w, dst_row w = row ∧ dst_col w = col) ws = [].
Proof.
  induction ws as [|w ws IH]; [done|]. rewrite fmap_cons.
  intros [Hw Hws]%not_elem_of_cons.
  rewrite filter_cons_False; [by apply IH|].
  intros [<- <-]. by apply Hw.
Qed.

Lemma filter_dest_unique ws w :
  NoDup (dest <$> ws) → w ∈ ws →
  filter (λ w', dst_row w' = dst_row w ∧ dst_col w' = dst_col w) ws = [w].
Proof.
  induction ws as [|w0 ws IH]; intros Hnd Hin.
  { by apply elem_of_nil in Hin. }
  rewrite fmap_cons in Hnd. apply NoDup_cons in Hnd as [Hw0 Hnd].
  destruct (decide (dst_row w0 = dst_row w ∧ dst_col w0 = dst_col w))
    as [[Hr Hc]|Hne].
  - assert (dest w0 = dest w) as Hd by (unfold dest; congruence).
    apply elem_of_cons in Hin as [->|Hin].
    + rewrite filter_cons_True by done. f_equal.
      by apply filter_dest_nil.
    + exfalso. apply Hw0. rewrite Hd. apply list_elem_of_fmap. eauto.
  - rewrite filter_cons_False by done.
    apply elem_of_cons in Hin as [->|Hin]; [by destruct Hne|].
    by apply IH.
Qed.

Lemma out_cell_unique evs w :
  NoDup (dest <$> writes_of evs) → EWrite w ∈ evs →
  out_cell evs (dst_row w) (dst_col w) = written w.
Proof.
  intros Hnd Hin. unfold out_cell.
  rewrite (filter_dest_unique _ w Hnd); [done|].
  unfold writes_of. apply list_elem_of_omap. by exists (EWrite w).
Qed.

Lemma out_cell_blank evs row col :
  (row, col) ∉ dest <$> writes_of evs → out_cell evs row col = VNone.
Proof. intros H. unfold out_cell. by rewrite filter_dest_nil. Qed.

Lemma writes_of_prefix e1 e2 :
  e1 `prefix_of` e2 → writes_of e1 `prefix_of` writes_of e2.
Proof. intros [k ->]. rewrite writes_of_app. by eexists. Qed.

Lemma NoDup_dest_prefix (ws1 ws2 : list write) :
  ws1 `prefix_of` ws2 → NoDup (dest <$> ws2) → NoDup (dest <$> ws1).
Proof.
  intros [k ->]. rewrite fmap_app. by intros [? _]%NoDup_app.
Qed.

End out_cell_facts.

Lemma merge_script_writes_NoDup files sel refmap :
  NoDup (dest <$> script_writes (script (merge_multiple_files files sel refmap))).
Proof.
  destruct (merge_cases files sel refmap)
    as [(e' & _ & -> & _)|[(rk & rk2r & e' & _ & _ & -> & _)|
        (rk & rk2r & rm & frc & Hb & Hr & -> & _)]].
  - rewrite opens_writes. constructor.
  - rewrite opens_writes. constructor.
  - rewrite !script_writes_app, opens_writes.
    assert (script_writes
              match result (emit files (column_map_of <$> files) rm
                              (length sel) (group_by_file sel)) with
              | Ok _ => closes_and_save (length files)
              | Raise _ => []
              end = []) as ->.
    { destruct (result (emit _ _ _ _ _)); [|done].
      unfold script_writes. rewrite closes_events.
      rewrite writes_of_app. simpl. rewrite app_nil_r.
      induction (seq 0 (length files)); [done|]. done. }
    rewrite app_nil_r. simpl.
    apply (emit_block files rm (length sel) (group_by_file sel)).
    intros fi m Hm. by eapply build_row_mapping_inv.
Qed.

Lemma merge_run_writes_NoDup files sel refmap tok :
  NoDup (dest <$> writes_of
           (run_events (run tok (merge_multiple_files files sel refmap)))).
Proof.
  eapply NoDup_dest_prefix; [|apply merge_script_writes_NoDup].
  apply writes_of_prefix, run_events_prefix.
Qed.

(** X3. The merge never assigns an output cell twice, whatever the input and
    whenever it is cancelled: every assignment it makes is the value the
    output cell keeps. *)
Theorem merge_never_overwrites files sel refmap tok :
  let evs := run_events (run tok (merge_multiple_files files sel refmap)) in
  NoDup (dest <$> writes_of evs) ∧
  ∀ w, EWrite w ∈ evs → out_cell evs (dst_row w) (dst_col w) = written w.
Proof.
  intros evs.
  pose proof (merge_run_writes_NoDup files sel refmap tok) as Hnd.
  split; [done|]. intros w Hw.
  unfold out_cell.
  rewrite (filter_dest_unique (writes_of evs) w Hnd); [done|].
  unfold writes_of. apply list_elem_of_omap. by exists (EWrite w).
Qed.

(** ** The layout of the merged sheet *)

Section foldM_compose.
Context {S A : Type}.

Lemma foldM_app (f : S → A → M S) l1 l2 s :
  script (foldM f (l1 ++ l2) s) = script (foldM f l1 s ≫= foldM f l2) ∧
  result (foldM f (l1 ++ l2) s) = result (foldM f l1 s ≫= foldM f l2).
Proof.
  revert s. induction l1 as [|x l1 IH]; intros s; cbn [foldM app].
  - by rewrite script_bind, result_bind.
  - rewrite !script_bind, !result_bind.
    destruct (result (f s x)) as [s1|e]; [|by rewrite !app_nil_r].
    destruct (IH s1) as [-> ->].
    rewrite !script_bind, !result_bind.
    destruct (result (foldM f l1 s1)). all: by rewrite ?app_nil_r, ?app_assoc.
Qed.

Lemma foldM_ext (f g : S → A → M S) l s :
  (∀ s x, x ∈ l → f s x = g s x) → foldM f l s = foldM g l s.
Proof.
  revert s. induction l as [|x l IH]; intros s H; cbn [foldM]; [done|].
  rewrite H by left. unfold mbind, M_bind.
  destruct (result (g s x)) as [s1|]; [|done].
  rewrite IH; [done|]. intros s0 y Hy. apply H. by right.
Qed.
End foldM_compose.

Section emit_layout.
Context (files : list sheet) (rm : gmap nat (dict nat nat)).
Context (total_cols : nat).

Let emit_col (st : nat * nat) (col : nat * string) : M (nat * nat) :=
  emit_column files (column_map_of <$> files) rm total_cols col.1 st col.

Lemma emit_file_flat (cbf : dict nat (list (nat * string))) keys st :
  (∀ fi, fi ∈ keys → is_Some (dict_get fi cbf)) →
  (∀ fi cols col, dict_get fi cbf = Some cols → col ∈ cols → col.1 = fi) →
  let order := concat ((λ fi, default [] (dict_get fi cbf)) <$> keys) in
  script (foldM (emit_file files (column_map_of <$> files) rm total_cols
                   cbf) keys st) = script (foldM emit_col order st) ∧
  result (foldM (emit_file files (column_map_of <$> files) rm total_cols
                   cbf) keys st) = result (foldM emit_col order st).
Proof.
  intros Hkeys Hfst order. subst order. revert st.
  induction keys as [|fi keys IH]; intros st; [done|].
  destruct (Hkeys fi) as [cols Hcols]; [left|].
  cbn [foldM fmap list_fmap concat]. rewrite Hcols.
  change (default [] (Some cols)) with cols.
  destruct (foldM_app emit_col cols
              (concat ((λ fi, default [] (dict_get fi cbf)) <$> keys)) st)
    as [-> ->].
  rewrite !script_bind, !result_bind.
  assert (script (emit_file files (column_map_of <$> files) rm total_cols
                    cbf st fi) = script (foldM emit_col cols st) ∧
          result (emit_file files (column_map_of <$> files) rm total_cols
                    cbf st fi) = result (foldM emit_col cols st))
    as [-> ->].
  { unfold emit_file. rewrite Hcols.
    rewrite script_bind, result_bind. simpl.
    rewrite (foldM_ext emit_col
               (emit_column files (column_map_of <$> files) rm total_cols fi)
               cols st); [done|].
    intros s x Hx. unfold emit_col. by rewrite (Hfst fi cols x Hcols Hx). }
  destruct (result (foldM emit_col cols st)) as [st1|]; [|done].
  destruct (IH (λ f Hf, Hkeys f (proj2 (elem_of_cons _ _ _) (or_intror Hf)))
              st1) as [-> ->].
  done.
Qed.

Lemma emit_cols_writes order oc pc :
  (∀ col, col ∈ order → is_Some (files !! col.1) ∧ is_Some (rm !! col.1)) →
  let resolved := omap (resolved_column files rm) order in
  result (foldM emit_col order (oc, pc))
    = Ok ((oc + length resolved)%nat, (pc + length order)%nat) ∧
  script_writes (script (foldM emit_col order (oc, pc))) =
    concat ((λ '(o, rc), column_writes o rc) <$> enumerate oc resolved).
Proof.
  intros H resolved. subst resolved. revert oc pc H.
  induction order as [|[fi name] order IH]; intros oc pc H.
  { cbn. split; [|done]. f_equal. f_equal; lia. }
  destruct (H (fi, name)) as [[sh Hsh] [m Hm]]; [left|].
  cbn [fst snd] in Hsh, Hm.
  assert (Hrest : ∀ col, col ∈ order →
            is_Some (files !! col.1) ∧ is_Some (rm !! col.1)).
  { intros col Hcol. apply H. by right. }
  cbn [foldM omap list_omap]. rewrite script_bind, result_bind.
  pose proof (emit_column_result files rm total_cols fi oc pc (fi, name))
    as Hres.
  cbn [fst snd] in Hres. rewrite Hsh, Hm in Hres.
  assert (Hrc : resolved_column files rm (fi, name) =
                match column_map_of sh !! name with
                | Some c => Some (fi, sh, c, m)
                | None => None
                end).
  { unfold resolved_column. cbn [fst snd]. rewrite Hsh. simpl.
    destruct (column_map_of sh !! name); [|done]. simpl. by rewrite Hm. }
  rewrite Hrc.
  change (emit_col (oc, pc) (fi, name))
    with (emit_column files (column_map_of <$> files) rm total_cols fi
            (oc, pc) (fi, name)).
  destruct (emit_column_cases files rm total_cols fi oc pc (fi, name))
    as [(sh' & c & m' & (Hsh' & Hc & Hm') & Hs & Hr)|[Hs Hno]];
    cbn [fst snd] in *.
  - assert (sh' = sh) as -> by congruence.
    assert (m' = m) as -> by congruence.
    rewrite Hc, Hr, Hs, !script_writes_app.
    destruct (IH (S oc) (S pc) Hrest) as [-> ->].
    destruct (emit_rows_script fi sh c oc m) as (_ & Hw & _).
    cbn zeta in Hw. rewrite Hw. split.
    + cbn [length]. f_equal. f_equal; lia.
    + cbn [enumerate fmap list_fmap concat column_writes].
      unfold script_writes at 1 2. cbn [events_of writes_of omap list_omap].
      by rewrite app_nil_r.
  - destruct (column_map_of sh !! name) as [[|c]|] eqn:Hc.
    + by apply column_map_of_positive in Hc as [? [=]].
    + exfalso. by apply (Hno sh (S c) m).
    + rewrite Hres, Hs, script_writes_app.
      destruct (IH oc (S pc) Hrest) as [-> ->]. split.
      * cbn [length]. f_equal. f_equal; lia.
      * by unfold script_writes at 1.
Qed.

End emit_layout.

Lemma elem_of_concat {A} (x : A) (ls : list (list A)) :
  x ∈ concat ls ↔ ∃ l, x ∈ l ∧ l ∈ ls.
Proof.
  induction ls as [|l0 ls IH]; simpl.
  - split; [by intros ?%elem_of_nil|]. by intros (l & _ & ?%elem_of_nil).
  - rewrite elem_of_app, IH. split.
    + intros [H|(l & Hx & Hl)].
      * exists l0. split; [done|left].
      * exists l. split; [done|by right].
    + intros (l & Hx & [->|Hl]%elem_of_cons); [by left|right; eauto].
Qed.

Section emission_order_facts.
Context (sel : list (nat * string)).

Lemma group_by_file_default fi :
  default [] (dict_get fi (group_by_file sel)) = filter (λ c, c.1 = fi) sel.
Proof.
  rewrite group_by_file_get. by destruct (filter (λ c, c.1 = fi) sel).
Qed.

Lemma emission_order_alt :
  concat ((λ fi, default [] (dict_get fi (group_by_file sel)))
            <$> merge_sort (≤)%nat (group_by_file sel).*1)
  = emission_order sel.
Proof.
  unfold emission_order. f_equal. apply list_fmap_ext.
  intros _ fi _. apply group_by_file_default.
Qed.

Lemma elem_of_emission_order col : col ∈ emission_order sel ↔ col ∈ sel.
Proof.
  unfold emission_order. rewrite elem_of_concat. split.
  - intros (l & Hcol & (fi & -> & _)%list_elem_of_fmap).
    by apply list_elem_of_filter in Hcol as [_ ?].
  - intros Hin. exists (filter (λ c, c.1 = col.1) sel). split.
    + by apply list_elem_of_filter.
    + apply list_elem_of_fmap. exists col.1. split; [done|].
      rewrite merge_sort_Permutation. apply group_by_file_keys.
      exists col.2. by destruct col.
Qed.
End emission_order_facts.

Lemma merge_writes_layout files sel refmap :
  result (merge_multiple_files files sel refmap) = Ok tt →
  ∃ rk rk2r rm frc,
    result (build_reference files (column_map_of <$> files) refmap)
      = Ok (rk, rk2r) ∧
    result (build_row_mapping files (column_map_of <$> files) refmap
              rk rk2r (group_by_file sel)) = Ok (rm, frc) ∧
    script_writes (script (merge_multiple_files files sel refmap)) =
      concat ((λ '(o, rc), column_writes o rc)
                <$> enumerate 1 (omap (resolved_column files rm)
                                      (emission_order sel))).
Proof.
  intros Hres.
  destruct (merge_cases files sel refmap)
    as [(e & _ & _ & Hr)|[(rk & rk2r & e & _ & _ & _ & Hr)|
        (rk & rk2r & rm & frc & Href & Hrm & Hs & Hr)]];
    [congruence..|].
  exists rk, rk2r, rm, frc. split; [done|]. split; [done|].
  cbv zeta in Hs, Hr.
  rewrite Hs, !script_writes_app, opens_writes.
  assert (script_writes
            match result (emit files (column_map_of <$> files) rm
                            (length sel) (group_by_file sel)) with
            | Ok _ => closes_and_save (length files)
            | Raise _ => []
            end = []) as ->.
  { destruct (result (emit _ _ _ _ _)); [|done].
    unfold script_writes. rewrite closes_events, writes_of_app.
    simpl. rewrite app_nil_r.
    by induction (seq 0 (length files)). }
  rewrite app_nil_r. cbn [app]. unfold emit.
  destruct (emit_file_flat files rm (length sel) (group_by_file sel)
              (merge_sort (≤)%nat (group_by_file sel).*1) (1%nat, 0%nat))
    as [-> _].
  - intros fi Hfi. rewrite merge_sort_Permutation in Hfi.
    destruct (dict_get fi (group_by_file sel)) eqn:Hg; [done|].
    by apply dict_get_None_keys in Hg.
  - intros fi cols col Hg%dict_get_Some_elem Hcol.
    apply group_by_file_elem in Hg as ->.
    by apply list_elem_of_filter in Hcol as [? _].
  - rewrite (emission_order_alt sel).
    apply emit_cols_writes.
    intros [fi name] Hcol. cbn [fst].
    apply (proj1 (elem_of_emission_order sel (fi, name))) in Hcol.
    apply (group_by_file_of sel) in Hcol.
    destruct (build_row_mapping_in_range files refmap rk rk2r
                (group_by_file sel) (rm, frc) fi _ Hrm Hcol)
      as (Hlt & _ & Hm).
    split; [by apply lookup_lt_is_Some_2|done].
Qed.

(** X4. The layout of the merged sheet. A merge that returns has assigned
    exactly these cells, in this order: the selected columns are taken file
    by file, in ascending order of the file index, and within a file in the
    order of the selection; a column whose name its file does not bear is
    skipped and leaves no gap; the [j]-th column that remains goes to output
    column [j], its header cell to row 1 and its mapped rows where the row
    mapping of its file sends them. *)
Theorem merge_layout files sel refmap tok :
  let r := run tok (merge_multiple_files files sel refmap) in
  run_outcome r = Ok tt →
  ∃ rk rk2r rm frc,
    result (build_reference files (column_map_of <$> files) refmap)
      = Ok (rk, rk2r) ∧
    result (build_row_mapping files (column_map_of <$> files) refmap
              rk rk2r (group_by_file sel)) = Ok (rm, frc) ∧
    writes_of (run_events r) =
      concat ((λ '(o, rc), column_writes o rc)
                <$> enumerate 1 (omap (resolved_column files rm)
                                      (emission_order sel))).
Proof.
  intros r Hok. subst r. apply run_ok in Hok as [Hres ->].
  destruct (merge_writes_layout files sel refmap Hres)
    as (rk & rk2r & rm & frc & Href & Hrm & Hw).
  exists rk, rk2r, rm, frc. split_and!; [done..|].
  by change (writes_of (events_of ?s)) with (script_writes s).
Qed.

Lemma merge_layout_witness :
  run_outcome (run never
    (merge_multiple_files [file_A; file_B]
       [(0, "ID"); (0, "Name"); (1, "ID"); (1, "Score")]%nat
       {["ID" := 0%nat]})) = Ok tt ∧
  ∃ rk rk2r rm frc,
    result (build_reference [file_A; file_B]
              (column_map_of <$> [file_A; file_B]) {["ID" := 0%nat]})
      = Ok (rk, rk2r) ∧
    result (build_row_mapping [file_A; file_B]
              (column_map_of <$> [file_A; file_B]) {["ID" := 0%nat]} rk rk2r
              (group_by_file
                 [(0, "ID"); (0, "Name"); (1, "ID"); (1, "Score")]%nat))
      = Ok (rm, frc) ∧
    writes_of scenario_events_with_B_ID =
      concat ((λ '(o, rc), column_writes o rc)
                <$> enumerate 1
                      (omap (resolved_column [file_A; file_B] rm)
                         (emission_order
                            [(0, "ID"); (0, "Name"); (1, "ID");
                             (1, "Score")]%nat))).
Proof.
  split; [vm_compute; reflexivity|].
  apply (merge_layout [file_A; file_B]
           [(0, "ID"); (0, "Name"); (1, "ID"); (1, "Score")]%nat
           {["ID" := 0%nat]} never).
  vm_compute. reflexivity.
Defined.

(** ** Files that no reference column drives *)

Section direct_facts.

Lemma direct_fold m t k :
  Forall (λ e : nat * nat, (e.1 < t)%nat) m →
  foldl direct_step (m, t) (seq t k) =
    (m ++ ((λ r, (r, r)) <$> seq t k), (t + k)%nat).
Proof.
  revert m t. induction k as [|k IH]; intros m t Hm; simpl.
  - by rewrite app_nil_r, Nat.add_0_r.
  - rewrite dict_set_new.
    + rewrite IH.
      * rewrite <- app_assoc. simpl. f_equal; lia.
      * apply Forall_app. split.
        -- eapply Forall_impl; [done|]. simpl. lia.
        -- apply Forall_singleton. simpl. lia.
    + apply dict_get_None_keys. intros ([r t'] & -> & Hin)%list_elem_of_fmap.
      rewrite Forall_forall in Hm. apply Hm in Hin. simpl in Hin. lia.
Qed.

Lemma direct_mapping_eq n :
  direct_mapping n = ((λ r, (r, r)) <$> seq 2 (n - 1), (2 + (n - 1))%nat).
Proof.
  unfold direct_mapping, py_range.
  replace (n + 1 - 2)%nat with (n - 1)%nat by lia.
  by rewrite direct_fold.
Qed.

Lemma file_row_mapping_direct files refmap rk rk2r fi cols sh :
  files !! fi = Some sh →
  driving_ref cols refmap = None →
  result (file_row_mapping_of files (column_map_of <$> files) refmap
            rk rk2r fi cols) = Ok (direct_mapping (max_row sh)).
Proof.
  intros Hsh Hd. unfold file_row_mapping_of. rewrite Hd.
  by rewrite result_bind, list_lookup_fmap, Hsh.
Qed.

Lemma build_row_mapping_lookup files refmap rk rk2r sel rm frc fi name :
  result (build_row_mapping files (column_map_of <$> files) refmap rk rk2r
            (group_by_file sel)) = Ok (rm, frc) →
  (fi, name) ∈ sel →
  ∃ m t, rm !! fi = Some m ∧
    result (file_row_mapping_of files (column_map_of <$> files) refmap
              rk rk2r fi (filter (λ c, c.1 = fi) sel)) = Ok (m, t).
Proof.
  intros Hrm Hin%group_by_file_of.
  destruct (build_row_mapping_in_range files refmap rk rk2r
              (group_by_file sel) (rm, frc) fi _ Hrm Hin)
    as (_ & _ & [m Hm]).
  destruct (build_row_mapping_ok files sel refmap rk rk2r rm frc Hrm fi m Hm)
    as [t Ht].
  by exists m, t.
Qed.

Lemma enumerate_omap_elem {A B} (f : A → option B) l x y start :
  x ∈ l → f x = Some y → ∃ o, (o, y) ∈ enumerate start (omap f l).
Proof.
  intros Hx Hy.
  assert (y ∈ omap f l) as [j Hj]%list_elem_of_lookup
    by (apply list_elem_of_omap; eauto).
  exists (start + j)%nat. apply list_elem_of_lookup. exists j.
  by rewrite enumerate_lookup, Hj.
Qed.

End direct_facts.

Lemma column_writes_dst_col oc rc w :
  w ∈ column_writes oc rc → dst_col w = oc.
Proof.
  destruct rc as [[[fi sh] c] m]. cbn [column_writes].
  by intros [->|(en & -> & _)%list_elem_of_fmap]%elem_of_cons.
Qed.

Lemma enumerate_elem_inj {A} (l : list A) start o x y :
  (o, x) ∈ enumerate start l → (o, y) ∈ enumerate start l → x = y.
Proof.
  intros [i Hi]%list_elem_of_lookup [j Hj]%list_elem_of_lookup.
  rewrite enumerate_lookup in Hi, Hj.
  destruct (l !! i) as [x'|] eqn:Hx; [|done].
  destruct (l !! j) as [y'|] eqn:Hy; [|done].
  simpl in Hi, Hj. injection Hi as Hi <-. injection Hj as Hj <-.
  assert (i = j) as -> by lia. congruence.
Qed.

(** Every selected column that its file bears is emitted: a merge that
    returns has assigned, in one output column and nowhere else, the header
    cell of the column and each mapped row; nothing else goes to that
    output column. *)
Lemma merge_column_written files sel refmap tok fi name sh c :
  let r := run tok (merge_multiple_files files sel refmap) in
  run_outcome r = Ok tt →
  (fi, name) ∈ sel → files !! fi = Some sh →
  column_map_of sh !! name = Some c →
  ∃ rk rk2r m t oc,
    result (build_reference files (column_map_of <$> files) refmap)
      = Ok (rk, rk2r) ∧
    result (file_row_mapping_of files (column_map_of <$> files) refmap
              rk rk2r fi (filter (λ c, c.1 = fi) sel)) = Ok (m, t) ∧
    (∀ w, w ∈ column_writes oc (fi, sh, c, m) → EWrite w ∈ run_events r) ∧
    (∀ w, EWrite w ∈ run_events r → dst_col w = oc →
          w ∈ column_writes oc (fi, sh, c, m)).
Proof.
  intros r Hok Hsel Hsh Hc. subst r.
  pose proof Hok as [Hres Hevs]%run_ok.
  destruct (merge_writes_layout files sel refmap Hres)
    as (rk & rk2r & rm & frc & Href & Hrm & Hw).
  set (r := run tok (merge_multiple_files files sel refmap)) in *.
  destruct (build_row_mapping_lookup files refmap rk rk2r sel rm frc fi name
              Hrm Hsel) as (m & t & Hm & Hmt).
  destruct (enumerate_omap_elem (resolved_column files rm)
              (emission_order sel) (fi, name) (fi, sh, c, m) 1) as [oc Hoc].
  { by apply elem_of_emission_order. }
  { unfold resolved_column. cbn [fst snd]. rewrite Hsh. simpl.
    rewrite Hc. simpl. by rewrite Hm. }
  assert (Hwrites : ∀ w, EWrite w ∈ run_events r ↔
            w ∈ concat ((λ '(o, rc), column_writes o rc)
                          <$> enumerate 1 (omap (resolved_column files rm)
                                             (emission_order sel)))).
  { intros w. rewrite <- Hw, Hevs.
    change (script_writes ?s) with (writes_of (events_of s)).
    unfold writes_of. rewrite list_elem_of_omap. split.
    - intros Hin. by exists (EWrite w).
    - intros (e & He & Hew). destruct e; try done. by injection Hew as ->. }
  exists rk, rk2r, m, t, oc. split; [done|]. split; [done|]. split.
  - intros w Hin. apply Hwrites, elem_of_concat.
    exists (column_writes oc (fi, sh, c, m)). split; [done|].
    apply list_elem_of_fmap. by exists (oc, (fi, sh, c, m)).
  - intros w [l [Hin Hl]]%Hwrites%elem_of_concat Hcol.
    apply list_elem_of_fmap in Hl as ([o rc] & -> & Ho).
    pose proof (column_writes_dst_col _ _ _ Hin) as Ho'.
    assert (o = oc) as -> by congruence.
    by rewrite (enumerate_elem_inj _ _ _ _ _ Hoc Ho).
Qed.

(** X5. A file none of whose selected columns is named in the reference map is
    copied row for row: each of its selected columns that the file bears
    fills one output column, row [r] of the source going to row [r]. *)
Theorem merge_copies_undriven_file files sel refmap tok fi name sh c :
  let r := run tok (merge_multiple_files files sel refmap) in
  run_outcome r = Ok tt →
  (fi, name) ∈ sel →
  driving_ref (filter (λ c, c.1 = fi) sel) refmap = None →
  files !! fi = Some sh →
  column_map_of sh !! name = Some c →
  ∃ oc, ∀ row, (1 ≤ row ≤ max_row sh)%nat →
    EWrite (copied fi sh row c row oc) ∈ run_events r ∧
    out_cell (run_events r) row oc = cell_value sh row c.
Proof.
  intros r Hok Hsel Hd Hsh Hc.
  destruct (merge_column_written files sel refmap tok fi name sh c
              Hok Hsel Hsh Hc)
    as (rk & rk2r & m & t & oc & _ & Hmt & Hw & _).
  rewrite (file_row_mapping_direct files refmap rk rk2r fi _ sh Hsh Hd),
    direct_mapping_eq in Hmt.
  injection Hmt as <- <-.
  exists oc. intros row Hrow.
  assert (EWrite (copied fi sh row c row oc) ∈ run_events r) as Hin.
  { apply Hw. cbn [column_writes].
    destruct (decide (row = 1%nat)) as [->|Hne]; [left|right].
    apply list_elem_of_fmap. exists (row, row). split; [done|].
    apply list_elem_of_fmap. exists row. split; [done|].
    apply elem_of_seq. lia. }
  split; [done|].
  apply (out_cell_unique _ (copied fi sh row c row oc)); [|done].
  apply merge_run_writes_NoDup.
Qed.

Lemma merge_copies_undriven_file_witness :
  ∃ oc, ∀ row, (1 ≤ row ≤ max_row file_B)%nat →
    EWrite (copied 1 file_B row 2 row oc) ∈ scenario_events ∧
    out_cell scenario_events row oc = cell_value file_B row 2.
Proof.
  apply (merge_copies_undriven_file [file_A; file_B]
           [(0, "ID"); (0, "Name"); (1, "Score")]%nat {["ID" := 0%nat]}
           never 1%nat "Score" file_B 2%nat);
    try (vm_compute; reflexivity).
  repeat constructor.
Defined.

(** ** The extractor and the merge of one file *)

Section single_file.

Lemma enumerate_fmap {A B} (f : A → B) l start :
  enumerate start (f <$> l) = (λ '(i, x), (i, f x)) <$> enumerate start l.
Proof.
  revert start. induction l as [|x l IH]; intros start; simpl; [done|].
  by rewrite IH.
Qed.

Lemma filter_all {A} (P : A → Prop) `{∀ x, Decision (P x)} (l : list A) :
  (∀ x, x ∈ l → P x) → filter P l = l.
Proof.
  induction l as [|x l IH]; intros Hl; [done|].
  rewrite filter_cons_True by (apply Hl; left).
  f_equal. apply IH. intros y Hy. apply Hl. by right.
Qed.

Lemma emission_order_single sel fi :
  (∀ c, c ∈ sel → c.1 = fi) → emission_order sel = sel.
Proof.
  intros Hfi. unfold emission_order.
  destruct sel as [|[f0 n0] sel'] eqn:Hsel; [done|]. rewrite <- Hsel in *.
  assert ((group_by_file sel).*1 = [fi]) as Hkeys.
  { pose proof (group_by_file_NoDup sel) as Hnd.
    assert (∀ k, k ∈ (group_by_file sel).*1 → k = fi) as Hall.
    { intros k [name Hk]%group_by_file_keys. by apply Hfi in Hk. }
    assert (fi ∈ (group_by_file sel).*1) as Hin.
    { apply group_by_file_keys. exists n0.
      assert ((f0, n0) ∈ sel) as Hin0 by (rewrite Hsel; left).
      by rewrite <- (Hfi _ Hin0). }
    destruct ((group_by_file sel).*1) as [|k1 [|k2 ks]].
    - by apply elem_of_nil in Hin.
    - f_equal. apply Hall. left.
    - exfalso. apply NoDup_cons in Hnd as [Hk1 _]. apply Hk1.
      rewrite (Hall k1) by left. rewrite (Hall k2); [left|]. right. left. }
  rewrite Hkeys.
  assert (merge_sort (≤)%nat [fi] = [fi]) as -> by done.
  simpl. rewrite app_nil_r.
  apply filter_all. intros c Hc. by apply Hfi.
Qed.

Lemma column_writes_direct fi sh c oc :
  column_writes oc (fi, sh, c, (direct_mapping (max_row sh)).1) =
  (λ row, copied fi sh row c row oc) <$> seq 1 (max_row sh).
Proof.
  rewrite direct_mapping_eq. cbn [fst column_writes].
  assert (max_row sh = S (max_row sh - 1)) as Hm
    by (unfold max_row; lia).
  rewrite Hm at 2. cbn [seq fmap list_fmap]. f_equal.
  by rewrite <- list_fmap_compose.
Qed.

End single_file.

(** X6. The merge of the columns of a single file, with no reference column,
    assigns the same cells, in the same order, as the extractor does on that
    file and those names. *)
Theorem merge_single_file_is_extract sh names :
  writes_of (run_events (run never
    (merge_multiple_files [sh] ((λ name, (0%nat, name)) <$> names) ∅))) =
  writes_of (run_events (run never (extract_columns sh names))).
Proof.
  set (sel := (λ name, (0%nat, name)) <$> names).
  assert (well_formed [sh] sel ∅) as Hwf.
  { split_and!.
    - intros name rf. by rewrite lookup_empty.
    - intros fi name (n & [= -> _] & _)%list_elem_of_fmap. simpl. lia.
    - intros fi name R _ Hd. apply driving_ref_Some in Hd as ([rf Hrf] & _).
      by rewrite lookup_empty in Hrf. }
  pose proof (well_formed_returns _ _ _ Hwf) as Hres.
  rewrite !run_not_cancelled by done. cbn [run_events].
  change (writes_of (events_of ?s)) with (script_writes s).
  destruct (merge_writes_layout [sh] sel ∅ Hres)
    as (rk & rk2r & rm & frc & Href & Hrm & ->).
  destruct (extract_columns_script sh names) as [-> _].
  destruct (extract_loop_script sh (extract_column_map sh names)
              (length names) names 1%nat) as (_ & Hw & _).
  rewrite omap_extract_column_map in Hw.
  change (AEvent (EOpen 0) :: ?s) with ([AEvent (EOpen 0)] ++ s).
  rewrite !script_writes_app, Hw. unfold script_writes at 1 2. simpl.
  rewrite app_nil_r.
  rewrite (emission_order_single sel 0%nat).
  2:{ by intros c (n & -> & _)%list_elem_of_fmap. }
  assert (names = [] ∨ ∃ n0, n0 ∈ names) as [Hnil|[n0 Hn0]].
  { destruct names as [|n0 ?]; [by left|right]. exists n0. left. }
  { unfold sel. by rewrite Hnil. }
  destruct (build_row_mapping_lookup [sh] ∅ rk rk2r sel rm frc 0%nat n0 Hrm)
    as (m & t & Hm & Hmt).
  { apply list_elem_of_fmap. by exists n0. }
  rewrite (file_row_mapping_direct [sh] ∅ rk rk2r 0%nat _ sh) in Hmt; [|done|].
  2:{ destruct (driving_ref _ ∅) as [R|] eqn:Hd; [|done].
      apply driving_ref_Some in Hd as ([rf Hrf] & _).
      by rewrite lookup_empty in Hrf. }
  assert (m = (direct_mapping (max_row sh)).1) as ->.
  { injection Hmt as Hmt. by rewrite Hmt. }
  assert (omap (resolved_column [sh] rm) sel =
          (λ c, (0%nat, sh, c, (direct_mapping (max_row sh)).1))
            <$> omap (λ name, column_map_of sh !! name) names) as ->.
  { unfold sel. clear -Hm. induction names as [|n names IH]; [done|].
    cbn [fmap list_fmap omap list_omap].
    unfold resolved_column at 1. cbn [fst snd]. simpl.
    fold (omap (resolved_column [sh] rm) ((λ name, (0%nat, name)) <$> names)).
    fold (omap (λ name, column_map_of sh !! name) names).
    rewrite IH.
    destruct (column_map_of sh !! n); simpl; [|done]. by rewrite Hm. }
  rewrite enumerate_fmap, <- list_fmap_compose. f_equal.
  apply list_fmap_ext. intros i [o c] _. simpl.
  apply column_writes_direct.
Qed.

(** ** The sheet the extractor writes *)

Section extract_cells.
Context (sh : sheet).

Let blocks (oc : nat) (cols : list nat) : list write :=
  concat ((λ '(o, c), (λ r, copied 0 sh r c r o) <$> seq 1 (max_row sh))
            <$> enumerate oc cols).

Lemma blocks_elem oc cols w :
  w ∈ blocks oc cols ↔
  ∃ j c r, cols !! j = Some c ∧ (1 ≤ r ≤ max_row sh)%nat ∧
           w = copied 0 sh r c r (oc + j).
Proof.
  unfold blocks. rewrite elem_of_concat. split.
  - intros (l & Hw & ([o c] & -> & Hoc)%list_elem_of_fmap).
    apply list_elem_of_lookup in Hoc as [j Hj].
    rewrite enumerate_lookup in Hj.
    destruct (cols !! j) as [c'|] eqn:Hc; [|done]. injection Hj as <- <-.
    apply list_elem_of_fmap in Hw as (r & -> & Hr%elem_of_seq).
    exists j, c', r. split_and!; [done|lia|lia|done].
  - intros (j & c & r & Hc & Hr & ->).
    exists ((λ r, copied 0 sh r c r (oc + j)) <$> seq 1 (max_row sh)). split.
    + apply list_elem_of_fmap. exists r. split; [done|].
      apply elem_of_seq. lia.
    + apply list_elem_of_fmap. exists ((oc + j)%nat, c). split; [done|].
      apply list_elem_of_lookup. exists j. by rewrite enumerate_lookup, Hc.
Qed.

Lemma blocks_NoDup oc cols : NoDup (dest <$> blocks oc cols).
Proof.
  revert oc. induction cols as [|c cols IH]; intros oc.
  { constructor. }
  change (blocks oc (c :: cols))
    with (((λ r, copied 0 sh r c r oc) <$> seq 1 (max_row sh))
            ++ blocks (S oc) cols).
  rewrite fmap_app. apply NoDup_app. split_and!.
  - rewrite <- list_fmap_compose. apply NoDup_fmap_2; [|apply NoDup_seq].
    by intros r1 r2 [=].
  - intros d (w & -> & (r & -> & _)%list_elem_of_fmap)%list_elem_of_fmap
             (w' & Heq & (j & c' & r' & _ & _ & ->)%blocks_elem)%list_elem_of_fmap.
    unfold dest in Heq. simpl in Heq. injection Heq as _ Heq. lia.
  - apply IH.
Qed.

Lemma extract_run_writes sel :
  writes_of (run_events (run never (extract_columns sh sel))) =
  blocks 1 (omap (λ name, column_map_of sh !! name) sel).
Proof.
  rewrite run_not_cancelled by done. cbn [run_events].
  change (writes_of (events_of ?s)) with (script_writes s).
  destruct (extract_columns_script sh sel) as [-> _].
  destruct (extract_loop_script sh (extract_column_map sh sel) (length sel)
              sel 1%nat) as (_ & Hw & _).
  rewrite omap_extract_column_map in Hw.
  change (AEvent (EOpen 0) :: ?s) with ([AEvent (EOpen 0)] ++ s).
  rewrite !script_writes_app, Hw. unfold script_writes at 1 2. simpl.
  by rewrite app_nil_r.
Qed.

Lemma extract_writes_NoDup sel :
  NoDup (dest <$> writes_of (run_events (run never (extract_columns sh sel)))).
Proof. rewrite extract_run_writes. apply blocks_NoDup. Qed.

Lemma extract_writes_elem sel w :
  w ∈ writes_of (run_events (run never (extract_columns sh sel))) ↔
  ∃ j c r, omap (λ name, column_map_of sh !! name) sel !! j = Some c ∧
           (1 ≤ r ≤ max_row sh)%nat ∧ w = copied 0 sh r c r (S j).
Proof. rewrite extract_run_writes. apply blocks_elem. Qed.

End extract_cells.

(** X7. The sheet an extraction that is not cancelled leaves: the [j]-th of the
    selected names that the header bears fills output column [j], rows 1 to
    [max_row], with the cells of its source column; every other cell is
    blank. *)
Theorem extract_output (sh : sheet) sel row col :
  let evs := run_events (run never (extract_columns sh sel)) in
  let cols := omap (λ name, column_map_of sh !! name) sel in
  out_cell evs row col =
    match col with
    | S j =>
        match cols !! j with
        | Some c =>
            if decide (1 ≤ row ≤ max_row sh)%nat then cell_value sh row c
            else VNone
        | None => VNone
        end
    | O => VNone
    end.
Proof.
  intros evs cols.
  pose proof (extract_writes_NoDup sh sel) as Hnd. fold evs in Hnd.
  assert (Hblank : (∀ j c r, cols !! j = Some c → (1 ≤ r ≤ max_row sh)%nat →
                             (row, col) ≠ (r, S j)) →
                   out_cell evs row col = VNone).
  { intros Hno. apply out_cell_blank.
    intros (w & Heq & (j & c & r & Hc & Hr & ->)%extract_writes_elem)%list_elem_of_fmap.
    by apply (Hno j c r). }
  destruct col as [|j].
  { apply Hblank. by intros j c r _ _ [=]. }
  destruct (cols !! j) as [c|] eqn:Hc.
  - destruct (decide (1 ≤ row ≤ max_row sh)%nat) as [Hrow|Hrow].
    + apply (out_cell_unique evs (copied 0 sh row c row (S j)) Hnd).
      assert (copied 0 sh row c row (S j) ∈ writes_of evs) as Hin.
      { apply extract_writes_elem. by exists j, c, row. }
      unfold writes_of in Hin.
      apply list_elem_of_omap in Hin as (e & He & Hew).
      destruct e; try done. by injection Hew as ->.
    + apply Hblank. intros j' c' r _ Hr [= -> _]. done.
  - apply Hblank. intros j' c' r Hc' _ [= _ ->]. congruence.
Qed.

(** ** Discovered columns and the columns the operations resolve *)

(** X8. On a sheet that holds a cell, schema discovery returns, and every
    column it lists resolves, by its name, in the column map of the merge:
    to the rightmost column of the sheet that bears the name. Of two
    columns of one name, the left one is listed and can be selected, and
    the right one is copied. *)
Theorem discovered_column_resolves sh fi :
  sh ≠ [] →
  ∃ info,
    load_file_info sh fi = Ok info ∧
    ∀ c, c ∈ columns info →
      ci_file_index c = fi ∧
      (1 ≤ ci_index c ≤ max_column sh)%nat ∧
      ∃ idx,
        column_map_of sh !! ci_name c = Some idx ∧
        (ci_index c ≤ idx ≤ max_column sh)%nat ∧
        header_name idx (cell_value sh 1 idx) = ci_name c ∧
        ∀ c', c' ∈ columns info → ci_name c' = ci_name c →
              (ci_index c' ≤ idx)%nat.
Proof.
  intros Hsh. pose proof (load_file_info_returns sh fi Hsh) as Hinfo.
  eexists. split; [exact Hinfo|].
  intros c [j Hj]%list_elem_of_lookup.
  rewrite (load_file_info_lookup _ _ _ _ Hinfo) in Hj.
  destruct (decide (j < max_column sh)%nat) as [Hlt|]; [|done].
  injection Hj as <-. cbn [ci_file_index ci_index ci_name].
  split; [done|]. split; [lia|].
  assert (header_names sh !! j
          = Some (header_name (S j) (cell_value sh 1 (S j)))) as Hname.
  { rewrite header_names_lookup. by rewrite decide_True. }
  assert (is_Some (column_map_of sh !!
                     header_name (S j) (cell_value sh 1 (S j)))) as [idx Hidx].
  { apply column_map_of_is_Some. by eapply list_elem_of_lookup_2. }
  pose proof Hidx as (Hpos & Hat & Hlast)%column_map_of_spec.
  exists idx. split; [done|].
  destruct idx as [|i]; [lia|].
  replace (S i - 1)%nat with i in * by lia.
  assert (i < max_column sh)%nat as Hbound.
  { rewrite header_names_lookup in Hat.
    by destruct (decide (i < max_column sh)%nat). }
  assert (j < S i)%nat as Hj.
  { destruct (decide (j < S i)%nat) as [|Hge]; [done|].
    exfalso. apply (Hlast j); [lia|done]. }
  split; [lia|]. split.
  - rewrite header_names_lookup, decide_True in Hat by done.
    by injection Hat as Hat.
  - intros c' [j' Hj']%list_elem_of_lookup Heq.
    rewrite (load_file_info_lookup _ _ _ _ Hinfo) in Hj'.
    destruct (decide (j' < max_column sh)%nat) as [Hlt'|]; [|done].
    injection Hj' as <-. cbn [ci_index ci_name] in *.
    destruct (decide (S j' ≤ S i)%nat) as [|Hgt]; [done|].
    exfalso. apply (Hlast j'); [lia|].
    rewrite header_names_lookup, decide_True by done. f_equal. exact Heq.
Qed.

Lemma discovered_column_resolves_witness :
  let sh := [[VStr "A"; VStr "B"; VStr "A"]; [VInt 1; VInt 2; VInt 3]] in
  let c := {| ci_name := "A"; ci_index := 1; ci_file_index := 0 |} in
  ∃ info,
    load_file_info sh 0 = Ok info ∧ c ∈ columns info ∧
    ∃ idx, column_map_of sh !! ci_name c = Some idx ∧
           (ci_index c ≤ idx ≤ max_column sh)%nat.
Proof.
  intros sh c.
  destruct (discovered_column_resolves sh 0 ltac:(done))
    as (info & Hinfo & Hcols).
  exists info. split; [done|].
  assert (c ∈ columns info) as Hc.
  { vm_compute in Hinfo. injection Hinfo as <-. left. }
  split; [done|].
  destruct (Hcols c Hc) as (_ & _ & idx & Hidx & Hle & _).
  by exists idx.
Defined.

(** ** How an extraction ends *)

(** X9. The extractor polls the flag once per row of every column it copies.
    When no poll sees the flag set it returns, having opened the source,
    copied, reported, saved and, last, closed the source. When a poll sees
    the flag set it raises [TaskCancelledException]: nothing is saved, and
    the source workbook is left open. It raises nothing else. *)
Theorem extract_outcomes sh sel tok :
  let r := run tok (extract_columns sh sel) in
  let polls :=
    (length (omap (λ name, column_map_of sh !! name) sel) * max_row sh)%nat in
  match first_set tok 0 polls with
  | None =>
      run_outcome r = Ok tt ∧ run_polls r = polls ∧
      ∃ evs,
        run_events r =
          EOpen 0 :: evs
          ++ [EProgress {| current := 100; total := 100 |}; ESave; EClose 0] ∧
        (∀ i, EClose i ∉ evs) ∧ ESave ∉ evs
  | Some j =>
      run_outcome r = Raise TaskCancelledException ∧ run_polls r = S j ∧
      EOpen 0 ∈ run_events r ∧
      (∀ i, EClose i ∉ run_events r) ∧ ESave ∉ run_events r
  end.
Proof.
  intros r polls. subst r polls.
  destruct (extract_columns_script sh sel) as [Hs Hres].
  destruct (extract_loop_script sh (extract_column_map sh sel) (length sel)
              sel 1%nat) as (_ & _ & Hpolls & _ & Hq).
  cbv zeta in Hpolls, Hq. rewrite omap_extract_column_map in Hpolls.
  set (body := script (foldM (extract_column sh (extract_column_map sh sel)
                                (length sel)) sel 1%nat)) in *.
  set (post := [AEvent (EProgress {| current := 100; total := 100 |});
                AEvent ESave; AEvent (EClose 0)]) in *.
  change (AEvent (EOpen 0) :: body ++ post)
    with ([AEvent (EOpen 0)] ++ body ++ post) in Hs.
  assert (polls_of (script (extract_columns sh sel)) = polls_of body) as Hp.
  { rewrite Hs, !polls_of_app. simpl. lia. }
  rewrite <- Hpolls.
  destruct (first_set tok 0 (polls_of body)) as [j|] eqn:Hf.
  - apply first_set_Some in Hf as (Hj & Htj & Hlt).
    rewrite (run_cancelled_at tok (extract_columns sh sel) j); [|lia|done|].
    2:{ intros j' Hj'. apply Hlt. lia. }
    cbn [run_outcome run_events run_polls]. rewrite Hs.
    destruct (before_poll_shape [AEvent (EOpen 0)] body post j) as [-> _];
      [done|done|rewrite <- Hs; lia|].
    pose proof (Forall_quiet_prefix _ _ (before_poll_prefix j body) Hq) as Hq'.
    rewrite events_of_app. simpl. split_and!; [done|done|left| |].
    + intros i [[=]|Hin]%elem_of_cons. by apply (quiet_no_close _ i Hq').
    + intros [[=]|Hin]%elem_of_cons. by apply (quiet_no_save _ Hq').
  - rewrite first_set_None in Hf.
    rewrite run_not_cancelled.
    2:{ intros i Hi. apply Hf. lia. }
    cbn [run_outcome run_events run_polls]. split_and!; [done|done|].
    exists (events_of body). rewrite Hs, !events_of_app. split; [done|].
    split; [|by apply quiet_no_save]. intros i. by apply quiet_no_close.
Qed.

(** ** The order of emission *)

Section emission_sort.
Context (sel : list (nat * string)).

Lemma filter_none {A} (P : A → Prop) `{∀ x, Decision (P x)} (l : list A) :
  (∀ x, x ∈ l → ¬ P x) → filter P l = [].
Proof.
  induction l as [|x l IH]; intros Hl; [done|].
  rewrite filter_cons_False by (apply Hl; left).
  apply IH. intros y Hy. apply Hl. by right.
Qed.

Lemma filter_split_key k keys :
  k ∉ keys →
  filter (λ c : nat * string, c.1 = k) sel
    ++ filter (λ c, c.1 ∈ keys) sel
  ≡ₚ filter (λ c, c.1 ∈ k :: keys) sel.
Proof.
  intros Hk. induction sel as [|c l IH]; [done|].
  destruct (decide (c.1 = k)) as [Hck|Hck].
  - rewrite (filter_cons_True (λ c, c.1 = k)) by done.
    rewrite (filter_cons_False (λ c, c.1 ∈ keys)) by (by rewrite Hck).
    rewrite (filter_cons_True (λ c, c.1 ∈ k :: keys))
      by (rewrite Hck; left).
    simpl. by rewrite IH.
  - rewrite (filter_cons_False (λ c, c.1 = k)) by done.
    destruct (decide (c.1 ∈ keys)) as [Hin|Hin].
    + rewrite (filter_cons_True (λ c, c.1 ∈ keys)) by done.
      rewrite (filter_cons_True (λ c, c.1 ∈ k :: keys)) by (by right).
      rewrite <- Permutation_middle. by rewrite IH.
    + rewrite (filter_cons_False (λ c, c.1 ∈ keys)) by done.
      rewrite (filter_cons_False (λ c, c.1 ∈ k :: keys)); [done|].
      by intros [?|?]%elem_of_cons.
Qed.

Lemma concat_filter_perm keys :
  NoDup keys →
  concat ((λ k, filter (λ c : nat * string, c.1 = k) sel) <$> keys)
  ≡ₚ filter (λ c, c.1 ∈ keys) sel.
Proof.
  induction keys as [|k keys IH]; intros Hnd.
  - simpl. rewrite filter_none; [done|]. intros c _ Hc.
    by apply elem_of_nil in Hc.
  - apply NoDup_cons in Hnd as [Hk Hnd]. simpl.
    rewrite IH by done. by apply filter_split_key.
Qed.

Lemma concat_filter_sorted keys :
  StronglySorted le keys →
  StronglySorted (λ a b : nat * string, a.1 ≤ b.1)%nat
    (concat ((λ k, filter (λ c : nat * string, c.1 = k) sel) <$> keys)).
Proof.
  induction 1 as [|k keys Hs IH Hall]; simpl; [constructor|].
  apply StronglySorted_app_2; [| |done].
  - intros a b [Ha _]%list_elem_of_filter
               (l & Hb & (k' & -> & Hk')%list_elem_of_fmap)%elem_of_concat.
    apply list_elem_of_filter in Hb as [Hb _].
    rewrite Forall_forall in Hall. apply Hall in Hk'. lia.
  - assert (Forall (λ c : nat * string, c.1 = k)
              (filter (λ c : nat * string, c.1 = k) sel)) as Hf.
    { apply Forall_forall. by intros c [? _]%list_elem_of_filter. }
    induction Hf as [|c l Hc Hl IHl]; constructor; [done|].
    eapply Forall_impl; [exact Hl|]. simpl. intros. lia.
Qed.

Lemma concat_filter_stable keys fi :
  NoDup keys →
  filter (λ c : nat * string, c.1 = fi)
    (concat ((λ k, filter (λ c : nat * string, c.1 = k) sel) <$> keys)) =
  if decide (fi ∈ keys) then filter (λ c, c.1 = fi) sel else [].
Proof.
  induction keys as [|k keys IH]; intros Hnd.
  - destruct (decide (fi ∈ [])) as [Hin|]; [|done].
    by apply elem_of_nil in Hin.
  - apply NoDup_cons in Hnd as [Hk Hnd].
    cbn [fmap list_fmap concat]. rewrite filter_app, IH by done.
    destruct (decide (k = fi)) as [->|Hne].
    + destruct (decide (fi ∈ keys)) as [|_]; [done|].
      destruct (decide (fi ∈ fi :: keys)) as [_|Hno].
      * rewrite app_nil_r. apply filter_all.
        by intros c [? _]%list_elem_of_filter.
      * exfalso. apply Hno. left.
    + rewrite (filter_none (λ c, c.1 = fi)).
      2:{ intros c [Hc _]%list_elem_of_filter. congruence. }
      cbn [app]. destruct (decide (fi ∈ keys)) as [Hin|Hin];
        destruct (decide (fi ∈ k :: keys)) as [Hin'|Hin']; try done.
      * exfalso. apply Hin'. by right.
      * exfalso. apply elem_of_cons in Hin' as [?|?]; congruence.
Qed.

Lemma emission_order_Permutation : emission_order sel ≡ₚ sel.
Proof.
  unfold emission_order. rewrite concat_filter_perm.
  - apply reflexive_eq, filter_all. intros [fi name] Hc. cbn [fst].
    rewrite merge_sort_Permutation.
    apply group_by_file_keys. by exists name.
  - rewrite merge_sort_Permutation. apply group_by_file_NoDup.
Qed.

End emission_sort.

(** X10. The selected columns are emitted in the order of a stable sort of the
    selection by file index: [emission_order] is the order in which the
    loops of Step 5 run, it holds the selected columns, each as often as the
    selection does, with the file index never decreasing, and the columns of
    one file in the order of the selection. *)
Theorem emission_order_stable_sort (sel : list (nat * string)) :
  emission_order sel =
    concat ((λ fi, default [] (dict_get fi (group_by_file sel)))
              <$> merge_sort (≤)%nat (group_by_file sel).*1) ∧
  emission_order sel ≡ₚ sel ∧
  StronglySorted (λ a b : nat * string, a.1 ≤ b.1)%nat (emission_order sel) ∧
  ∀ fi, filter (λ c, c.1 = fi) (emission_order sel)
        = filter (λ c, c.1 = fi) sel.
Proof.
  set (keys := merge_sort (≤)%nat (group_by_file sel).*1).
  assert (NoDup keys) as Hnd.
  { unfold keys. rewrite merge_sort_Permutation. apply group_by_file_NoDup. }
  assert (∀ c, c ∈ sel → c.1 ∈ keys) as Hcover.
  { intros [fi name] Hc. unfold keys. rewrite merge_sort_Permutation.
    apply group_by_file_keys. by exists name. }
  split_and!.
  - by rewrite emission_order_alt.
  - apply emission_order_Permutation.
  - unfold emission_order. apply concat_filter_sorted.
    apply StronglySorted_merge_sort; apply _.
  - intros fi. unfold emission_order. fold keys.
    rewrite concat_filter_stable by done.
    destruct (decide (fi ∈ keys)) as [|Hno]; [done|].
    symmetry. apply filter_none. intros c Hc Hfi. apply Hno.
    rewrite <- Hfi. by apply Hcover.
Qed.

(** ** The cells of a column driven by a reference column *)

(** X11. The join a driven column performs. Take a merge that returns, and a
    selected column of a file that the reference column [R] drives and that
    holds a column [R]. In its output column, row 1 holds the header cell,
    and row [2 + i] answers to the [i]-th canonical key [k]: it holds the
    cell of the file's first row whose key is [k], and it is blank when no
    row of the file has the key [k]. *)
Theorem merge_driven_column_cells files sel refmap tok R rf shr cr
    fi name sh cR c :
  let r := run tok (merge_multiple_files files sel refmap) in
  run_outcome r = Ok tt →
  (fi, name) ∈ sel →
  driving_ref (filter (λ x, x.1 = fi) sel) refmap = Some R →
  files !! fi = Some sh →
  column_map_of sh !! R = Some cR → column_map_of sh !! name = Some c →
  refmap !! R = Some rf → files !! rf = Some shr →
  column_map_of shr !! R = Some cr →
  ∃ oc,
    out_cell (run_events r) 1 oc = cell_value sh 1 c ∧
    ∀ i k, (scan_keys shr cr).1 !! i = Some k →
      (∀ row, first_row sh cR k row →
              out_cell (run_events r) (2 + i) oc = cell_value sh row c) ∧
      ((∀ row, (2 ≤ row ≤ max_row sh)%nat → cell_value sh row cR ≠ k) →
       out_cell (run_events r) (2 + i) oc = VNone).
Proof.
  intros r Hok Hsel Hd Hfi HcR Hc Hrf Hshr Hcr.
  destruct (merge_column_written files sel refmap tok fi name sh c
              Hok Hsel Hfi Hc)
    as (rk & rk2r & m & t & oc & Href & Hmt & Hw & Honly).
  fold r in Hw, Honly.
  pose proof (merge_run_writes_NoDup files sel refmap tok) as Hnd.
  fold r in Hnd.
  destruct (build_reference_complete files refmap (rk, rk2r) R rf shr cr
              Href Hrf Hshr Hcr) as [Hkeys _]. cbn [fst] in Hkeys.
  destruct (row_mapping_core files refmap rk rk2r fi _ R sh cR _
              Href Hd Hfi HcR Hkeys)
    as (rf' & shr' & cr' & refd & m' & t' & _ & Hmt' & _ & Hcanon & _
        & Hconv & _).
  rewrite Hmt in Hmt'. injection Hmt' as <- <-.
  pose proof (file_row_mapping_inv _ _ _ _ _ _ _ Hmt) as (_ & Hndk & _).
  cbn [fst] in Hndk.
  exists oc. split.
  { apply (out_cell_unique _ (copied fi sh 1 c 1 oc) Hnd).
    apply Hw. left. }
  intros i k Hi. split.
  - intros row Hrow%scan_keys_first_row.
    apply (out_cell_unique _ (copied fi sh row c (2 + i) oc) Hnd).
    apply Hw. right. apply list_elem_of_fmap. exists (row, (2 + i)%nat).
    split; [done|]. apply dict_get_Some_elem. by apply (Hcanon i k row).
  - intros Habsent. apply out_cell_blank.
    intros (w & Heq & Hin)%list_elem_of_fmap.
    unfold dest in Heq. injection Heq as Hrow Hcol.
    assert (EWrite w ∈ run_events r) as Hev.
    { unfold writes_of in Hin.
      apply list_elem_of_omap in Hin as (e & He & Hew).
      destruct e; try done. by injection Hew as ->. }
    apply Honly in Hev; [|done].
    apply elem_of_cons in Hev as [->|([sr tr] & -> & Hen)%list_elem_of_fmap].
    { simpl in Hrow. lia. }
    simpl in Hrow. subst tr.
    apply (dict_get_NoDup _ _ _ Hndk) in Hen.
    destruct (Hconv sr _ Hen) as (k' & Hk' & [(i' & Hi' & Heq)|(j & _ & Heq)]).
    + assert (i' = i) as -> by lia.
      assert (k' = k) as -> by congruence.
      apply scan_keys_first_row in Hk' as (Hsr & Hval & _).
      by apply (Habsent sr).
    + apply lookup_lt_Some in Hi. lia.
Qed.

Lemma merge_driven_column_cells_witness :
  ∃ oc,
    out_cell scenario_events_with_B_ID 1 oc = VStr "Score" ∧
    out_cell scenario_events_with_B_ID 2 oc = VNone ∧
    out_cell scenario_events_with_B_ID 3 oc = VInt 90.
Proof.
  destruct (merge_driven_column_cells [file_A; file_B]
              [(0, "ID"); (0, "Name"); (1, "ID"); (1, "Score")]%nat
              {["ID" := 0%nat]} never "ID" 0%nat file_A 1%nat
              1%nat "Score" file_B 1%nat 2%nat)
    as (oc & Hh & Hrows); try (vm_compute; reflexivity).
  { repeat constructor. }
  exists oc. split; [exact Hh|]. split.
  - destruct (Hrows 0%nat (VInt 1) eq_refl) as [_ Hblank].
    apply Hblank. intros row Hrow.
    assert (row = 2 ∨ row = 3 ∨ row = 4)%nat as [->|[->| ->]]
      by (vm_compute in Hrow; lia); by vm_compute.
  - destruct (Hrows 1%nat (VInt 2) eq_refl) as [Hval _].
    apply (Hval 2%nat). apply scan_keys_first_row. vm_compute. reflexivity.
Defined.

(** ** The keys of the check boxes *)

Section key_facts.

Lemma digit_of_char x : (x < 10)%N → digit_of (pretty_N_char x) = Some x.
Proof.
  intros Hx.
  assert (x = 0 ∨ x = 1 ∨ x = 2 ∨ x = 3 ∨ x = 4 ∨ x = 5 ∨ x = 6 ∨ x = 7
          ∨ x = 8 ∨ x = 9)%N as Hcases by lia.
  repeat (destruct Hcases as [->|Hcases]; [done|]). by subst.
Qed.

Lemma digit_not_colon a d : digit_of a = Some d → Ascii.eqb a ":" = false.
Proof.
  destruct (Ascii.eqb_spec a ":") as [->|]; [|done]. by vm_compute.
Qed.

(** Reading the digits that [pretty] writes gives the number back. *)
Lemma digits_value_pretty_go x :
  ∃ m, (0 < m)%N ∧ (x < m)%N ∧
    ∀ s acc, digits_value acc (pretty_N_go x s)
             = digits_value (acc * m + x) s.
Proof.
  induction (N.lt_wf_0 x) as [x _ IH].
  destruct (decide (x = 0)%N) as [->|Hx].
  { exists 1%N. split_and!; [lia..|]. intros s acc.
    rewrite pretty_N_go_0. f_equal. lia. }
  destruct (IH (x `div` 10)%N) as (m & Hm & Hlt & Hgo).
  { apply N.div_lt; lia. }
  exists (m * 10)%N. split_and!; [lia| |].
  - pose proof (N.div_mod x 10 ltac:(lia)).
    pose proof (N.mod_lt x 10 ltac:(lia)). lia.
  - intros s acc. rewrite pretty_N_go_step by lia. rewrite Hgo.
    cbn [digits_value]. rewrite digit_of_char by (apply N.mod_lt; lia).
    simpl. f_equal.
    pose proof (N.div_mod x 10 ltac:(lia)). lia.
Qed.

Lemma digits_value_pretty (n : nat) :
  digits_value 0 (pretty n) = Some (N.of_nat n).
Proof.
  unfold pretty, pretty_nat, pretty, pretty_N.
  destruct (decide (N.of_nat n = 0)%N) as [->|Hn]; [done|].
  destruct (digits_value_pretty_go (N.of_nat n)) as (m & _ & _ & ->).
  simpl. f_equal.
Qed.

Lemma int_of_digits_pretty (n : nat) : int_of_digits (pretty n) = Some n.
Proof.
  unfold int_of_digits. rewrite digits_value_pretty. simpl.
  rewrite Nat2N.id.
  destruct (pretty n) eqn:Hp; [|done].
  by destruct (pretty_N_nonempty (N.of_nat n)).
Qed.

Lemma split_first_colon_digits d rest acc :
  is_Some (digits_value acc d) →
  split_first_colon (d +:+ ":" +:+ rest) = Some (d, rest).
Proof.
  revert acc. induction d as [|a d IH]; intros acc; simpl; [done|].
  destruct (digit_of a) as [v|] eqn:Hv; simpl; [|by intros [? [=]]].
  intros Hd. rewrite (digit_not_colon a v Hv).
  by rewrite (IH _ Hd).
Qed.

Lemma py_split_colon_var_key fi name :
  py_split_colon (var_key fi name) = [pretty fi; name].
Proof.
  unfold py_split_colon, var_key.
  rewrite (split_first_colon_digits _ _ 0%N); [done|].
  rewrite digits_value_pretty. eauto.
Qed.

Lemma parse_keys_round_trip (cols : list (nat * string)) :
  parse_keys ((λ c, var_key c.1 c.2) <$> cols) = Some cols.
Proof.
  induction cols as [|[fi name] cols IH]; [done|].
  cbn [fmap list_fmap parse_keys fst snd].
  rewrite py_split_colon_var_key, int_of_digits_pretty. simpl.
  fold (fmap (M := list) (λ c : nat * string, var_key c.1 c.2) cols).
  by rewrite IH.
Qed.

Lemma var_key_inj fi name fi' name' :
  var_key fi name = var_key fi' name' → fi = fi' ∧ name = name'.
Proof.
  intros Heq.
  pose proof (py_split_colon_var_key fi name) as H1.
  rewrite Heq, py_split_colon_var_key in H1.
  injection H1 as H1 H2. split; [|done].
  by apply (inj pretty).
Qed.

End key_facts.

(** X12. The key of a check box is read back as the file index and the column
    name it was made of, whatever the name holds, a colon included; so two
    boxes with one key belong to one file and one name. *)
Theorem parse_keys_var_key (cols : list (nat * string)) :
  parse_keys ((λ c, var_key c.1 c.2) <$> cols) = Some cols ∧
  ∀ fi name fi' name',
    var_key fi name = var_key fi' name' → fi = fi' ∧ name = name'.
Proof. split; [apply parse_keys_round_trip|apply var_key_inj]. Qed.

(** ** The window *)

Section dict_keys.
Context {K V : Type} `{EqDecision K}.
Implicit Types d : dict K V.

Lemma dict_set_keys k v d :
  (dict_set k v d).*1 = if decide (k ∈ d.*1) then d.*1 else d.*1 ++ [k].
Proof.
  induction d as [|[k0 v0] d IH].
  - case_decide as Hin; [|done]. by apply elem_of_nil in Hin.
  - cbn [dict_set]. destruct (decide (k = k0)) as [->|Hne].
    + rewrite !fmap_cons. cbn [fst].
      clear IH. case_decide as Hno; [done|]. destruct Hno. left.
    + rewrite !fmap_cons, IH. cbn [fst]. clear IH.
      destruct (decide (k ∈ d.*1)) as [Hin|Hin];
        destruct (decide (k ∈ k0 :: d.*1)) as [Hin'|Hin']; try done.
      * destruct Hin'. by right.
      * apply elem_of_cons in Hin' as [?|?]; done.
Qed.

Lemma dict_set_keys_elem k v d x :
  x ∈ (dict_set k v d).*1 ↔ x = k ∨ x ∈ d.*1.
Proof.
  rewrite dict_set_keys. destruct (decide (k ∈ d.*1)) as [Hin|Hin].
  - split; [by right|]. by intros [->|?].
  - rewrite elem_of_app, list_elem_of_singleton. tauto.
Qed.

Lemma dict_set_NoDup k v d : NoDup d.*1 → NoDup (dict_set k v d).*1.
Proof.
  intros Hnd. rewrite dict_set_keys.
  destruct (decide (k ∈ d.*1)) as [Hin|Hin]; [done|].
  apply NoDup_app. split_and!; [done| |apply NoDup_singleton].
  intros x Hx ->%list_elem_of_singleton. done.
Qed.

Lemma dict_fold_keys {A} (key : A → K) (val : A → V) (l : list A) d :
  let d' := foldl (λ d x, dict_set (key x) (val x) d) d l in
  (NoDup d.*1 → NoDup d'.*1) ∧
  ∀ k, k ∈ d'.*1 ↔ k ∈ d.*1 ∨ ∃ x, x ∈ l ∧ k = key x.
Proof.
  revert d. induction l as [|x l IH]; intros d; simpl.
  - split; [done|]. intros k. split; [by left|].
    intros [?|(x & Hx & _)]; [done|]. by apply elem_of_nil in Hx.
  - destruct (IH (dict_set (key x) (val x) d)) as [Hnd Hk]. split.
    + intros Hd. by apply Hnd, dict_set_NoDup.
    + intros k. rewrite Hk, dict_set_keys_elem. split.
      * intros [[->|?]|(y & Hy & ->)]; [right|by left|right].
        -- exists x. split; [left|done].
        -- exists y. split; [by right|done].
      * intros [?|(y & [->|Hy]%elem_of_cons & ->)];
          [by left; right|by left; left|right; eauto].
Qed.
End dict_keys.

Section window_facts.
Context (fs : string → option sheet).

Lemma update_column_list_ok infos :
  NoDup (update_column_list infos).*1 ∧
  ∀ key, key ∈ (update_column_list infos).*1 ↔
    ∃ info col, info ∈ infos ∧ col ∈ columns info.2 ∧
                key = var_key (ci_file_index col) (ci_name col).
Proof.
  unfold update_column_list.
  destruct (dict_fold_keys
              (λ col, var_key (ci_file_index col) (ci_name col))
              (λ _, false)
              (concat ((λ info, columns info.2) <$> infos)) [])
    as [Hnd Hk].
  split; [apply Hnd; constructor|].
  intros key. rewrite Hk. split.
  - intros [Hin|(col & Hcol & ->)]; [by apply elem_of_nil in Hin|].
    apply elem_of_concat in Hcol as (l & Hcol & Hl).
    apply list_elem_of_fmap in Hl as (info & -> & Hinfo). eauto.
  - intros (info & col & Hinfo & Hcol & ->). right. exists col.
    split; [|done]. apply elem_of_concat. exists (columns info.2).
    split; [done|]. apply list_elem_of_fmap. eauto.
Qed.

Lemma update_column_list_vars_ok infos :
  vars_ok {| file_infos := infos; column_vars := update_column_list infos |}.
Proof.
  destruct (update_column_list_ok infos) as [Hnd Hk].
  split; [done|]. intros key Hkey. by apply Hk.
Qed.

Lemma load_files_described file_paths infos files :
  files_described fs infos files →
  ∃ files',
    files_described fs (load_files fs file_paths infos).1 files' ∧
    infos `prefix_of` (load_files fs file_paths infos).1.
Proof.
  revert infos files.
  induction file_paths as [|p file_paths IH]; intros infos files Hd;
    cbn [load_files].
  { by exists files. }
  destruct (bool_decide (p ∈ infos.*1)) eqn:Hp.
  { by apply IH with files. }
  apply bool_decide_eq_false in Hp.
  destruct (fs p) as [sh|] eqn:Hfs; [|by exists files].
  cbv zeta.
  destruct (load_file_info sh (length infos)) as [info|e] eqn:Hload;
    [|by exists files].
  destruct Hd as (Hnd & Hlen & Hat).
  destruct (IH (infos ++ [(p, info)]) (files ++ [sh]))
    as (files' & Hd' & Hpre).
  - split_and!.
    + rewrite fmap_app. apply NoDup_app. split_and!; [done| |].
      * intros x Hx ->%list_elem_of_singleton. done.
      * apply NoDup_singleton.
    + rewrite !length_app. simpl. lia.
    + intros i sh' Hi.
      destruct (decide (i < length files)%nat) as [Hlt|Hge].
      * rewrite lookup_app_l in Hi by done.
        destruct (Hat i sh' Hi) as (path & info' & Hinfo & Hok & Hpath).
        exists path, info'. split_and!; [|done..].
        rewrite lookup_app_l; [done|lia].
      * rewrite lookup_app_r in Hi by lia.
        destruct (i - length files)%nat as [|?] eqn:Hdiff; [|done].
        injection Hi as <-. exists p, info. split_and!; [| |done].
        -- rewrite lookup_app_r by lia.
           by replace (i - length infos)%nat with 0%nat by lia.
        -- by replace i with (length infos) by lia.
  - exists files'. split; [done|]. etrans; [|done]. by apply prefix_app_r.
Qed.

Lemma NoDup_delete {A} (l : list A) i : NoDup l → NoDup (delete i l).
Proof.
  revert i. induction l as [|x l IH]; intros i Hnd; [done|].
  apply NoDup_cons in Hnd as [Hx Hnd].
  destruct i as [|i]; simpl; [done|].
  apply NoDup_cons. split; [|by apply IH].
  intros Hin. apply Hx. revert Hin. clear.
  revert i. induction l as [|y l IH]; intros i; [done|].
  destruct i as [|i]; simpl; [by right|].
  intros [->|Hin]%elem_of_cons; [left|right; eauto].
Qed.

Lemma pop_at_described infos files i :
  NoDup infos.*1 → Forall2 (described fs) infos files →
  NoDup (pop_at infos i).*1 ∧
  Forall2 (described fs) (pop_at infos i) (pop_at files i).
Proof.
  intros Hnd HF. unfold pop_at.
  rewrite <- (Forall2_length _ _ _ HF).
  destruct (decide (i < length infos)%nat); [|done]. split.
  - rewrite list_fmap_delete. by apply NoDup_delete.
  - by apply Forall2_delete.
Qed.

Lemma files_described_Forall2 infos files :
  files_described fs infos files → Forall2 (described fs) infos files.
Proof.
  intros (_ & Hlen & Hat). apply Forall2_same_length_lookup.
  split; [done|]. intros i info sh Hinfo Hsh.
  destruct (Hat i sh Hsh) as (path & info' & Hinfo' & Hok & Hpath).
  rewrite Hinfo in Hinfo'. injection Hinfo' as ->. split; [done|].
  by exists i.
Qed.

Lemma renumber_load sh i j path info :
  load_file_info sh j = Ok info →
  ∃ info', renumber i (path, info) = (path, info') ∧
           load_file_info sh i = Ok info'.
Proof.
  intros [Hsh ->]%load_file_info_inv.
  exists (file_info_of sh (row_cells sh 1) i).
  split; [|by apply load_file_info_returns].
  unfold renumber, file_info_of. cbn [fst snd columns total_rows].
  do 2 f_equal.
  rewrite <- list_fmap_compose. apply list_fmap_ext.
  by intros k [col_idx v] _.
Qed.

Lemma renumber_described infos files :
  NoDup infos.*1 → Forall2 (described fs) infos files →
  files_described fs (imap renumber infos) files.
Proof.
  intros Hnd HF. split_and!.
  - rewrite fmap_imap.
    rewrite (imap_ext _ (const fst)); [|done].
    by rewrite imap_const.
  - rewrite length_imap. symmetry. by eapply Forall2_length.
  - intros i sh Hsh.
    destruct (Forall2_lookup_r _ _ _ _ _ HF Hsh)
      as ([path info] & Hinfo & Hpath & j & Hj).
    simpl in *.
    destruct (renumber_load sh i j path info Hj) as (info' & Hren & Hok).
    exists path, info'. split_and!; [|done..].
    rewrite list_lookup_imap, Hinfo. simpl. by rewrite Hren.
Qed.

End window_facts.

Section window_steps.
Context (fs : string → option sheet).

Lemma vars_ok_keys ui ui' :
  (column_vars ui').*1 = (column_vars ui).*1 →
  (∀ info, info ∈ file_infos ui → info ∈ file_infos ui') →
  vars_ok ui → vars_ok ui'.
Proof.
  intros Hk Hf [Hnd Hkeys]. split; rewrite Hk; [done|].
  intros key Hkey. destruct (Hkeys key Hkey) as (info & col & ? & ? & ?).
  exists info, col. auto.
Qed.

Lemma foldl_pop_at_described idxs infos files :
  NoDup infos.*1 → Forall2 (described fs) infos files →
  NoDup (foldl pop_at infos idxs).*1 ∧
  Forall2 (described fs) (foldl pop_at infos idxs) (foldl pop_at files idxs).
Proof.
  revert infos files. induction idxs as [|i idxs IH]; intros infos files;
    simpl; [done|].
  intros Hnd HF.
  destruct (pop_at_described fs infos files i Hnd HF) as [Hnd' HF'].
  by apply IH.
Qed.

Lemma ui_step_inv ui a :
  (∃ files, ui_files fs ui files) → vars_ok ui →
  (∃ files', ui_files fs (ui_step fs ui a) files') ∧
  vars_ok (ui_step fs ui a).
Proof.
  intros [files Hfiles] Hvars. destruct a as [paths|idxs| | |key]; simpl.
  - unfold on_select_files. destruct paths as [|p paths]; [eauto|].
    destruct (load_files_described fs (p :: paths) (file_infos ui) files
                Hfiles) as (files' & Hd & Hpre).
    destruct (load_files fs (p :: paths) (file_infos ui))
      as [infos completed].
    cbn [fst] in Hd, Hpre. split; [by exists files'|].
    destruct completed; [apply update_column_list_vars_ok|].
    apply (vars_ok_keys ui); [done| |done].
    intros info Hinfo. destruct Hpre as [k ->].
    apply elem_of_app. by left.
  - unfold on_remove_file. destruct idxs as [|i idxs]; [eauto|].
    pose proof Hfiles as (Hnd & _).
    pose proof (files_described_Forall2 fs _ _ Hfiles) as HF.
    destruct (foldl_pop_at_described (reverse (i :: idxs)) _ _ Hnd HF)
      as [Hnd' HF'].
    split; [|apply update_column_list_vars_ok].
    eexists. by apply renumber_described.
  - split; [by exists files|].
    apply (vars_ok_keys ui); [|done|done]. simpl.
    rewrite <- list_fmap_compose. by apply list_fmap_ext.
  - split; [by exists files|].
    apply (vars_ok_keys ui); [|done|done]. simpl.
    rewrite <- list_fmap_compose. by apply list_fmap_ext.
  - split; [by exists files|].
    apply (vars_ok_keys ui); [|done|done]. simpl.
    destruct (dict_get key (column_vars ui)) as [state|] eqn:Hget; [|done].
    rewrite dict_set_keys, decide_True; [done|].
    apply dict_get_Some_elem in Hget.
    apply list_elem_of_fmap. by exists (key, state).
Qed.

End window_steps.

(** X13. The window keeps its shape whatever the user does. After any sequence
    of actions (files selected, loaded or failing to load, files removed,
    boxes checked and unchecked), the loaded files have distinct paths, the
    file at position [i] and its columns bear the file index [i] and are
    described as [load_file_info] describes the sheet at its path, no two
    check boxes have one key, and every check box is the box of a column of
    a loaded file. *)
Theorem ui_invariant fs actions :
  let ui := foldl (ui_step fs) ui_init actions in
  (∃ files, ui_files fs ui files) ∧ vars_ok ui.
Proof.
  induction actions as [|a actions IH] using rev_ind; simpl.
  - split.
    + exists []. split_and!; [constructor|done|]. by intros i sh.
    + split; [constructor|]. intros key Hkey. by apply elem_of_nil in Hkey.
  - rewrite foldl_app. simpl. destruct IH as [Hf Hv].
    by apply ui_step_inv.
Qed.

(** ** The export request *)

Section export_facts.

Lemma group_by_name_snoc sel f n :
  group_by_name (sel ++ [(f, n)]) =
  dict_set n (default [] (dict_get n (group_by_name sel)) ++ [(f, n)])
           (group_by_name sel).
Proof. unfold group_by_name. by rewrite foldl_app. Qed.

Lemma group_by_name_get sel name :
  dict_get name (group_by_name sel) =
  match filter (λ c, c.2 = name) sel with
  | [] => None
  | cols => Some cols
  end.
Proof.
  induction sel as [|[f n] sel IH] using rev_ind; [done|].
  rewrite group_by_name_snoc, dict_get_set, filter_app.
  destruct (decide (name = n)) as [->|Hne].
  - rewrite filter_cons_True by done. rewrite IH.
    by destruct (filter (λ c, c.2 = n) sel).
  - rewrite filter_cons_False by (simpl; congruence).
    rewrite filter_nil, app_nil_r. apply IH.
Qed.

Lemma group_by_name_NoDup sel : NoDup (group_by_name sel).*1.
Proof.
  induction sel as [|[f n] sel IH] using rev_ind; [constructor|].
  rewrite group_by_name_snoc. by apply dict_set_NoDup.
Qed.

Lemma NoDup_filter_keys {K V} (P : K * V → Prop) `{∀ x, Decision (P x)}
    (d : dict K V) :
  NoDup d.*1 → NoDup (filter P d).*1.
Proof.
  induction d as [|[k v] d IH]; [done|]. rewrite fmap_cons.
  intros [Hk Hnd]%NoDup_cons.
  destruct (decide (P (k, v))).
  - rewrite filter_cons_True by done. rewrite fmap_cons.
    apply NoDup_cons. split; [|by apply IH].
    intros ([k' v'] & Heq & [_ Hin]%list_elem_of_filter)%list_elem_of_fmap.
    simpl in Heq. subst k'. apply Hk.
    apply list_elem_of_fmap. by exists (k, v').
  - rewrite filter_cons_False by done. by apply IH.
Qed.

Lemma duplicate_columns_NoDup sel : NoDup (duplicate_columns sel).*1.
Proof. apply NoDup_filter_keys, group_by_name_NoDup. Qed.

Lemma duplicate_columns_elem sel name file_list :
  (name, file_list) ∈ duplicate_columns sel ↔
  file_list = filter (λ c, c.2 = name) sel ∧ (1 < length file_list)%nat.
Proof.
  unfold duplicate_columns. rewrite list_elem_of_filter. simpl. split.
  - intros [Hlen Hin]. split; [|done].
    apply dict_get_NoDup in Hin; [|apply group_by_name_NoDup].
    rewrite group_by_name_get in Hin.
    destruct (filter (λ c, c.2 = name) sel); [done|]. by injection Hin.
  - intros [-> Hlen]. split; [done|].
    apply dict_get_Some_elem. rewrite group_by_name_get.
    destruct (filter (λ c, c.2 = name) sel); [simpl in Hlen; lia|done].
Qed.

Lemma choose_references_spec choose n dups refmap0 refmap :
  NoDup dups.*1 →
  choose_references choose n dups refmap0 = Started refmap →
  (∀ name, name ∉ dups.*1 → refmap !! name = refmap0 !! name) ∧
  (∀ name file_list, (name, file_list) ∈ dups →
     ∃ rf, refmap !! name = Some rf ∧
           choose name file_list.*1 = Some rf).
Proof.
  revert refmap0. induction dups as [|[n0 l0] dups IH]; intros refmap0.
  { intros _ [= <-]. split; [done|]. intros ?? Hin.
    by apply elem_of_nil in Hin. }
  rewrite fmap_cons. intros [Hn0 Hnd]%NoDup_cons. cbn [choose_references].
  destruct (forallb _ _); [|done].
  destruct (choose n0 l0.*1) as [rf0|] eqn:Hch; [|done].
  intros Hrest. destruct (IH _ Hnd Hrest) as [Hout Hin]. split.
  - intros name [Hne Hname]%not_elem_of_cons.
    rewrite (Hout name Hname). by rewrite lookup_insert_ne.
  - intros name file_list [[= -> ->]|Hl]%elem_of_cons.
    + exists rf0. split; [|done].
      rewrite (Hout n0 Hn0). by rewrite lookup_insert_eq.
    + by apply Hin.
Qed.

Lemma NoDup_two {A} (l : list A) x y :
  x ∈ l → y ∈ l → x ≠ y → (1 < length l)%nat.
Proof.
  destruct l as [|a [|b l]]; simpl; [|intros Hx Hy Hne|lia].
  - by intros ?%elem_of_nil.
  - apply list_elem_of_singleton in Hx, Hy. congruence.
Qed.

Lemma two_of_NoDup {A} (l : list A) :
  NoDup l → (1 < length l)%nat → ∃ x y, x ∈ l ∧ y ∈ l ∧ x ≠ y.
Proof.
  destruct l as [|a [|b l]]; simpl; [lia|lia|].
  intros [Ha _]%NoDup_cons _. exists a, b. split_and!; [left|right; left|].
  intros ->. apply Ha. left.
Qed.

Lemma selected_keys_sub vars :
  NoDup vars.*1 →
  NoDup (selected_keys vars) ∧
  ∀ key, key ∈ selected_keys vars → key ∈ vars.*1.
Proof.
  intros Hnd. split; [by apply NoDup_filter_keys|].
  intros key ([k b] & -> & [_ Hin]%list_elem_of_filter)%list_elem_of_fmap.
  apply list_elem_of_fmap. by exists (k, b).
Qed.

Lemma keys_preimage (P : nat * string → Prop) keys :
  (∀ key, key ∈ keys → ∃ c, P c ∧ key = var_key c.1 c.2) →
  ∃ cols, keys = (λ c, var_key c.1 c.2) <$> cols ∧ Forall P cols.
Proof.
  induction keys as [|key keys IH]; intros H.
  { by exists []. }
  destruct (H key) as (c & Hc & ->); [left|].
  destruct IH as (cols & -> & Hcols).
  { intros k Hk. apply H. by right. }
  exists (c :: cols). split; [done|]. by constructor.
Qed.

End export_facts.

Section export_request.
Context (fs : string → option sheet) (ui : MainUI) (files : list sheet).
Hypothesis Hfiles : ui_files fs ui files.
Hypothesis Hvars : vars_ok ui.

Lemma listed_column_of_file info col :
  info ∈ file_infos ui → col ∈ columns info.2 →
  ∃ sh, files !! ci_file_index col = Some sh ∧
        ci_name col ∈ header_names sh.
Proof.
  intros [i Hi]%list_elem_of_lookup Hcol.
  destruct Hfiles as (_ & Hlen & Hat).
  destruct (lookup_lt_is_Some_2 files i) as [sh Hsh].
  { rewrite Hlen. by eapply lookup_lt_Some. }
  destruct (Hat i sh Hsh) as (path & info' & Hinfo & Hok & _).
  rewrite Hi in Hinfo. injection Hinfo as ->. cbn [snd] in Hcol.
  assert (ci_file_index col = i) as ->.
  { apply list_elem_of_lookup in Hcol as [j Hj].
    rewrite (load_file_info_lookup _ _ _ _ Hok) in Hj.
    destruct (decide (j < max_column sh)%nat); [|done].
    by injection Hj as <-. }
  exists sh. split; [done|].
  rewrite <- (load_file_info_names sh i info' Hok).
  apply list_elem_of_fmap. by exists col.
Qed.

Lemma selected_columns_listed :
  ∃ cols,
    selected_keys (column_vars ui) = (λ c, var_key c.1 c.2) <$> cols ∧
    NoDup cols ∧
    Forall (λ c, ∃ sh, files !! c.1 = Some sh ∧ c.2 ∈ header_names sh) cols.
Proof.
  destruct Hvars as [Hnd Hkeys].
  destruct (selected_keys_sub _ Hnd) as [Hnd' Hsub].
  destruct (keys_preimage
              (λ c, ∃ sh, files !! c.1 = Some sh ∧ c.2 ∈ header_names sh)
              (selected_keys (column_vars ui))) as (cols & Heq & Hcols).
  { intros key Hkey%Hsub.
    destruct (Hkeys key Hkey) as (info & col & Hinfo & Hcol & ->).
    exists (ci_file_index col, ci_name col). split; [|done].
    by apply (listed_column_of_file info). }
  exists cols. split; [done|]. split; [|done].
  rewrite Heq in Hnd'. by apply NoDup_fmap_1 in Hnd'.
Qed.

End export_request.

(** X14. What the export hands to the merge. From a window in the shape the
    handlers keep, with dialogs that return one of the files they offer, an
    export that starts the task has read its keys as distinct columns of
    loaded files; its reference map has an entry exactly for the names
    selected in two files or more, and the entry is one of those files; the
    merge called with them fails no lookup; and, the cancellation flag never
    set, the one call the task runner schedules is [on_complete] applied to
    the result. *)
Theorem export_well_formed fs ui files choose output_path sel refmap :
  ui_files fs ui files → vars_ok ui →
  (∀ name options rf, choose name options = Some rf → rf ∈ options) →
  on_export choose output_path ui = Started (sel, refmap) →
  NoDup sel ∧
  (∀ fi name, (fi, name) ∈ sel →
     ∃ sh, files !! fi = Some sh ∧ name ∈ header_names sh) ∧
  (∀ name, is_Some (refmap !! name) ↔
     ∃ fi1 fi2, fi1 ≠ fi2 ∧ (fi1, name) ∈ sel ∧ (fi2, name) ∈ sel) ∧
  (∀ name rf, refmap !! name = Some rf → (rf, name) ∈ sel) ∧
  result (merge_multiple_files files sel refmap) = Ok tt ∧
  ∀ {C} (on_complete : unit → C) on_error on_cancelled,
    run_task never (merge_multiple_files files sel refmap)
      (Some on_complete) (Some on_error) (Some on_cancelled)
    = [Ok (on_complete tt)].
Proof.
  intros Hfiles Hvars Hchoose. unfold on_export.
  destruct (file_infos ui) as [|info0 infos] eqn:Hinfos; [done|].
  rewrite <- Hinfos.
  destruct (selected_columns_listed fs ui files Hfiles Hvars)
    as (cols & Hkeys & Hnd & Hcols).
  destruct (selected_keys (column_vars ui)) as [|k0 keys] eqn:Hskeys; [done|].
  rewrite Hkeys, parse_keys_round_trip.
  destruct (choose_references choose (length (file_infos ui))
              (duplicate_columns cols) ∅) as [| |refmap'] eqn:Hrefs;
    [done..|].
  destruct (decide (output_path = EmptyString)); [done|].
  intros [= <- <-].
  destruct (choose_references_spec _ _ _ _ _
              (duplicate_columns_NoDup cols) Hrefs) as [Hout Hin].
  rewrite Forall_forall in Hcols.
  assert (Hentry : ∀ name rf, refmap' !! name = Some rf →
            (rf, name) ∈ cols ∧ (1 < length (filter (λ c, c.2 = name) cols))%nat).
  { intros name rf Hrf.
    destruct (decide (name ∈ (duplicate_columns cols).*1)) as [Hd|Hd].
    - apply list_elem_of_fmap in Hd as ([nm l] & -> & Hl). cbn [fst] in *.
      destruct (Hin nm l Hl) as (rf' & Hrf' & Hch).
      apply duplicate_columns_elem in Hl as [-> Hlen].
      split; [|done].
      rewrite Hrf in Hrf'. injection Hrf' as <-.
      apply Hchoose in Hch.
      apply list_elem_of_fmap in Hch as ([f n'] & -> & Hf).
      apply list_elem_of_filter in Hf as [Hn' Hf]. simpl in Hn'. by subst n'.
    - rewrite (Hout name Hd), lookup_empty in Hrf. done. }
  assert (Hsel : ∀ fi name, (fi, name) ∈ cols →
            ∃ sh, files !! fi = Some sh ∧ name ∈ header_names sh).
  { intros fi name Hc. by apply (Hcols (fi, name)). }
  assert (Hret : result (merge_multiple_files files cols refmap') = Ok tt).
  { apply well_formed_returns. split_and!.
    + intros name rf Hrf. destruct (Hentry name rf Hrf) as [Hc _].
      destruct (Hsel _ _ Hc) as (sh & Hsh & _).
      by apply lookup_lt_Some in Hsh.
    + intros fi name Hc. destruct (Hsel _ _ Hc) as (sh & Hsh & _).
      by apply lookup_lt_Some in Hsh.
    + intros fi name R _ Hd.
      apply driving_ref_Some in Hd as ([rf Hrf] & _).
      destruct (Hentry R rf Hrf) as [Hc _].
      destruct (Hsel _ _ Hc) as (sh & Hsh & Hname).
      by exists rf, sh. }
  split_and!; [done|done| | |done|].
  - intros name. split.
    + intros [rf Hrf]. destruct (Hentry name rf Hrf) as [_ Hlen].
      destruct (two_of_NoDup (filter (λ c, c.2 = name) cols))
        as ([f1 n1] & [f2 n2] & H1 & H2 & Hne); [by apply NoDup_filter|done|].
      apply list_elem_of_filter in H1 as [Hn1 H1].
      apply list_elem_of_filter in H2 as [Hn2 H2].
      simpl in Hn1, Hn2. subst n1 n2.
      exists f1, f2. split_and!; [congruence|done..].
    + intros (f1 & f2 & Hne & H1 & H2).
      assert ((name, filter (λ c, c.2 = name) cols)
                ∈ duplicate_columns cols) as Hd.
      { apply duplicate_columns_elem. split; [done|].
        apply (NoDup_two _ (f1, name) (f2, name));
          [by apply list_elem_of_filter..|congruence]. }
      destruct (Hin _ _ Hd) as (rf & -> & _). eauto.
  - intros name rf Hrf. by destruct (Hentry name rf Hrf).
  - intros C on_complete on_error on_cancelled. unfold run_task.
    rewrite run_not_cancelled by done. cbn [run_outcome run_polls].
    by rewrite Hret.
Qed.

Lemma export_well_formed_witness :
  on_export first_option "out.xlsx" ui_example =
    Started ([(0, "ID"); (0, "Name"); (1, "ID"); (1, "Score")]%nat,
             {["ID" := 0%nat]}) ∧
  run_task never
    (merge_multiple_files [file_A; file_B]
       [(0, "ID"); (0, "Name"); (1, "ID"); (1, "Score")]%nat
       {["ID" := 0%nat]})
    (Some (λ _ : unit, 1%nat)) (Some (λ _, 2%nat)) (Some 3%nat)
    = [Ok 1%nat].
Proof.
  assert (on_export first_option "out.xlsx" ui_example =
            Started ([(0, "ID"); (0, "Name"); (1, "ID"); (1, "Score")]%nat,
                     {["ID" := 0%nat]})) as Hexp
    by (vm_compute; reflexivity).
  split; [exact Hexp|].
  apply (λ H1 H2 H3,
           proj2 (proj2 (proj2 (proj2 (proj2
             (export_well_formed fs_example ui_example [file_A; file_B]
                first_option "out.xlsx" _ _ H1 H2 H3 Hexp)))))
             nat (λ _ : unit, 1%nat) (λ _, 2%nat) 3%nat).
  - split_and!.
    + apply (bool_decide_unpack _). vm_compute. exact I.
    + reflexivity.
    + intros [|[|i]] sh; simpl; intros [= <-].
      * exists "a.xlsx", (file_info_of file_A (row_cells file_A 1) 0).
        split_and!; vm_compute; reflexivity.
      * exists "b.xlsx", (file_info_of file_B (row_cells file_B 1) 1).
        split_and!; vm_compute; reflexivity.
  - split.
    + apply (bool_decide_unpack _). vm_compute. exact I.
    + intros key Hkey. vm_compute in Hkey.
      repeat (apply elem_of_cons in Hkey as [->|Hkey]);
        [..|by apply elem_of_nil in Hkey].
      * exists ("a.xlsx", file_info_of file_A (row_cells file_A 1) 0),
          {| ci_name := "ID"; ci_index := 1; ci_file_index := 0 |}.
        split_and!; [vm_compute; left|vm_compute; left|vm_compute; reflexivity].
      * exists ("a.xlsx", file_info_of file_A (row_cells file_A 1) 0),
          {| ci_name := "Name"; ci_index := 2; ci_file_index := 0 |}.
        split_and!; [vm_compute; left|vm_compute; right; left
                    |vm_compute; reflexivity].
      * exists ("b.xlsx", file_info_of file_B (row_cells file_B 1) 1),
          {| ci_name := "ID"; ci_index := 1; ci_file_index := 1 |}.
        split_and!; [vm_compute; right; left|vm_compute; left
                    |vm_compute; reflexivity].
      * exists ("b.xlsx", file_info_of file_B (row_cells file_B 1) 1),
          {| ci_name := "Score"; ci_index := 2; ci_file_index := 1 |}.
        split_and!; [vm_compute; right; left|vm_compute; right; left
                    |vm_compute; reflexivity].
  - intros name [|o options] rf; [done|]. intros [= ->]. left.
Defined.

(** ** The executor and its tokens *)

Section executor_facts.

Lemma executor_step_inv ex op :
  executor_inv ex → executor_inv (executor_step ex op).
Proof.
  unfold executor_inv. destruct op; simpl.
  - intros _. rewrite length_app. simpl. lia.
  - unfold executor_cancel.
    destruct (cancellation_token ex) as [t|] eqn:Ht; simpl.
    + intros Hlen. unfold token_cancel. by rewrite length_insert.
    + by rewrite Ht.
Qed.

Lemma executor_steps_inv ex ops :
  executor_inv ex → executor_inv (foldl executor_step ex ops).
Proof.
  revert ex. induction ops as [|op ops IH]; intros ex Hex; simpl; [done|].
  by apply IH, executor_step_inv.
Qed.

(** Later operations leave alone every token but the last one created. *)
Lemma executor_steps_earlier ex ops i :
  executor_inv ex → (S i < length (tokens ex))%nat →
  tokens (foldl executor_step ex ops) !! i = tokens ex !! i.
Proof.
  revert ex. induction ops as [|op ops IH]; intros ex Hex Hi; simpl; [done|].
  rewrite IH.
  - destruct op; simpl.
    + rewrite lookup_app_l; [done|lia].
    + unfold executor_cancel, executor_inv in *.
      destruct (cancellation_token ex) as [t|]; [|done].
      simpl. unfold token_cancel. rewrite list_lookup_insert_ne; [done|lia].
  - by apply executor_step_inv.
  - destruct op; simpl.
    + rewrite length_app. simpl. lia.
    + unfold executor_cancel.
      destruct (cancellation_token ex) as [t|]; [|done].
      simpl. unfold token_cancel. by rewrite length_insert.
Qed.

Lemma executor_steps_monotone ex ops i :
  tokens ex !! i = Some true →
  tokens (foldl executor_step ex ops) !! i = Some true.
Proof.
  revert ex. induction ops as [|op ops IH]; intros ex Hi; simpl; [done|].
  apply IH. destruct op; simpl.
  - rewrite lookup_app_l; [done|]. by eapply lookup_lt_Some.
  - unfold executor_cancel.
    destruct (cancellation_token ex) as [t|]; [|done].
    simpl. unfold token_cancel.
    destruct (decide (t = i)) as [->|Hne].
    + rewrite list_lookup_insert_eq; [done|]. by eapply lookup_lt_Some.
    + by rewrite list_lookup_insert_ne.
Qed.

End executor_facts.

(** X15. What [cancel] reaches. Let a task start after any operations [ops1] of
    the executor, and let any operations [ops2] follow. A token created
    before the task started is never touched again: a task started earlier
    can no longer be cancelled through the executor. The token of the task
    is set exactly when the operation that follows its start is a [cancel];
    once another [execute] has come, it is out of reach. A flag that is set
    is never reset. *)
Theorem executor_cancel_scope ops1 ops2 :
  let ex1 := foldl executor_step executor_new ops1 in
  let t := length (tokens ex1) in
  let ex2 := foldl executor_step (execute_token ex1) ops2 in
  (∀ i, (i < t)%nat → tokens ex2 !! i = tokens ex1 !! i) ∧
  token_is_cancelled t (tokens ex2) = bool_decide (head ops2 = Some Cancel) ∧
  (∀ i ops3, tokens ex2 !! i = Some true →
             tokens (foldl executor_step ex2 ops3) !! i = Some true).
Proof.
  intros ex1 t ex2.
  assert (executor_inv ex1) as Hinv1 by by apply executor_steps_inv.
  assert (executor_inv (execute_token ex1)) as Hinv2
    by apply (executor_step_inv ex1 Execute Hinv1).
  split_and!.
  - intros i Hi. unfold ex2. rewrite executor_steps_earlier; [|done|].
    + simpl. by rewrite lookup_app_l.
    + simpl. rewrite length_app. simpl. fold t. lia.
  - unfold ex2, token_is_cancelled. destruct ops2 as [|[] ops2]; simpl.
    + rewrite lookup_app_r by done. fold t.
      by replace (t - t)%nat with 0%nat by lia.
    + rewrite executor_steps_earlier.
      * simpl. rewrite lookup_app_l by (rewrite length_app; simpl; lia).
        rewrite lookup_app_r by done. fold t.
        by replace (t - t)%nat with 0%nat by lia.
      * apply (executor_step_inv _ Execute Hinv2).
      * simpl. rewrite !length_app. simpl. fold t. lia.
    + rewrite executor_steps_monotone; [done|].
      unfold executor_cancel. simpl. unfold token_cancel. fold t.
      rewrite list_lookup_insert_eq; [done|].
      rewrite length_app. simpl. fold t. lia.
  - intros i ops3. apply executor_steps_monotone.
Qed.

(** ** The progress a merge reports *)

Section progress_facts.

Lemma progress_of_app e1 e2 :
  progress_of (e1 ++ e2) = progress_of e1 ++ progress_of e2.
Proof. unfold progress_of. by rewrite omap_app. Qed.

Lemma emit_rows_progress fi sh c oc (m : dict nat nat) :
  progress_of (events_of (script (forM m (emit_row fi sh c oc)))) = [].
Proof.
  destruct (forM_script m (emit_row fi sh c oc)) as [-> _].
  { intros en _. by destruct en. }
  induction m as [|[sr tr] m IH]; [done|]. done.
Qed.

Lemma opens_progress n : progress_of (events_of (opens n)) = [].
Proof. rewrite opens_events. by induction (seq 0 n). Qed.

Lemma closes_progress n :
  progress_of (events_of (closes_and_save n)) =
  [{| current := 100; total := 100 |}].
Proof.
  rewrite closes_events, progress_of_app. simpl.
  by induction (seq 0 n).
Qed.

End progress_facts.

Section emit_progress.
Context (files : list sheet) (rm : gmap nat (dict nat nat)).
Context (total_cols : nat).

Let emit_col (st : nat * nat) (col : nat * string) : M (nat * nat) :=
  emit_column files (column_map_of <$> files) rm total_cols col.1 st col.

Let tick (entry : nat * (nat * string)) : option TaskProgress :=
  _ ← files !! entry.2.1 ≫= (λ sh, column_map_of sh !! entry.2.2);
  Some {| current := Z.of_nat entry.1; total := Z.of_nat total_cols |}.

Lemma emit_cols_progress order oc pc :
  (∀ col, col ∈ order → is_Some (files !! col.1) ∧ is_Some (rm !! col.1)) →
  progress_of (events_of (script (foldM emit_col order (oc, pc)))) =
    omap tick (enumerate (S pc) order).
Proof.
  revert oc pc. induction order as [|[fi name] order IH]; intros oc pc H.
  { done. }
  destruct (H (fi, name)) as [[sh Hsh] [m Hm]]; [left|].
  cbn [fst snd] in Hsh, Hm.
  assert (Hrest : ∀ col, col ∈ order →
            is_Some (files !! col.1) ∧ is_Some (rm !! col.1)).
  { intros col Hcol. apply H. by right. }
  cbn [foldM enumerate omap list_omap]. rewrite script_bind.
  pose proof (emit_column_result files rm total_cols fi oc pc (fi, name))
    as Hres.
  cbn [fst snd] in Hres. rewrite Hsh, Hm in Hres.
  assert (Htick : tick (S pc, (fi, name)) =
                  match column_map_of sh !! name with
                  | Some _ => Some {| current := Z.of_nat (S pc);
                                      total := Z.of_nat total_cols |}
                  | None => None
                  end).
  { unfold tick. cbn [fst snd]. rewrite Hsh. simpl.
    by destruct (column_map_of sh !! name). }
  rewrite Htick.
  change (emit_col (oc, pc) (fi, name))
    with (emit_column files (column_map_of <$> files) rm total_cols fi
            (oc, pc) (fi, name)).
  rewrite events_of_app, progress_of_app.
  destruct (emit_column_cases files rm total_cols fi oc pc (fi, name))
    as [(sh' & c & m' & (Hsh' & Hc & Hm') & Hs & Hr)|[Hs Hno]];
    cbn [fst snd] in *.
  - assert (sh' = sh) as -> by congruence.
    assert (m' = m) as -> by congruence.
    rewrite Hc, Hr, Hs. rewrite (IH (S oc) (S pc) Hrest).
    rewrite !events_of_app, !progress_of_app, emit_rows_progress. done.
  - destruct (column_map_of sh !! name) as [[|c]|] eqn:Hc.
    + by apply column_map_of_positive in Hc as [? [=]].
    + exfalso. by apply (Hno sh (S c) m).
    + rewrite Hres, Hs. by rewrite (IH oc (S pc) Hrest).
Qed.

End emit_progress.

(** X16. The progress a merge reports. A merge that returns has reported one
    tick for each emitted column, then the tick (100, 100) before it saves.
    The tick of a column counts the selected columns taken up to it, the
    skipped ones included, out of the number of selected columns; every
    tick is positive and none exceeds its total. *)
Theorem merge_progress files sel refmap tok :
  let r := run tok (merge_multiple_files files sel refmap) in
  run_outcome r = Ok tt →
  progress_of (run_events r) =
    omap (λ entry : nat * (nat * string),
            _ ← files !! entry.2.1 ≫= (λ sh, column_map_of sh !! entry.2.2);
            Some {| current := Z.of_nat entry.1;
                    total := Z.of_nat (length sel) |})
         (enumerate 1 (emission_order sel))
    ++ [{| current := 100; total := 100 |}] ∧
  ∀ p, p ∈ progress_of (run_events r) → 0 < current p <= total p.
Proof.
  intros r Hok. subst r. apply run_ok in Hok as [Hres ->].
  destruct (merge_cases files sel refmap)
    as [(e & _ & _ & Hr)|[(rk & rk2r & e & _ & _ & _ & Hr)|
        (rk & rk2r & rm & frc & Href & Hrm & Hs & Hr)]];
    [congruence..|].
  cbv zeta in Hs, Hr.
  assert (Hemit : ∃ st, result (emit files (column_map_of <$> files) rm
                                  (length sel) (group_by_file sel)) = Ok st).
  { destruct (result (emit _ _ _ _ _)) eqn:He; [eauto|congruence]. }
  destruct Hemit as [st Hst]. rewrite Hst in Hs.
  assert (Hlist : progress_of
            (events_of (script (merge_multiple_files files sel refmap))) =
          omap (λ entry : nat * (nat * string),
                  _ ← files !! entry.2.1
                        ≫= (λ sh, column_map_of sh !! entry.2.2);
                  Some {| current := Z.of_nat entry.1;
                          total := Z.of_nat (length sel) |})
               (enumerate 1 (emission_order sel))
          ++ [{| current := 100; total := 100 |}]).
  { rewrite Hs, !events_of_app, !progress_of_app.
    rewrite opens_progress, closes_progress. cbn [app]. f_equal.
    unfold emit.
    destruct (emit_file_flat files rm (length sel) (group_by_file sel)
                (merge_sort (≤)%nat (group_by_file sel).*1) (1%nat, 0%nat))
      as [-> _].
    - intros fi Hfi. rewrite merge_sort_Permutation in Hfi.
      destruct (dict_get fi (group_by_file sel)) eqn:Hg; [done|].
      by apply dict_get_None_keys in Hg.
    - intros fi cols col Hg%dict_get_Some_elem Hcol.
      apply group_by_file_elem in Hg as ->.
      by apply list_elem_of_filter in Hcol as [? _].
    - rewrite (emission_order_alt sel).
      apply emit_cols_progress.
      intros [fi name] Hcol. cbn [fst].
      apply (proj1 (elem_of_emission_order sel (fi, name))) in Hcol.
      apply (group_by_file_of sel) in Hcol.
      destruct (build_row_mapping_in_range files refmap rk rk2r
                  (group_by_file sel) (rm, frc) fi _ Hrm Hcol)
        as (Hlt & _ & Hm).
      split; [by apply lookup_lt_is_Some_2|done]. }
  split; [done|].
  intros p. rewrite Hlist, elem_of_app, list_elem_of_singleton.
  intros [Hp| ->]; [|simpl; lia].
  apply list_elem_of_omap in Hp as ([k col] & Hin & Htick).
  apply list_elem_of_lookup in Hin as [j Hj].
  rewrite enumerate_lookup in Hj.
  destruct (emission_order sel !! j) as [col'|] eqn:Hcol; [|done].
  injection Hj as <- <-.
  apply lookup_lt_Some in Hcol.
  rewrite (Permutation_length (emission_order_Permutation sel)) in Hcol.
  cbn [fst snd] in Htick.
  destruct (files !! col'.1 ≫= _); [|done].
  injection Htick as <-. simpl. lia.
Qed.

Lemma merge_progress_witness :
  progress_of scenario_events =
    [{| current := 1; total := 3 |}; {| current := 2; total := 3 |};
     {| current := 3; total := 3 |}; {| current := 100; total := 100 |}].
Proof.
  destruct (merge_progress [file_A; file_B]
              [(0, "ID"); (0, "Name"); (1, "Score")]%nat {["ID" := 0%nat]}
              never) as [Hp _]; [vm_compute; reflexivity|].
  unfold scenario_events. rewrite Hp. vm_compute. reflexivity.
Defined.

(** ** Loading files *)

Section load_facts.
Context (fs : string → option sheet).

Lemma load_files_completes file_paths infos :
  (∀ p, p ∈ file_paths →
        p ∈ infos.*1 ∨ ∃ sh, fs p = Some sh ∧ sh ≠ []) →
  (load_files fs file_paths infos).2 = true ∧
  ∀ p, p ∈ file_paths ∨ p ∈ infos.*1 →
       p ∈ (load_files fs file_paths infos).1.*1.
Proof.
  revert infos. induction file_paths as [|q file_paths IH]; intros infos H.
  { split; [done|]. intros p [Hp|Hp]; [by apply elem_of_nil in Hp|done]. }
  cbn [load_files].
  destruct (bool_decide (q ∈ infos.*1)) eqn:Hq.
  - apply bool_decide_eq_true in Hq.
    destruct (IH infos) as [Hok Hin].
    { intros p Hp. apply H. by right. }
    split; [done|]. intros p [[->|Hp]%elem_of_cons|Hp]; apply Hin; auto.
  - apply bool_decide_eq_false in Hq.
    destruct (H q) as [?|(sh & Hsh & Hne)]; [left|done|]. rewrite Hsh.
    cbv zeta. rewrite (load_file_info_returns sh _ Hne).
    destruct (IH (infos ++ [(q, file_info_of sh (row_cells sh 1)
                                  (length infos))]))
      as [Hok Hin].
    { intros p Hp. destruct (H p) as [Hl|Hr]; [by right| |by right].
      left. rewrite fmap_app. apply elem_of_app. by left. }
    split; [done|]. intros p Hp. apply Hin.
    rewrite fmap_app, elem_of_app. simpl. rewrite list_elem_of_singleton.
    destruct Hp as [[->|Hp]%elem_of_cons|Hp]; auto.
Qed.

Lemma load_files_fails file_paths infos p :
  p ∈ file_paths → p ∉ infos.*1 → fs p = None ∨ fs p = Some [] →
  (load_files fs file_paths infos).2 = false ∧
  p ∉ (load_files fs file_paths infos).1.*1.
Proof.
  revert infos. induction file_paths as [|q file_paths IH];
    intros infos Hp Hnew Hfs.
  { by apply elem_of_nil in Hp. }
  cbn [load_files].
  destruct (bool_decide (q ∈ infos.*1)) eqn:Hq.
  - apply bool_decide_eq_true in Hq.
    apply elem_of_cons in Hp as [->|Hp]; [done|]. by apply IH.
  - apply bool_decide_eq_false in Hq.
    destruct (fs q) as [sh|] eqn:Hsh; [|done]. cbv zeta.
    destruct (load_file_info sh (length infos)) as [info|e] eqn:Hload;
      [|done].
    assert (p ≠ q) as Hpq.
    { intros ->. destruct Hfs as [Hfs|Hfs]; [congruence|].
      rewrite Hsh in Hfs. injection Hfs as ->.
      by rewrite load_file_info_empty in Hload. }
    apply elem_of_cons in Hp as [->|Hp]; [done|].
    apply IH; [done| |done].
    rewrite fmap_app, elem_of_app. simpl. rewrite list_elem_of_singleton.
    intros [?| ->]; done.
Qed.

Lemma update_column_list_unchecked infos :
  Forall (λ kv, kv.2 = false) (update_column_list infos).
Proof.
  unfold update_column_list.
  generalize (concat ((λ info, columns info.2) <$> infos)).
  assert (Forall (λ kv : string * bool, kv.2 = false) []) as Hnil
    by constructor.
  revert Hnil. generalize (@nil (string * bool)).
  intros vars Hvars cols. revert vars Hvars.
  induction cols as [|col cols IH]; intros vars Hvars; simpl; [done|].
  apply IH. clear IH.
  induction vars as [|[k v] vars IHv]; simpl.
  - by repeat constructor.
  - apply Forall_cons in Hvars as [Hv Hvars].
    destruct (decide (_ = k)); constructor; auto.
Qed.

End load_facts.

(** X17. How [_on_select_files] ends. A path loads when its workbook opens and
    its sheet holds a cell. When every selected path is loaded already or
    loads, every selected path is among the loaded files, and the column
    list is rebuilt from them, every box unchecked: what was checked before
    is checked no more. When a selected path that is not loaded yet fails
    to load, its workbook not opening or its sheet holding no cell, it is
    not among the loaded files, and the column list is left as it was: the
    files loaded before the failure have no check box. In both cases the
    files loaded before stay, at their positions. *)
Theorem select_files_outcomes fs file_paths ui :
  let ui' := on_select_files fs file_paths ui in
  file_infos ui `prefix_of` file_infos ui' ∧
  (file_paths ≠ [] →
   (∀ p, p ∈ file_paths →
         p ∈ (file_infos ui).*1 ∨ ∃ sh, fs p = Some sh ∧ sh ≠ []) →
   (∀ p, p ∈ file_paths → p ∈ (file_infos ui').*1) ∧
   column_vars ui' = update_column_list (file_infos ui') ∧
   Forall (λ kv, kv.2 = false) (column_vars ui')) ∧
  (∀ p, p ∈ file_paths → p ∉ (file_infos ui).*1 →
        fs p = None ∨ fs p = Some [] →
        column_vars ui' = column_vars ui ∧ p ∉ (file_infos ui').*1).
Proof.
  intros ui'. subst ui'. unfold on_select_files.
  destruct file_paths as [|q file_paths].
  { split; [done|]. split; [done|]. intros p Hp. by apply elem_of_nil in Hp. }
  set (paths := q :: file_paths).
  split_and!.
  - destruct (load_files fs paths (file_infos ui)) as [infos ok] eqn:Hl.
    simpl.
    assert (infos = (load_files fs paths (file_infos ui)).1) as ->
      by by rewrite Hl.
    clear. generalize (file_infos ui). induction paths as [|p paths IH];
      intros infos; cbn [load_files]; [done|].
    destruct (bool_decide _); [apply IH|].
    destruct (fs p) as [sh|]; [|done]. cbv zeta.
    destruct (load_file_info sh (length infos)); [|done].
    etrans; [|apply IH]. by apply prefix_app_r.
  - intros _ Hall.
    destruct (load_files_completes fs paths (file_infos ui) Hall)
      as [Hok Hin].
    destruct (load_files fs paths (file_infos ui)) as [infos ok].
    simpl in *. subst ok. split_and!; [|done|].
    + intros p Hp. apply Hin. by left.
    + apply update_column_list_unchecked.
  - intros p Hp Hnew Hfs.
    destruct (load_files_fails fs paths (file_infos ui) p Hp Hnew Hfs)
      as [Hok Hnot].
    destruct (load_files fs paths (file_infos ui)) as [infos ok].
    simpl in *. by subst ok.
Qed.

Lemma select_files_outcomes_witness :
  let ui' := on_select_files fs_example ["b.xlsx"; "c.xlsx"; "a.xlsx"]
               ui_init in
  column_vars ui' = [] ∧ (file_infos ui').*1 = ["b.xlsx"] ∧
  "c.xlsx" ∉ (file_infos ui').*1.
Proof.
  intros ui'.
  destruct (select_files_outcomes fs_example ["b.xlsx"; "c.xlsx"; "a.xlsx"]
              ui_init) as (_ & _ & Hfail).
  destruct (Hfail "c.xlsx") as [Hvars Hnot].
  - right. left.
  - simpl. apply not_elem_of_nil.
  - left. vm_compute. reflexivity.
  - split; [exact Hvars|]. split; [|exact Hnot]. vm_compute. reflexivity.
Defined.

(** ** Removing files *)

Section remove_facts.
Context {A : Type}.
Implicit Types l : list A.

Lemma enumerate_snd l start : (enumerate start l).*2 = l.
Proof.
  revert start. induction l as [|x l IH]; intros start; simpl; [done|].
  by rewrite IH.
Qed.

Lemma enumerate_elem l start i x :
  (i, x) ∈ enumerate start l → (start ≤ i < start + length l)%nat.
Proof.
  intros [j Hj]%list_elem_of_lookup. rewrite enumerate_lookup in Hj.
  destruct (l !! j) eqn:Hl; [|done]. injection Hj as <- <-.
  apply lookup_lt_Some in Hl. lia.
Qed.

Lemma filter_ext_elem {B} (P Q : B → Prop)
    `{∀ x, Decision (P x)} `{∀ x, Decision (Q x)} (l : list B) :
  (∀ x, x ∈ l → P x ↔ Q x) → filter P l = filter Q l.
Proof.
  induction l as [|x l IH]; intros HPQ; [done|].
  assert (filter P l = filter Q l) as Hl.
  { apply IH. intros y Hy. apply HPQ. by right. }
  destruct (decide (P x)) as [HP|HP].
  - rewrite !filter_cons_True; [by rewrite Hl| |done].
    apply HPQ; [left|done].
  - rewrite !filter_cons_False; [done| |done].
    intros HQ. apply HP. apply HPQ; [left|done].
Qed.

Lemma filter_enumerate_ext (P Q : nat * A → Prop)
    `{∀ x, Decision (P x)} `{∀ x, Decision (Q x)} l start :
  (∀ i x, (start ≤ i < start + length l)%nat → P (i, x) ↔ Q (i, x)) →
  filter P (enumerate start l) = filter Q (enumerate start l).
Proof.
  intros HPQ. apply filter_ext_elem.
  intros [i x] Hin%enumerate_elem. by apply HPQ.
Qed.

Lemma remaining_snoc_out idxs m l :
  (length l ≤ m)%nat → remaining (idxs ++ [m]) l = remaining idxs l.
Proof.
  intros Hm. unfold remaining. f_equal. apply filter_enumerate_ext.
  intros i x Hi. simpl. rewrite not_elem_of_app, list_elem_of_singleton.
  split; [tauto|]. intros ?. split; [done|lia].
Qed.

Lemma remaining_snoc_in idxs m l :
  Forall (λ i, i < m)%nat idxs → (m < length l)%nat →
  remaining (idxs ++ [m]) l = remaining idxs (delete m l).
Proof.
  intros Hidxs Hm. rewrite Forall_forall in Hidxs.
  destruct (lookup_lt_is_Some_2 l m Hm) as [x Hx].
  rewrite <- (take_drop_middle l m x Hx) at 1.
  rewrite delete_take_drop.
  assert (length (take m l) = m) as Hlen by (rewrite length_take; lia).
  unfold remaining.
  rewrite !enumerate_app, Hlen. cbn [enumerate Nat.add].
  rewrite !filter_app, !fmap_app. f_equal.
  - f_equal. apply filter_enumerate_ext. intros i y Hi. simpl.
    rewrite not_elem_of_app, list_elem_of_singleton.
    split; [tauto|]. intros ?. split; [done|lia].
  - rewrite filter_cons_False.
    2:{ simpl. intros Hno. apply Hno. apply elem_of_app. right. left. }
    rewrite !filter_all, !enumerate_snd; [done| |].
    + intros [i y] Hin%enumerate_elem. simpl.
      intros Hi%Hidxs. lia.
    + intros [i y] Hin%enumerate_elem. simpl.
      rewrite not_elem_of_app, list_elem_of_singleton. split; [|lia].
      intros Hi%Hidxs. lia.
Qed.

Lemma foldl_pop_at_sorted idxs l :
  StronglySorted lt idxs →
  foldl pop_at l (reverse idxs) = remaining idxs l.
Proof.
  revert l. induction idxs as [|m idxs IH] using rev_ind; intros l Hs.
  { unfold remaining. simpl.
    rewrite filter_all, enumerate_snd; [done|].
    intros ix _. apply not_elem_of_nil. }
  apply StronglySorted_app in Hs as (Hlt & Hs & _).
  rewrite reverse_snoc. cbn [foldl]. rewrite IH by done.
  unfold pop_at at 1. destruct (decide (m < length l)%nat) as [Hm|Hm].
  - rewrite remaining_snoc_in; [done| |done].
    apply Forall_forall. intros i Hi. apply Hlt; [done|left].
  - rewrite remaining_snoc_out; [done|lia].
Qed.

End remove_facts.

(** X18. What [_on_remove_file] leaves. With the selected positions in ascending
    order, as the list box gives them, the files that remain are those at
    the positions that were not selected, in their order and numbered anew;
    a position beyond the list removes nothing. The column list is rebuilt
    from them, every box unchecked. *)
Theorem remove_file_remaining selected_indices ui :
  StronglySorted lt selected_indices → selected_indices ≠ [] →
  let ui' := on_remove_file selected_indices ui in
  file_infos ui' = imap renumber (remaining selected_indices (file_infos ui)) ∧
  (file_infos ui').*1 = remaining selected_indices (file_infos ui).*1 ∧
  column_vars ui' = update_column_list (file_infos ui') ∧
  Forall (λ kv, kv.2 = false) (column_vars ui').
Proof.
  intros Hs Hne ui'. subst ui'. unfold on_remove_file.
  destruct selected_indices as [|i idxs]; [done|].
  rewrite foldl_pop_at_sorted by done. cbn [file_infos column_vars].
  split_and!; [done| |done|apply update_column_list_unchecked].
  rewrite fmap_imap, (imap_ext _ (const fst)) by done. rewrite imap_const.
  unfold remaining.
  rewrite <- !list_fmap_compose.
  generalize 0%nat. generalize (file_infos ui).
  induction l as [|[p info] l IH]; intros start; [done|].
  cbn [enumerate fmap list_fmap].
  destruct (decide (start ∉ i :: idxs)) as [Hin|Hin].
  - rewrite !filter_cons_True by done. cbn [fmap list_fmap]. f_equal.
    apply IH.
  - rewrite !filter_cons_False by done. apply IH.
Qed.

Lemma remove_file_remaining_witness :
  (file_infos (on_remove_file [0; 5]%nat ui_example)).*1 = ["b.xlsx"] ∧
  column_vars (on_remove_file [0; 5]%nat ui_example)
    = [("0:ID", false); ("0:Score", false)].
Proof.
  destruct (remove_file_remaining [0; 5]%nat ui_example)
    as (_ & Hpaths & Hvars & _).
  - repeat constructor; lia.
  - done.
  - split; [rewrite Hpaths|rewrite Hvars]; vm_compute; reflexivity.
Defined.

(** ** A finished task *)

Section percentage_facts.

Lemma SFdiv_core_binary_same n :
  0 < n →
  SFdiv_core_binary prec emax n 0 n 0 = (2 ^ 53, -53, loc_Exact).
Proof.
  intros Hn. unfold SFdiv_core_binary.
  replace (Zdigits2 n + 0 - (Zdigits2 n + 0)) with 0 by lia.
  change (Z.min (fexp prec emax 0) (0 - 0)) with (-53).
  change (0 - 0 - -53) with 53. cbv iota.
  change IntDef.Z.div_eucl with Z.div_eucl.
  assert (Z.div_eucl (Z.shiftl n 53) n = (2 ^ 53, 0)) as ->.
  { rewrite Z.shiftl_mul_pow2 by lia.
    pose proof (Z_div_mod (n * 2 ^ 53) n ltac:(lia)) as Hdm.
    destruct (Z.div_eucl (n * 2 ^ 53) n) as [q r].
    destruct Hdm as [Heq Hr].
    assert (q = 2 ^ 53) as -> by nia.
    f_equal. lia. }
  f_equal. unfold new_location, new_location_even, new_location_odd.
  by destruct (Z.even n).
Qed.

Lemma py_truediv_same n :
  0 < n → py_truediv n n = Ok (S754_finite false 4503599627370496 (-52)).
Proof.
  intros Hn. unfold py_truediv.
  destruct (Z.eqb_spec n 0); [lia|].
  rewrite Z.abs_eq by lia. rewrite SFdiv_core_binary_same by done.
  assert ((n <? 0) = false) as -> by (apply Z.ltb_ge; lia).
  by vm_compute.
Qed.

End percentage_facts.

(** X19. A finished task shows 100 per cent: when [current] equals [total], and
    [total] is positive, the float quotient is exactly 1, whatever the size
    of the numbers, and the percentage is 100. *)
Theorem percentage_complete n :
  0 < n → percentage {| current := n; total := n |} = Ok 100.
Proof.
  intros Hn. unfold percentage. cbn [current total].
  destruct (Z.leb_spec n 0); [lia|].
  rewrite py_truediv_same by done. by vm_compute.
Qed.

Lemma percentage_complete_witness :
  percentage {| current := 7; total := 7 |} = Ok 100.
Proof. apply percentage_complete. lia. Defined.

Lemma choose_references_never_raises choose n dups refmap0 e :
  (∀ name file_list fi, (name, file_list) ∈ dups → fi ∈ file_list.*1 →
                        (fi < n)%nat) →
  choose_references choose n dups refmap0 ≠ Raised e.
Proof.
  revert refmap0. induction dups as [|[n0 l0] dups IH]; intros refmap0 H.
  { done. }
  cbn [choose_references].
  assert (forallb (λ file_index, file_index <? n)%nat l0.*1 = true) as ->.
  { apply forallb_forall. intros fi Hfi%list_elem_of_In.
    apply Nat.ltb_lt. apply (H n0 l0); [left|done]. }
  destruct (choose n0 l0.*1); [|done].
  apply IH. intros name file_list fi Hin. apply (H name file_list fi).
  by right.
Qed.

(** X20. From a window in the shape the handlers keep, an export raises nothing:
    every key of a checked box is read, and every file index it is read as
    is the index of a loaded file. The export returns, when there is
    nothing to do or a dialog is cancelled, or it starts the task. *)
Theorem export_never_raises fs ui files choose output_path e :
  ui_files fs ui files → vars_ok ui →
  on_export choose output_path ui ≠ Raised e.
Proof.
  intros Hfiles Hvars. unfold on_export.
  destruct (file_infos ui) as [|info0 infos] eqn:Hinfos; [done|].
  rewrite <- Hinfos.
  destruct (selected_columns_listed fs ui files Hfiles Hvars)
    as (cols & Hkeys & Hnd & Hcols).
  destruct (selected_keys (column_vars ui)) as [|k0 keys] eqn:Hskeys; [done|].
  rewrite Hkeys, parse_keys_round_trip.
  pose proof (choose_references_never_raises choose
                (length (file_infos ui)) (duplicate_columns cols) ∅ e) as Hno.
  destruct (choose_references choose (length (file_infos ui))
              (duplicate_columns cols) ∅) as [|e'|refmap'] eqn:Hrefs.
  - done.
  - intros [= ->]. apply Hno; [|done].
    intros name file_list fi [-> _]%duplicate_columns_elem
           ([f n'] & -> & [_ Hin]%list_elem_of_filter)%list_elem_of_fmap.
    rewrite Forall_forall in Hcols.
    destruct (Hcols _ Hin) as (sh & Hsh & _). cbn [fst] in *.
    destruct Hfiles as (_ & <- & _). by eapply lookup_lt_Some.
  - by destruct (decide (output_path = EmptyString)).
Qed.

Lemma export_never_raises_witness :
  on_export first_option "out.xlsx" ui_example ≠ Raised IndexError.
Proof.
  apply (export_never_raises fs_example ui_example [file_A; file_B]).
  - split_and!.
    + apply (bool_decide_unpack _). vm_compute. exact I.
    + reflexivity.
    + intros [|[|i]] sh; simpl; intros [= <-].
      * exists "a.xlsx", (file_info_of file_A (row_cells file_A 1) 0).
        split_and!; vm_compute; reflexivity.
      * exists "b.xlsx", (file_info_of file_B (row_cells file_B 1) 1).
        split_and!; vm_compute; reflexivity.
  - split.
    + apply (bool_decide_unpack _). vm_compute. exact I.
    + intros key Hkey. vm_compute in Hkey.
      repeat (apply elem_of_cons in Hkey as [->|Hkey]);
        [..|by apply elem_of_nil in Hkey].
      * exists ("a.xlsx", file_info_of file_A (row_cells file_A 1) 0),
          {| ci_name := "ID"; ci_index := 1; ci_file_index := 0 |}.
        split_and!; [vm_compute; left|vm_compute; left|vm_compute; reflexivity].
      * exists ("a.xlsx", file_info_of file_A (row_cells file_A 1) 0),
          {| ci_name := "Name"; ci_index := 2; ci_file_index := 0 |}.
        split_and!; [vm_compute; left|vm_compute; right; left
                    |vm_compute; reflexivity].
      * exists ("b.xlsx", file_info_of file_B (row_cells file_B 1) 1),
          {| ci_name := "ID"; ci_index := 1; ci_file_index := 1 |}.
        split_and!; [vm_compute; right; left|vm_compute; left
                    |vm_compute; reflexivity].
      * exists ("b.xlsx", file_info_of file_B (row_cells file_B 1) 1),
          {| ci_name := "Score"; ci_index := 2; ci_file_index := 1 |}.
        split_and!; [vm_compute; right; left|vm_compute; right; left
                    |vm_compute; reflexivity].
Defined.
